(** * Graph engine of lab-10: storage backends and classical algorithms

    Shallow embedding of
      - [modules/graph_representation.py]  (AdjacencyMatrix, AdjacencyList)
      - [modules/graph_traversal.py]       (GraphTraversal)
      - [modules/shortest_path.py]         (ShortestPath, Connectivity,
                                            TopologicalSort)

    Conventions.
      - a vertex (Python [int]) is a [Z]; a weight (Python [float], IEEE
        binary64) is a primitive [float];
      - a Python [dict] whose iteration order is observed is an association
        list in insertion order ([OrderedDict]); a dict that is only looked
        up is a [gmap]; a Python [set] is a [gset];
      - a call either returns, raises, or runs longer than the budget of loop
        iterations / recursion depth it was given ([outcome]). *)

From Stdlib Require Import ZArith PrimFloat.
From Stdlib Require FloatAxioms.
From stdpp Require Import gmap list.

Open Scope Z_scope.

(* stdpp's [naive_solver] clears hypotheses that may already be gone *)
Set Warnings "-clear-no-such-hyp".

(** ** Python run-time outcomes *)

Inductive exn : Set := KeyError | ValueError.

Inductive outcome (A : Type) : Type :=
| Return (a : A)
| Raise (e : exn)
| OutOfFuel.
Arguments Return {A} a.
Arguments Raise {A} e.
Arguments OutOfFuel {A}.

#[global] Instance outcome_ret : MRet outcome := λ A a, Return a.
#[global] Instance outcome_bind : MBind outcome := λ A B f m,
  match m with
  | Return a => f a
  | Raise e => Raise e
  | OutOfFuel => OutOfFuel
  end.

(** [for x in l: s = f(s, x)], where the body may raise. *)
Fixpoint for_each {S A : Type} (f : S → A → outcome S) (l : list A) (s : S)
  : outcome S :=
  match l with
  | [] => Return s
  | x :: l' => s' ← f s x; for_each f l' s'
  end.

(** ** Insertion-ordered dictionaries with integer keys *)

Module OrderedDict.
Section ordered_dict.
Context {V : Type}.

(** [d.get(k)] *)
Fixpoint get (d : list (Z * V)) (k : Z) : option V :=
  match d with
  | [] => None
  | (k', v) :: d' => if decide (k' = k) then Some v else get d' k
  end.

(** [k in d] *)
Definition contains (d : list (Z * V)) (k : Z) : bool :=
  match get d k with Some _ => true | None => false end.

(** [d[k] = v]: an existing key keeps its position, a new key goes last. *)
Fixpoint set (d : list (Z * V)) (k : Z) (v : V) : list (Z * V) :=
  match d with
  | [] => [(k, v)]
  | (k', v') :: d' =>
      if decide (k' = k) then (k', v) :: d' else (k', v') :: set d' k v
  end.

(** [list(d.keys())] *)
Definition keys (d : list (Z * V)) : list Z := d.*1.
End ordered_dict.
End OrderedDict.

(** ** AdjacencyMatrix *)

Module AdjacencyMatrix.

Record t : Type := mk {
  directed : bool;
  weighted : bool;
  vertices : list (Z * nat);               (* vertex -> index *)
  index_to_vertex : gmap nat Z;            (* index -> vertex *)
  matrix : list (list (option float));
  vertex_count : nat
}.

(** [AdjacencyMatrix(directed, weighted)] *)
Definition init (directed weighted : bool) : t :=
  mk directed weighted [] ∅ [] 0.

(** [matrix[i][j]].  Python raises IndexError outside the matrix; every
    store reachable through the public methods is [vertex_count] square and
    only indexes below [vertex_count] (lemma [matrix_run_wf]), so the
    default is never observed. *)
Definition cell (m : list (list (option float))) (i j : nat) : option float :=
  match m !! i with
  | Some row => default None (row !! j)
  | None => None
  end.

(** [matrix[i][j] = x] (same remark for indexes out of range). *)
Definition set_cell (m : list (list (option float))) (i j : nat)
    (x : option float) : list (list (option float)) :=
  alter (λ row, <[j := x]> row) i m.

(** [index_to_vertex[i]] (the key is present for every [i < vertex_count]). *)
Definition vertex_at (g : t) (i : nat) : Z :=
  default 0 (index_to_vertex g !! i).

(** [new_matrix = [[None] * new_size for _ in range(new_size)]] followed by
    the two copy loops over [range(vertex_count)] *)
Definition grow (m : list (list (option float))) (n : nat)
  : list (list (option float)) :=
  let new_size := (n + 1)%nat in
  (λ i, (λ j, if bool_decide (i < n ∧ j < n)%nat then cell m i j else None)
        <$> seq 0 new_size)
  <$> seq 0 new_size.

Definition add_vertex (g : t) (vertex : Z) : t :=
  if OrderedDict.contains (vertices g) vertex then g
  else
    mk (directed g) (weighted g)
       (OrderedDict.set (vertices g) vertex (vertex_count g))
       (<[vertex_count g := vertex]> (index_to_vertex g))
       (grow (matrix g) (vertex_count g))
       (vertex_count g + 1)%nat.

Definition with_matrix (g : t) (m : list (list (option float))) : t :=
  mk (directed g) (weighted g) (vertices g) (index_to_vertex g) m
     (vertex_count g).

Definition add_edge (g : t) (u v : Z) (weight : float) : t :=
  let g := add_vertex g u in
  let g := add_vertex g v in
  match OrderedDict.get (vertices g) u, OrderedDict.get (vertices g) v with
  | Some u_idx, Some v_idx =>
      let m := set_cell (matrix g) u_idx v_idx (Some weight) in
      let m := if directed g then m
               else set_cell m v_idx u_idx (Some weight) in
      with_matrix g m
  | _, _ => g   (* unreachable: both keys were just added *)
  end.

Definition remove_edge (g : t) (u v : Z) : t :=
  match OrderedDict.get (vertices g) u, OrderedDict.get (vertices g) v with
  | Some u_idx, Some v_idx =>
      let m := set_cell (matrix g) u_idx v_idx None in
      let m := if directed g then m else set_cell m v_idx u_idx None in
      with_matrix g m
  | _, _ => g
  end.

Definition has_edge (g : t) (u v : Z) : bool :=
  match OrderedDict.get (vertices g) u, OrderedDict.get (vertices g) v with
  | Some u_idx, Some v_idx =>
      match cell (matrix g) u_idx v_idx with Some _ => true | None => false end
  | _, _ => false
  end.

Definition get_weight (g : t) (u v : Z) : option float :=
  if has_edge g u v then
    match OrderedDict.get (vertices g) u, OrderedDict.get (vertices g) v with
    | Some u_idx, Some v_idx => cell (matrix g) u_idx v_idx
    | _, _ => None
    end
  else None.

Definition get_neighbors (g : t) (vertex : Z) : list (Z * float) :=
  match OrderedDict.get (vertices g) vertex with
  | None => []
  | Some vertex_idx =>
      foldl (λ neighbors i,
               match cell (matrix g) vertex_idx i with
               | Some weight => neighbors ++ [(vertex_at g i, weight)]
               | None => neighbors
               end)
            [] (seq 0 (vertex_count g))
  end.

Definition get_vertices (g : t) : list Z := OrderedDict.keys (vertices g).

Definition edge_key (g : t) (u v : Z) : Z * Z :=
  if directed g then (u, v) else (Z.min u v, Z.max u v).

Definition get_edges (g : t) : list (Z * Z * float) :=
  fst (foldl (λ acc '(u, u_idx),
         foldl (λ '(edges, visited_edges) i,
                  match cell (matrix g) u_idx i with
                  | Some weight =>
                      let v := vertex_at g i in
                      if decide (edge_key g u v ∈ visited_edges)
                      then (edges, visited_edges)
                      else (edges ++ [(u, v, weight)],
                            {[edge_key g u v]} ∪ visited_edges)
                  | None => (edges, visited_edges)
                  end)
               acc (seq 0 (vertex_count g)))
       ([], (∅ : gset (Z * Z))) (vertices g)).

Definition get_vertex_count (g : t) : nat := vertex_count g.

Definition get_edge_count (g : t) : nat := length (get_edges g).

End AdjacencyMatrix.

(** ** AdjacencyList *)

Module AdjacencyList.

Record t : Type := mk {
  directed : bool;
  weighted : bool;
  graph : list (Z * list (Z * float))    (* defaultdict(list) *)
}.

Definition init (directed weighted : bool) : t := mk directed weighted [].

Definition with_graph (g : t) (d : list (Z * list (Z * float))) : t :=
  mk (directed g) (weighted g) d.

(** [self.graph[u]] on the defaultdict: a missing key reads as [[]] (and is
    created by the store that follows in [append]). *)
Definition adj (g : t) (u : Z) : list (Z * float) :=
  default [] (OrderedDict.get (graph g) u).

Definition add_vertex (g : t) (vertex : Z) : t :=
  if OrderedDict.contains (graph g) vertex then g
  else with_graph g (OrderedDict.set (graph g) vertex []).

(** [self.graph[u].append(x)] *)
Definition append (g : t) (u : Z) (x : Z * float) : t :=
  with_graph g (OrderedDict.set (graph g) u (adj g u ++ [x])).

Definition add_edge (g : t) (u v : Z) (weight : float) : t :=
  let g := add_vertex g u in
  let g := add_vertex g v in
  let g := append g u (v, weight) in
  if directed g then g else append g v (u, weight).

(** [[(neighbor, w) for neighbor, w in l if neighbor != v]] *)
Definition without (v : Z) (l : list (Z * float)) : list (Z * float) :=
  filter (λ e, e.1 ≠ v) l.

Definition remove_edge (g : t) (u v : Z) : t :=
  if OrderedDict.contains (graph g) u then
    let g := with_graph g (OrderedDict.set (graph g) u (without v (adj g u))) in
    if negb (directed g) && OrderedDict.contains (graph g) v
    then with_graph g (OrderedDict.set (graph g) v (without u (adj g v)))
    else g
  else g.

Definition has_edge (g : t) (u v : Z) : bool :=
  if OrderedDict.contains (graph g) u
  then existsb (λ e, bool_decide (e.1 = v)) (adj g u)
  else false.

(** the [for neighbor, weight in self.graph[u]] loop with its early return *)
Fixpoint first_weight (v : Z) (l : list (Z * float)) : option float :=
  match l with
  | [] => None
  | (neighbor, weight) :: l' =>
      if decide (neighbor = v) then Some weight else first_weight v l'
  end.

Definition get_weight (g : t) (u v : Z) : option float :=
  if OrderedDict.contains (graph g) u then first_weight v (adj g u) else None.

Definition get_neighbors (g : t) (vertex : Z) : list (Z * float) :=
  default [] (OrderedDict.get (graph g) vertex).

Definition get_vertices (g : t) : list Z := OrderedDict.keys (graph g).

Definition edge_key (g : t) (u v : Z) : Z * Z :=
  if directed g then (u, v) else (Z.min u v, Z.max u v).

Definition get_edges (g : t) : list (Z * Z * float) :=
  fst (foldl (λ acc '(u, l),
         foldl (λ '(edges, visited_edges) '(v, weight),
                  if decide (edge_key g u v ∈ visited_edges)
                  then (edges, visited_edges)
                  else (edges ++ [(u, v, weight)],
                        {[edge_key g u v]} ∪ visited_edges))
               acc l)
       ([], (∅ : gset (Z * Z))) (graph g)).

Definition get_vertex_count (g : t) : nat := length (graph g).

Definition get_edge_count (g : t) : nat := length (get_edges g).

End AdjacencyList.

(** ** The interface the algorithms rely on

    The algorithm classes are duck-typed: they use [graph.directed],
    [graph.get_vertices()] and [graph.get_neighbors(v)] only. *)

Class Graph (G : Type) : Type := {
  directed : G → bool;
  get_vertices : G → list Z;
  get_neighbors : G → Z → list (Z * float)
}.

#[global] Instance matrix_graph : Graph AdjacencyMatrix.t := {|
  directed := AdjacencyMatrix.directed;
  get_vertices := AdjacencyMatrix.get_vertices;
  get_neighbors := AdjacencyMatrix.get_neighbors
|}.

#[global] Instance list_graph : Graph AdjacencyList.t := {|
  directed := AdjacencyList.directed;
  get_vertices := AdjacencyList.get_vertices;
  get_neighbors := AdjacencyList.get_neighbors
|}.

(** [for neighbor, _ in graph.get_neighbors(v)] *)
Definition neighbors {G} `{Graph G} (g : G) (v : Z) : list Z :=
  (get_neighbors g v).*1.

(** ** Sequences of mutations, applied to either backend *)

Inductive op : Type :=
| AddVertex (v : Z)
| AddEdge (u v : Z) (weight : float)
| RemoveEdge (u v : Z).

Definition matrix_step (g : AdjacencyMatrix.t) (o : op) : AdjacencyMatrix.t :=
  match o with
  | AddVertex v => AdjacencyMatrix.add_vertex g v
  | AddEdge u v w => AdjacencyMatrix.add_edge g u v w
  | RemoveEdge u v => AdjacencyMatrix.remove_edge g u v
  end.

Definition list_step (g : AdjacencyList.t) (o : op) : AdjacencyList.t :=
  match o with
  | AddVertex v => AdjacencyList.add_vertex g v
  | AddEdge u v w => AdjacencyList.add_edge g u v w
  | RemoveEdge u v => AdjacencyList.remove_edge g u v
  end.

Definition matrix_run (directed weighted : bool) (ops : list op)
  : AdjacencyMatrix.t :=
  foldl matrix_step (AdjacencyMatrix.init directed weighted) ops.

Definition list_run (directed weighted : bool) (ops : list op)
  : AdjacencyList.t :=
  foldl list_step (AdjacencyList.init directed weighted) ops.

(** ** GraphTraversal *)

Module GraphTraversal.
Section traversal.
Context {G : Type} `{Graph G}.

Record bfs_state : Type := BfsState {
  distances : gmap Z Z;
  parents : gmap Z (option Z);
  queue : list Z;               (* deque: head = left end *)
  visited : gset Z
}.

(** body of [for neighbor, _ in graph.get_neighbors(current)] *)
Definition bfs_visit (current current_distance : Z)
    (st : bfs_state) (neighbor : Z) : bfs_state :=
  if decide (neighbor ∈ visited st) then st
  else {| visited := {[neighbor]} ∪ visited st;
          distances := <[neighbor := current_distance + 1]> (distances st);
          parents := <[neighbor := Some current]> (parents st);
          queue := queue st ++ [neighbor] |}.

(** [while queue: ...]; [fuel] bounds the number of iterations. *)
Fixpoint bfs_loop (fuel : nat) (g : G) (st : bfs_state)
  : outcome (gmap Z Z * gmap Z (option Z)) :=
  match queue st with
  | [] => Return (distances st, parents st)
  | current :: rest =>
      match fuel with
      | O => OutOfFuel
      | S fuel' =>
          match distances st !! current with
          | None => Raise KeyError
          | Some current_distance =>
              bfs_loop fuel' g
                (foldl (bfs_visit current current_distance)
                   {| distances := distances st; parents := parents st;
                      queue := rest; visited := visited st |}
                   (neighbors g current))
          end
      end
  end.

Definition bfs (fuel : nat) (g : G) (start : Z)
  : outcome (gmap Z Z * gmap Z (option Z)) :=
  bfs_loop fuel g {| distances := {[start := 0]};
                     parents := {[start := None]};
                     queue := [start];
                     visited := {[start]} |}.

(** [while current is not None: path.append(current);
    current = parents[current]] *)
Fixpoint walk_back (fuel : nat) (parents : gmap Z (option Z))
    (current : option Z) (path : list Z) : outcome (list Z) :=
  match current with
  | None => Return path
  | Some c =>
      match fuel with
      | O => OutOfFuel
      | S fuel' =>
          match parents !! c with
          | None => Raise KeyError
          | Some p => walk_back fuel' parents p (path ++ [c])
          end
      end
  end.

Definition bfs_path (fuel : nat) (g : G) (start end_ : Z)
  : outcome (option (list Z)) :=
  '(distances, parents) ← bfs fuel g start;
  match distances !! end_ with
  | None => Return None
  | Some _ =>
      path ← walk_back fuel parents (Some end_) [];
      Return (Some (reverse path))
  end.

(** [dfs_recursive(graph, start, visited)]: the shared [visited] set is
    threaded through the calls; [depth] bounds the call stack. *)
Fixpoint dfs_recursive (depth : nat) (g : G) (start : Z) (visited : gset Z)
  : outcome (list Z * gset Z) :=
  match depth with
  | O => OutOfFuel
  | S depth' =>
      for_each
        (λ '(result, visited) neighbor,
           if decide (neighbor ∈ visited) then Return (result, visited)
           else
             '(sub, visited') ← dfs_recursive depth' g neighbor visited;
             Return (result ++ sub, visited'))
        (neighbors g start)
        ([start], {[start]} ∪ visited)
  end.

(** [if neighbor not in visited: stack.append(neighbor)]; the top of the
    Python stack (the end of its list) is the head here. *)
Definition push_unvisited (visited : gset Z) (stack : list Z) (neighbor : Z)
  : list Z :=
  if decide (neighbor ∈ visited) then stack else neighbor :: stack.

Fixpoint dfs_iterative_loop (fuel : nat) (g : G)
    (stack : list Z) (visited : gset Z) (result : list Z)
  : outcome (list Z) :=
  match stack with
  | [] => Return result
  | current :: stack' =>
      match fuel with
      | O => OutOfFuel
      | S fuel' =>
          if decide (current ∈ visited)
          then dfs_iterative_loop fuel' g stack' visited result
          else
            let visited := {[current]} ∪ visited in
            dfs_iterative_loop fuel' g
              (foldl (push_unvisited visited) stack'
                 (reverse (neighbors g current)))
              visited (result ++ [current])
      end
  end.

Definition dfs_iterative (fuel : nat) (g : G) (start : Z)
  : outcome (list Z) :=
  dfs_iterative_loop fuel g [start] ∅ [].

(** the [while stack] loop of [dfs_iterative_from_vertex]; it works on the
    [visited] set of its caller, which is handed back with the component *)
Fixpoint dfs_from_vertex_loop (fuel : nat) (g : G)
    (stack : list Z) (visited : gset Z) (component : list Z)
  : outcome (list Z * gset Z) :=
  match stack with
  | [] => Return (component, visited)
  | current :: stack' =>
      match fuel with
      | O => OutOfFuel
      | S fuel' =>
          if decide (current ∈ visited)
          then dfs_from_vertex_loop fuel' g stack' visited component
          else
            let visited := {[current]} ∪ visited in
            dfs_from_vertex_loop fuel' g
              (foldl (push_unvisited visited) stack'
                 (reverse (neighbors g current)))
              visited (component ++ [current])
      end
  end.

Definition dfs_iterative_from_vertex (fuel : nat) (g : G) (start : Z)
    (visited : gset Z) : outcome (list Z * gset Z) :=
  if decide (start ∈ visited) then Return ([], visited)
  else dfs_from_vertex_loop fuel g [start] visited [].

Definition dfs_all_components (fuel : nat) (g : G)
  : outcome (list (list Z)) :=
  '(components, _) ←
    for_each
      (λ '(components, visited) vertex,
         if decide (vertex ∈ visited) then Return (components, visited)
         else
           '(component, visited') ←
             dfs_iterative_from_vertex fuel g vertex visited;
           Return (components ++ [component], visited'))
      (get_vertices g) ([], ∅);
  Return components.

End traversal.
End GraphTraversal.

(** ** ShortestPath *)

Module ShortestPath.
Section shortest_path.
Context {G : Type} `{Graph G}.

(** Order of the heap entries [(distance, vertex)]: Python compares tuples
    lexicographically, the first components with [==] and [<] of floats. *)
Definition entry_lt (a b : float * Z) : bool :=
  if PrimFloat.eqb a.1 b.1 then bool_decide (a.2 < b.2)
  else PrimFloat.ltb a.1 b.1.

(** [heapq] is Python's library: [heappop] hands out a least entry.  The
    queue is kept as a list in ascending order, [heappush] inserts behind
    the entries that are not greater. *)
Fixpoint heappush (pq : list (float * Z)) (x : float * Z)
  : list (float * Z) :=
  match pq with
  | [] => [x]
  | y :: pq' => if entry_lt x y then x :: y :: pq' else y :: heappush pq' x
  end.

Record dijkstra_state : Type := DijkstraState {
  distances : gmap Z float;
  parents : gmap Z (option Z);
  pq : list (float * Z)
}.

(** body of [for neighbor, weight in graph.get_neighbors(current)] *)
Definition relax (visited : gset Z) (current_dist : float) (current : Z)
    (st : dijkstra_state) (e : Z * float) : outcome dijkstra_state :=
  let '(neighbor, weight) := e in
  if decide (neighbor ∈ visited) then Return st
  else
    let new_dist := PrimFloat.add current_dist weight in
    match distances st !! neighbor with
    | None => Raise KeyError
    | Some d =>
        if PrimFloat.ltb new_dist d
        then Return {| distances := <[neighbor := new_dist]> (distances st);
                       parents := <[neighbor := Some current]> (parents st);
                       pq := heappush (pq st) (new_dist, neighbor) |}
        else Return st
    end.

Fixpoint dijkstra_loop (fuel : nat) (g : G)
    (st : dijkstra_state) (visited : gset Z)
  : outcome (gmap Z float * gmap Z (option Z)) :=
  match pq st with
  | [] => Return (distances st, parents st)
  | (current_dist, current) :: rest =>
      match fuel with
      | O => OutOfFuel
      | S fuel' =>
          let st := {| distances := distances st; parents := parents st;
                       pq := rest |} in
          if decide (current ∈ visited)
          then dijkstra_loop fuel' g st visited
          else
            let visited := {[current]} ∪ visited in
            st' ← for_each (relax visited current_dist current)
                     (get_neighbors g current) st;
            dijkstra_loop fuel' g st' visited
      end
  end.

Definition dijkstra (fuel : nat) (g : G) (start : Z)
  : outcome (gmap Z float * gmap Z (option Z)) :=
  let distances :=
    foldl (λ d v, <[v := infinity]> d) (∅ : gmap Z float) (get_vertices g) in
  let distances := <[start := 0%float]> distances in
  let parents :=
    foldl (λ p v, <[v := None]> p) (∅ : gmap Z (option Z)) (get_vertices g) in
  dijkstra_loop fuel g
    {| distances := distances; parents := parents; pq := [(0%float, start)] |}
    ∅.

Definition dijkstra_path (fuel : nat) (g : G) (start end_ : Z)
  : outcome (option (list Z * float)) :=
  '(distances, parents) ← dijkstra fuel g start;
  match distances !! end_ with
  | None => Raise KeyError
  | Some d =>
      if PrimFloat.eqb d infinity then Return None
      else
        path ← GraphTraversal.walk_back fuel parents (Some end_) [];
        Return (Some (reverse path, d))
  end.

End shortest_path.
End ShortestPath.

(** ** Connectivity *)

Module Connectivity.
Section connectivity.
Context {G : Type} `{Graph G}.

(** [if neighbor not in visited: stack.append(neighbor)] *)
Definition push_unvisited (visited : gset Z) (stack : list Z) (neighbor : Z)
  : list Z :=
  if decide (neighbor ∈ visited) then stack else neighbor :: stack.

Fixpoint dfs_component_loop (fuel : nat) (g : G)
    (stack : list Z) (visited : gset Z) (component : list Z)
  : outcome (list Z * gset Z) :=
  match stack with
  | [] => Return (component, visited)
  | current :: stack' =>
      match fuel with
      | O => OutOfFuel
      | S fuel' =>
          if decide (current ∈ visited)
          then dfs_component_loop fuel' g stack' visited component
          else
            let visited := {[current]} ∪ visited in
            dfs_component_loop fuel' g
              (foldl (push_unvisited visited) stack' (neighbors g current))
              visited (component ++ [current])
      end
  end.

Definition _dfs_component (fuel : nat) (g : G) (start : Z) (visited : gset Z)
  : outcome (list Z * gset Z) :=
  dfs_component_loop fuel g [start] visited [].

Definition find_connected_components (fuel : nat) (g : G)
  : outcome (list (list Z)) :=
  '(components, _) ←
    for_each
      (λ '(components, visited) vertex,
         if decide (vertex ∈ visited) then Return (components, visited)
         else
           '(component, visited') ← _dfs_component fuel g vertex visited;
           Return (components ++ [component], visited'))
      (get_vertices g) ([], ∅);
  Return components.

Definition is_connected (fuel : nat) (g : G) : outcome bool :=
  match get_vertices g with
  | [] => Return true
  | _ =>
      components ← find_connected_components fuel g;
      Return (bool_decide (length components = 1%nat))
  end.

End connectivity.
End Connectivity.

(** ** TopologicalSort *)

(** [for x in l: if not f(x): return False], then [True]. *)
Fixpoint all_ok {S A : Type} (f : A → S → outcome (bool * S)) (l : list A)
    (s : S) : outcome (bool * S) :=
  match l with
  | [] => Return (true, s)
  | x :: l' =>
      '(ok, s') ← f x s;
      if ok : bool then all_ok f l' s' else Return (false, s')
  end.

Module TopologicalSort.
Section topological_sort.
Context {G : Type} `{Graph G}.

(** [in_degree[neighbor] -= 1; if in_degree[neighbor] == 0: queue.append] *)
Definition decrement (st : list (Z * Z) * list Z) (neighbor : Z)
  : outcome (list (Z * Z) * list Z) :=
  let '(in_degree, queue) := st in
  match OrderedDict.get in_degree neighbor with
  | None => Raise KeyError
  | Some d =>
      let in_degree := OrderedDict.set in_degree neighbor (d - 1) in
      if decide (d - 1 = 0) then Return (in_degree, queue ++ [neighbor])
      else Return (in_degree, queue)
  end.

Fixpoint kahn_loop (fuel : nat) (g : G) (in_degree : list (Z * Z))
    (queue result : list Z) : outcome (list Z) :=
  match queue with
  | [] => Return result
  | current :: queue' =>
      match fuel with
      | O => OutOfFuel
      | S fuel' =>
          '(in_degree', queue'') ←
            for_each decrement (neighbors g current) (in_degree, queue');
          kahn_loop fuel' g in_degree' queue'' (result ++ [current])
      end
  end.

Definition topological_sort (fuel : nat) (g : G) : outcome (option (list Z)) :=
  if negb (directed g) then Raise ValueError
  else
    let in_degree := foldl (λ d v, OrderedDict.set d v 0) [] (get_vertices g) in
    let in_degree :=
      foldl (λ d u,
               foldl (λ d v,
                        OrderedDict.set d v (default 0 (OrderedDict.get d v) + 1))
                     d (neighbors g u))
            in_degree (get_vertices g) in
    let queue := (filter (λ e, e.2 = 0) in_degree).*1 in
    result ← kahn_loop fuel g in_degree queue [];
    if decide (length result ≠ length (get_vertices g)) then Return None
    else Return (Some result).

Record dfs_state : Type := DfsState {
  visited : gset Z;
  rec_stack : gset Z;
  result : list Z
}.

(** the nested [dfs(vertex)]; [depth] bounds the call stack. *)
Fixpoint dfs (depth : nat) (g : G) (vertex : Z) (st : dfs_state)
  : outcome (bool * dfs_state) :=
  match depth with
  | O => OutOfFuel
  | S depth' =>
      if decide (vertex ∈ rec_stack st) then Return (false, st)
      else if decide (vertex ∈ visited st) then Return (true, st)
      else
        let st := {| visited := {[vertex]} ∪ visited st;
                     rec_stack := {[vertex]} ∪ rec_stack st;
                     result := result st |} in
        '(ok, st) ← all_ok (dfs depth' g) (neighbors g vertex) st;
        if ok : bool then
          if decide (vertex ∈ rec_stack st)
          then Return (true, {| visited := visited st;
                                rec_stack := rec_stack st ∖ {[vertex]};
                                result := result st ++ [vertex] |})
          else Raise KeyError
        else Return (false, st)
  end.

Definition topological_sort_dfs (depth : nat) (g : G)
  : outcome (option (list Z)) :=
  if negb (directed g) then Raise ValueError
  else
    '(ok, st) ←
      all_ok (λ vertex st,
                if decide (vertex ∈ visited st) then Return (true, st)
                else dfs depth g vertex st)
             (get_vertices g)
             {| visited := ∅; rec_stack := ∅; result := [] |};
    if ok : bool then Return (Some (reverse (result st))) else Return None.

End topological_sort.
End TopologicalSort.

(** ** Graphs of the test suite *)

Definition reference_edges : list op :=
  [AddEdge 1 2 2; AddEdge 2 3 3; AddEdge 1 4 1; AddEdge 2 5 4; AddEdge 4 5 1]%float.

Definition dag_edges : list op :=
  [AddEdge 1 2 1; AddEdge 1 3 1; AddEdge 2 4 1; AddEdge 3 4 1]%float.

Definition cycle_edges : list op :=
  [AddEdge 1 2 1; AddEdge 2 3 1; AddEdge 3 1 1]%float.

(** * Vocabulary of the statements *)

(** [l.index(x)] *)
Fixpoint index (l : list Z) (x : Z) : option nat :=
  match l with
  | [] => None
  | y :: l' => if decide (y = x) then Some O else S <$> index l' x
  end.

Definition precedes (l : list Z) (a b : Z) : Prop :=
  ∃ i j, index l a = Some i ∧ index l b = Some j ∧ (i < j)%nat.

Definition finished {A} (o : outcome A) : Prop := o ≠ OutOfFuel.


(** ** The two stores as tables of weights *)

(** weights of the entries of an adjacency list that point to [v], oldest
    first *)
Definition entries (l : list (Z * float)) (v : Z) : list float :=
  (filter (λ e, e.1 = v) l).*2.

(** the entries the list store holds for the ordered pair [(u, v)] *)
Definition list_entries (g : AdjacencyList.t) (u v : Z) : list float :=
  entries (AdjacencyList.adj g u) v.

(** the weight the matrix store holds for the ordered pair [(u, v)] *)
Definition matrix_weight (g : AdjacencyMatrix.t) (u v : Z) : option float :=
  match OrderedDict.get (AdjacencyMatrix.vertices g) u,
        OrderedDict.get (AdjacencyMatrix.vertices g) v with
  | Some i, Some j => AdjacencyMatrix.cell (AdjacencyMatrix.matrix g) i j
  | _, _ => None
  end.

(** the ordered pairs [(a, b)] that [add_edge(u, v)] and [remove_edge(u, v)]
    write to: the pair itself and, on an undirected store, its mirror *)
Definition touched (directed : bool) (u v a b : Z) : Prop :=
  (a, b) = (u, v) ∨ (directed = false ∧ (a, b) = (v, u)).

#[global] Instance touched_dec directed u v a b :
  Decision (touched directed u v a b).
Proof. unfold touched. apply _. Defined.

(** the weights [add_edge(u, v, w)] appends to the pair [(a, b)] of the list
    store *)
Definition added (directed : bool) (u v : Z) (w : float) (a b : Z) : list float :=
  (if decide ((a, b) = (u, v)) then [w] else [])
  ++ (if directed then []
      else if decide ((a, b) = (v, u)) then [w] else []).

(** [matrix[i][j] = x], in both directions on an undirected store *)
Definition assign (g : AdjacencyMatrix.t) (u_idx v_idx : nat) (x : option float)
  : AdjacencyMatrix.t :=
  let m := AdjacencyMatrix.set_cell (AdjacencyMatrix.matrix g) u_idx v_idx x in
  let m := if AdjacencyMatrix.directed g then m
           else AdjacencyMatrix.set_cell m v_idx u_idx x in
  AdjacencyMatrix.with_matrix g m.

(** Shape of every reachable matrix store: a square matrix of side
    [vertex_count] and two dictionaries that are inverse bijections between
    the vertices and the indexes below [vertex_count]. *)
Record matrix_wf (g : AdjacencyMatrix.t) : Prop := MatrixWf {
  wf_rows : length (AdjacencyMatrix.matrix g) = AdjacencyMatrix.vertex_count g;
  wf_cols : ∀ i row, AdjacencyMatrix.matrix g !! i = Some row →
              length row = AdjacencyMatrix.vertex_count g;
  wf_index : ∀ v i, OrderedDict.get (AdjacencyMatrix.vertices g) v = Some i
               ↔ AdjacencyMatrix.index_to_vertex g !! i = Some v;
  wf_range : ∀ i, is_Some (AdjacencyMatrix.index_to_vertex g !! i)
               ↔ (i < AdjacencyMatrix.vertex_count g)%nat
}.

(** on an undirected list store both directions of a pair hold the same
    weights, in the same order *)
Definition list_sym (g : AdjacencyList.t) : Prop :=
  AdjacencyList.directed g = false →
  ∀ a b, list_entries g a b = list_entries g b a.

(** the matrix holds, for every ordered pair, the weight that was appended
    last to the adjacency list *)
Record related (m : AdjacencyMatrix.t) (l : AdjacencyList.t) : Prop := Related {
  rel_wf : matrix_wf m;
  rel_directed : AdjacencyMatrix.directed m = AdjacencyList.directed l;
  rel_vertices : AdjacencyMatrix.get_vertices m = AdjacencyList.get_vertices l;
  rel_weight : ∀ a b, matrix_weight m a b = last (list_entries l a b);
  rel_sym : list_sym l
}.



(** ** Graphs, walks and reachability *)

Section graph_vocabulary.
Context {G : Type} `{Graph G}.

(** [v] is enumerated by [get_neighbors(u)] *)
Definition edge (g : G) (u v : Z) : Prop := v ∈ neighbors g u.

(** every enumerated neighbour is one of [get_vertices()] *)
Definition closed (g : G) : Prop :=
  ∀ u v, edge g u v → v ∈ get_vertices g.

(** [walk g s n v]: [v] is reached from [s] along [n] edges *)
Inductive walk (g : G) (s : Z) : nat → Z → Prop :=
| walk_O : walk g s O s
| walk_S n v w : walk g s n v → edge g v w → walk g s (S n) w.

Definition reachable (g : G) (s v : Z) : Prop := ∃ n, walk g s n v.

(** consecutive vertices of the list are joined by an edge *)
Fixpoint is_path (g : G) (p : list Z) : Prop :=
  match p with
  | [] => True
  | x :: p' =>
      match p' with
      | [] => True
      | y :: _ => edge g x y ∧ is_path g p'
      end
  end.

(** [v] is reached from [s] through vertices outside [X] only *)
Inductive reach_avoid (g : G) (X : gset Z) (s : Z) : Z → Prop :=
| ra_refl : s ∉ X → reach_avoid g X s s
| ra_step v w :
    reach_avoid g X s v → edge g v w → w ∉ X → reach_avoid g X s w.

(** the components found by scanning the vertices [vs] with [X] already
    visited: every vertex outside the visited set opens a component, made
    of what it reaches outside that set *)
Inductive comps_from (g : G)
  : list Z → gset Z → list (list Z) → gset Z → Prop :=
| cf_nil X : comps_from g [] X [] X
| cf_skip v vs X cs X' :
    v ∈ X → comps_from g vs X cs X' → comps_from g (v :: vs) X cs X'
| cf_comp v vs X c cs X' :
    v ∉ X → NoDup c → (∀ x, x ∈ c ↔ reach_avoid g X v x) →
    comps_from g vs (X ∪ list_to_set c) cs X' →
    comps_from g (v :: vs) X (c :: cs) X'.

(** the vertices a traversal from [start] can meet *)
Definition universe (g : G) (start : Z) : gset Z :=
  {[start]} ∪ list_to_set (get_vertices g).
End graph_vocabulary.

(** ** A graph read with its neighbour lists reversed *)

(** [dfs_iterative] and [dfs_iterative_from_vertex] push
    [reversed(graph.get_neighbors(current))]: they run the loop of
    [_dfs_component] on the graph whose neighbour lists are reversed *)
Record reversed (G : Type) : Type := Reversed { unreversed : G }.
Arguments Reversed {G} _.
Arguments unreversed {G} _.

#[global] Instance reversed_graph {G : Type} `{Graph G} : Graph (reversed G) := {|
  directed r := directed (unreversed r);
  get_vertices r := get_vertices (unreversed r);
  get_neighbors r v := reverse (get_neighbors (unreversed r) v)
|}.

(** ** The loops of [get_edges] *)

Section edges_vocabulary.
Context {G : Type} `{Graph G}.

(** the key of a listed edge *)
Definition key_of (key : Z → Z → Z * Z) (e : Z * Z * float) : Z * Z :=
  key e.1.1 e.1.2.

(** body of the inner loop: a neighbour entry of [u] is listed when the key
    of its pair was not met before *)
Definition list_unseen (key : Z → Z → Z * Z) (u : Z)
    (st : list (Z * Z * float) * gset (Z * Z)) (e : Z * float)
  : list (Z * Z * float) * gset (Z * Z) :=
  if decide (key u e.1 ∈ st.2) then st
  else (st.1 ++ [(u, e.1, e.2)], {[key u e.1]} ∪ st.2).

(** the two loops, over what [get_vertices] and [get_neighbors] enumerate *)
Definition scan_edges (key : Z → Z → Z * Z) (g : G) (vs : list Z)
    (st : list (Z * Z * float) * gset (Z * Z))
  : list (Z * Z * float) * gset (Z * Z) :=
  foldl (λ acc u, foldl (list_unseen key u) acc (get_neighbors g u)) st vs.

(** the keys of the pairs that some vertex of [vs] has an edge to *)
Definition edge_keys (key : Z → Z → Z * Z) (g : G) (vs : list Z)
  : gset (Z * Z) :=
  list_to_set (u ← vs; key u <$> neighbors g u).
End edges_vocabulary.

(** ** Loop invariant of [bfs] *)

(** the distances recorded for a queue are ascending from its head *)
Fixpoint ascending (d : gmap Z Z) (q : list Z) : Prop :=
  match q with
  | [] => True
  | x :: q' =>
      (∀ y dx dy, y ∈ q' → d !! x = Some dx → d !! y = Some dy → dx ≤ dy)
      ∧ ascending d q'
  end.

Section bfs_invariant.
Context {G : Type} `{Graph G}.
Import GraphTraversal.

Record bfs_inv (g : G) (start : Z) (st : bfs_state) : Prop := BfsInv {
  inv_dom_d : dom (distances st) = visited st;
  inv_dom_p : dom (parents st) = visited st;
  inv_start_d : distances st !! start = Some 0;
  inv_start_p : parents st !! start = Some None;
  inv_queue : ∀ v, v ∈ queue st → v ∈ visited st;
  inv_nodup : NoDup (queue st);
  (* every other visited vertex was entered from its parent *)
  inv_parent : ∀ v, v ∈ visited st → v ≠ start →
    ∃ p d, parents st !! v = Some (Some p)
      ∧ distances st !! p = Some d
      ∧ distances st !! v = Some (d + 1)
      ∧ edge g p v;
  (* a recorded distance is the length of a walk from [start] *)
  inv_walk : ∀ v d, distances st !! v = Some d →
    ∃ n : nat, d = Z.of_nat n ∧ walk g start n v
      ∧ (n < size (visited st))%nat;
  (* a vertex that left the queue has all its neighbours recorded, at
     most one step further *)
  inv_done : ∀ v n, v ∈ visited st → v ∉ queue st → edge g v n →
    ∃ dv dn, distances st !! v = Some dv ∧ distances st !! n = Some dn
      ∧ dn ≤ dv + 1;
  inv_ascending : ascending (distances st) (queue st);
  (* no recorded vertex is more than one step beyond a queued one *)
  inv_near : ∀ x q dx dq, q ∈ queue st →
    distances st !! x = Some dx → distances st !! q = Some dq → dx ≤ dq + 1
}.
End bfs_invariant.

(** ** Loop invariant of [dijkstra] *)

(** [path] leads from [start] to [v], every vertex being the recorded
    parent of the next *)
Inductive parent_chain (parents : gmap Z (option Z)) (start : Z)
  : Z → list Z → Prop :=
| chain_start : parent_chain parents start start [start]
| chain_step v p path :
    parents !! v = Some (Some p) → parent_chain parents start p path →
    parent_chain parents start v (path ++ [v]).

Section dijkstra_invariant.
Context {G : Type} `{Graph G}.
Import ShortestPath.

(** the two dictionaries [dijkstra] starts from *)
Definition initial_distances (g : G) (start : Z) : gmap Z float :=
  <[start := 0%float]>
    (foldl (λ d v, <[v := infinity]> d) (∅ : gmap Z float) (get_vertices g)).

Definition initial_parents (g : G) : gmap Z (option Z) :=
  foldl (λ p v, <[v := None]> p) (∅ : gmap Z (option Z)) (get_vertices g).

Record dijkstra_inv (g : G) (start : Z) (st : dijkstra_state)
    (visited : gset Z) : Prop := DijkstraInv {
  dj_start : start ∈ visited;
  (* the entries of [start] are never written *)
  dj_start_d : distances st !! start = Some 0%float;
  dj_start_p : parents st !! start = initial_parents g !! start;
  (* a visited vertex is joined to [start] by its chain of parents, which
     runs through visited vertices along edges *)
  dj_chain : ∀ v, v ∈ visited →
    ∃ path, parent_chain (parents st) start v path
      ∧ is_path g path ∧ NoDup path ∧ ∀ x, x ∈ path → x ∈ visited;
  (* a parent is a visited vertex with an edge to its child *)
  dj_parent : ∀ v p, parents st !! v = Some (Some p) →
    p ∈ visited ∧ edge g p v ∧ v ≠ start;
  (* a vertex that was given a parent is visited or waits in the queue *)
  dj_queued : ∀ v p, parents st !! v = Some (Some p) →
    v ∈ visited ∨ ∃ d, (d, v) ∈ pq st;
  (* a queued vertex is visited or was given a parent *)
  dj_queue : ∀ d v, (d, v) ∈ pq st →
    v ∈ visited ∨ ∃ p, parents st !! v = Some (Some p);
  (* the other vertices have their initial entries *)
  dj_untouched : ∀ v, v ∉ visited → (∀ p, parents st !! v ≠ Some (Some p)) →
    distances st !! v = initial_distances g start !! v
    ∧ parents st !! v = initial_parents g !! v
}.
End dijkstra_invariant.

(** ** Loop invariant of [topological_sort] *)

(** how often [v] is enumerated in [ns] *)
Definition occurrences (v : Z) (ns : list Z) : Z :=
  Z.of_nat (length (filter (λ n, n = v) ns)).

Section kahn_invariant.
Context {G : Type} `{Graph G}.

(** the number of edges into [v] from the vertices of [us] that are not in
    [result] *)
Fixpoint indegree_outside (g : G) (result us : list Z) (v : Z) : Z :=
  match us with
  | [] => 0
  | u :: us' =>
      (if decide (u ∈ result) then 0 else occurrences v (neighbors g u))
      + indegree_outside g result us' v
  end.

Record kahn_inv (g : G) (in_degree : list (Z * Z)) (queue result : list Z)
  : Prop := KahnInv {
  ki_keys : OrderedDict.keys in_degree = get_vertices g;
  (* the counter of a vertex is the number of edges into it from vertices
     that are not in [result] yet *)
  ki_degree : ∀ v, v ∈ get_vertices g →
    OrderedDict.get in_degree v
    = Some (indegree_outside g result (get_vertices g) v);
  ki_nodup : NoDup (result ++ queue);
  ki_vertices : ∀ v, v ∈ result ++ queue → v ∈ get_vertices g;
  ki_zero : ∀ v, v ∈ result ++ queue →
    indegree_outside g result (get_vertices g) v = 0;
  (* and no other vertex has reached zero *)
  ki_ready : ∀ v, v ∈ get_vertices g →
    indegree_outside g result (get_vertices g) v = 0 → v ∈ result ++ queue;
  (* an edge into a vertex of [result] comes from an earlier one *)
  ki_order : ∀ u v, u ∈ get_vertices g → edge g u v → v ∈ result →
    precedes result u v
}.
End kahn_invariant.

(** ** Invariant of [topological_sort_dfs] *)

(** [a] stands in [l] somewhere before [b] *)
Definition before (l : list Z) (a b : Z) : Prop :=
  ∃ l1 l2 l3, l = l1 ++ a :: l2 ++ b :: l3.

Section topo_dfs_invariant.
Context {G : Type} `{Graph G}.
Import TopologicalSort.

(** the state between two calls of the nested [dfs], [path] being the
    vertices of the calls in progress, outermost first *)
Record topo_inv (g : G) (U : gset Z) (st : dfs_state) (path : list Z)
  : Prop := TopoInv {
  ti_stack : rec_stack st = list_to_set path;
  ti_path : is_path g path;
  ti_visited : visited st ⊆ U;
  ti_sub : rec_stack st ⊆ visited st;
  (* [result] holds the vertices whose call has returned *)
  ti_done : ∀ x, x ∈ result st ↔ x ∈ visited st ∧ x ∉ rec_stack st;
  ti_nodup : NoDup (result st);
  (* and each of them stands behind all its successors *)
  ti_succ : ∀ u w, u ∈ result st → edge g u w → before (result st) w u
}.
End topo_dfs_invariant.

(** ** The body of the [for] loop of [dfs_recursive] *)

Definition dfs_child {G : Type} `{Graph G} (depth : nat) (g : G)
  : list Z * gset Z → Z → outcome (list Z * gset Z) :=
  λ '(result, visited) neighbor,
    if decide (neighbor ∈ visited) then Return (result, visited)
    else
      '(sub, visited') ← GraphTraversal.dfs_recursive depth g neighbor visited;
      Return (result ++ sub, visited').

(** ** Inputs and outcomes named in the statements *)

(** the same edge added twice, with weights 3.0 and 7.0 *)
Definition overwrite_ops : list op := [AddEdge 1 2 3; AddEdge 1 2 7]%float.



(** a permutation of 1,2,3,4 that respects 1→2, 1→3, 2→4, 3→4 *)
Definition dag_order (o : outcome (option (list Z))) : Prop :=
  ∃ order, o = Return (Some order)
    ∧ order ≡ₚ [1; 2; 3; 4]
    ∧ precedes order 1 2 ∧ precedes order 1 3
    ∧ precedes order 2 4 ∧ precedes order 3 4.

(** * Properties *)

(** ** A call that finished is not changed by a larger budget *)

Lemma for_each_mono {S A} (f f' : S → A → outcome S) l s :
  (∀ s x, finished (f s x) → f' s x = f s x) →
  finished (for_each f l s) → for_each f' l s = for_each f l s.
Proof.
  intros Hf. revert s. induction l as [|x l IH]; intros s; simpl; [done|].
  intros Hfin.
  assert (finished (f s x)) as Hx.
  { intros E. apply Hfin. rewrite E. done. }
  rewrite (Hf _ _ Hx).
  destruct (f s x) as [s'| |]; simpl in *; [|done..].
  by apply IH.
Qed.

Lemma all_ok_mono {S A} (f f' : A → S → outcome (bool * S)) l s :
  (∀ x s, finished (f x s) → f' x s = f x s) →
  finished (all_ok f l s) → all_ok f' l s = all_ok f l s.
Proof.
  intros Hf. revert s. induction l as [|x l IH]; intros s; simpl; [done|].
  intros Hfin.
  assert (finished (f x s)) as Hx.
  { intros E. apply Hfin. rewrite E. done. }
  rewrite (Hf _ _ Hx).
  destruct (f x s) as [[[] s']| |]; simpl in *; [|done..].
  by apply IH.
Qed.

Section fuel.
Context {G : Type} `{Graph G}.
Implicit Types g : G.

Lemma bfs_loop_mono fuel k g st :
  finished (GraphTraversal.bfs_loop fuel g st) →
  GraphTraversal.bfs_loop (fuel + k) g st = GraphTraversal.bfs_loop fuel g st.
Proof.
  revert st. induction fuel as [|fuel IH]; intros st; simpl.
  - destruct (GraphTraversal.queue st) eqn:E; [|done].
    destruct k; simpl; by rewrite E.
  - destruct (GraphTraversal.queue st) as [|c q]; [done|].
    destruct (_ !! c); [|done]. apply IH.
Qed.

Lemma walk_back_mono fuel k parents current path :
  finished (GraphTraversal.walk_back fuel parents current path) →
  GraphTraversal.walk_back (fuel + k) parents current path
  = GraphTraversal.walk_back fuel parents current path.
Proof.
  revert current path. induction fuel as [|fuel IH]; intros [c|] path; simpl;
    try done.
  - by destruct k.
  - destruct (parents !! c); [|done]. apply IH.
Qed.

Lemma dfs_recursive_mono depth k g start visited :
  finished (GraphTraversal.dfs_recursive depth g start visited) →
  GraphTraversal.dfs_recursive (depth + k) g start visited
  = GraphTraversal.dfs_recursive depth g start visited.
Proof.
  revert start visited. induction depth as [|depth IH]; intros start visited;
    simpl; [done|].
  apply for_each_mono. intros [result vis] x.
  destruct (decide (x ∈ vis)); [done|].
  intros Hfin. rewrite IH; [done|].
  intros E. apply Hfin. by rewrite E.
Qed.

Lemma dfs_iterative_loop_mono fuel k g stack visited result :
  finished (GraphTraversal.dfs_iterative_loop fuel g stack visited result) →
  GraphTraversal.dfs_iterative_loop (fuel + k) g stack visited result
  = GraphTraversal.dfs_iterative_loop fuel g stack visited result.
Proof.
  revert stack visited result.
  induction fuel as [|fuel IH]; intros [|c stack] visited result; simpl;
    try done.
  - by destruct k.
  - destruct (decide (c ∈ visited)); apply IH.
Qed.

Lemma dfs_component_loop_mono fuel k g stack visited component :
  finished (Connectivity.dfs_component_loop fuel g stack visited component) →
  Connectivity.dfs_component_loop (fuel + k) g stack visited component
  = Connectivity.dfs_component_loop fuel g stack visited component.
Proof.
  revert stack visited component.
  induction fuel as [|fuel IH]; intros [|c stack] visited component; simpl;
    try done.
  - by destruct k.
  - destruct (decide (c ∈ visited)); apply IH.
Qed.

Lemma dijkstra_loop_mono fuel k g st visited :
  finished (ShortestPath.dijkstra_loop fuel g st visited) →
  ShortestPath.dijkstra_loop (fuel + k) g st visited
  = ShortestPath.dijkstra_loop fuel g st visited.
Proof.
  revert st visited. induction fuel as [|fuel IH]; intros st visited; simpl.
  - destruct (ShortestPath.pq st) as [|[d c] q] eqn:E; [|done].
    destruct k; simpl; by rewrite E.
  - destruct (ShortestPath.pq st) as [|[d c] q]; [done|].
    destruct (decide (c ∈ visited)); [apply IH|].
    destruct (for_each _ _ _); simpl; [apply IH|done..].
Qed.

Lemma kahn_loop_mono fuel k g in_degree queue result :
  finished (TopologicalSort.kahn_loop fuel g in_degree queue result) →
  TopologicalSort.kahn_loop (fuel + k) g in_degree queue result
  = TopologicalSort.kahn_loop fuel g in_degree queue result.
Proof.
  revert in_degree queue result.
  induction fuel as [|fuel IH]; intros in_degree [|c queue] result; simpl;
    try done.
  - by destruct k.
  - destruct (for_each _ _ _) as [[d q]| |]; simpl; [apply IH|done..].
Qed.

Lemma topo_dfs_mono depth k g vertex st :
  finished (TopologicalSort.dfs depth g vertex st) →
  TopologicalSort.dfs (depth + k) g vertex st
  = TopologicalSort.dfs depth g vertex st.
Proof.
  revert vertex st. induction depth as [|depth IH]; intros vertex st; simpl;
    [done|].
  destruct (decide (vertex ∈ _)); [done|].
  destruct (decide (vertex ∈ _)); [done|].
  intros Hfin.
  rewrite (all_ok_mono (TopologicalSort.dfs depth g)); [done|by auto|].
  intros E. apply Hfin. by rewrite E.
Qed.

Lemma dijkstra_mono fuel k g start :
  finished (ShortestPath.dijkstra fuel g start) →
  ShortestPath.dijkstra (fuel + k) g start = ShortestPath.dijkstra fuel g start.
Proof. apply dijkstra_loop_mono. Qed.

Lemma dijkstra_path_mono fuel k g start end_ :
  finished (ShortestPath.dijkstra_path fuel g start end_) →
  ShortestPath.dijkstra_path (fuel + k) g start end_
  = ShortestPath.dijkstra_path fuel g start end_.
Proof.
  unfold ShortestPath.dijkstra_path. intros Hfin.
  rewrite dijkstra_mono; [|intros E; apply Hfin; by rewrite E].
  destruct (ShortestPath.dijkstra fuel g start) as [[d p]| |]; simpl in *;
    [|done..].
  destruct (d !! end_); [|done].
  destruct (PrimFloat.eqb _ _); [done|].
  rewrite walk_back_mono; [done|].
  intros E. apply Hfin. by rewrite E.
Qed.

Lemma topological_sort_mono fuel k g :
  finished (TopologicalSort.topological_sort fuel g) →
  TopologicalSort.topological_sort (fuel + k) g
  = TopologicalSort.topological_sort fuel g.
Proof.
  unfold TopologicalSort.topological_sort. destruct (negb _); [done|].
  intros Hfin. rewrite kahn_loop_mono; [done|].
  intros E. apply Hfin. by rewrite E.
Qed.

Lemma topological_sort_dfs_mono depth k g :
  finished (TopologicalSort.topological_sort_dfs depth g) →
  TopologicalSort.topological_sort_dfs (depth + k) g
  = TopologicalSort.topological_sort_dfs depth g.
Proof.
  unfold TopologicalSort.topological_sort_dfs. destruct (negb _); [done|].
  intros Hfin.
  rewrite (all_ok_mono
    (λ vertex st, if decide (vertex ∈ TopologicalSort.visited st)
                  then Return (true, st)
                  else TopologicalSort.dfs depth g vertex st)); [done| |].
  - intros x s. destruct (decide _); [done|]. apply topo_dfs_mono.
  - intros E. apply Hfin. by rewrite E.
Qed.
End fuel.

(** ** Facts about ordered dictionaries *)

Section ordered_dict_facts.
Context {V : Type}.
Implicit Types (d : list (Z * V)) (k : Z) (v : V).

Lemma od_get_set d k v k' :
  OrderedDict.get (OrderedDict.set d k v) k'
  = if decide (k = k') then Some v else OrderedDict.get d k'.
Proof.
  induction d as [|[k0 v0] d IH]; simpl.
  - by destruct (decide (k = k')).
  - destruct (decide (k0 = k)) as [->|Hne]; simpl.
    + by destruct (decide (k = k')).
    + destruct (decide (k0 = k')) as [->|]; [|done].
      by rewrite decide_False by done.
Qed.

Lemma od_get_None d k : OrderedDict.get d k = None ↔ k ∉ OrderedDict.keys d.
Proof.
  unfold OrderedDict.keys. induction d as [|[k0 v0] d IH]; simpl.
  - split; [intros _; apply not_elem_of_nil|done].
  - rewrite not_elem_of_cons. destruct (decide (k0 = k)) as [->|]; [|naive_solver].
    split; [done|]. by intros [? _].
Qed.

Lemma od_contains_keys d k :
  OrderedDict.contains d k = true ↔ k ∈ OrderedDict.keys d.
Proof.
  unfold OrderedDict.contains.
  destruct (OrderedDict.get d k) eqn:E.
  - split; [intros _|done].
    destruct (decide (k ∈ OrderedDict.keys d)) as [|Hn]; [done|].
    apply od_get_None in Hn. congruence.
  - apply od_get_None in E. split; [done|]. intros; by exfalso.
Qed.

Lemma od_contains_false d k :
  OrderedDict.contains d k = false ↔ k ∉ OrderedDict.keys d.
Proof.
  rewrite <- od_contains_keys. destruct (OrderedDict.contains d k); naive_solver.
Qed.

Lemma od_keys_set d k v :
  OrderedDict.keys (OrderedDict.set d k v)
  = if OrderedDict.contains d k then OrderedDict.keys d
    else OrderedDict.keys d ++ [k].
Proof.
  unfold OrderedDict.contains, OrderedDict.keys.
  induction d as [|[k0 v0] d IH]; csimpl; [done|].
  destruct (decide (k0 = k)) as [->|]; csimpl; [done|].
  rewrite IH. by destruct (OrderedDict.get d k).
Qed.

Lemma od_keys_NoDup d k v :
  NoDup (OrderedDict.keys d) → NoDup (OrderedDict.keys (OrderedDict.set d k v)).
Proof.
  intros Hnd. rewrite od_keys_set.
  destruct (OrderedDict.contains d k) eqn:E; [done|].
  apply od_contains_false in E.
  apply NoDup_app. split; [done|]. split; [|apply NoDup_singleton].
  intros x Hx ->%list_elem_of_singleton. done.
Qed.
End ordered_dict_facts.

(** ** The list backend, seen as a table of weights per ordered pair *)

Lemma entries_cons n w l v :
  entries ((n, w) :: l) v
  = if decide (n = v) then w :: entries l v else entries l v.
Proof.
  unfold entries. rewrite filter_cons. cbn [fst].
  by destruct (decide (n = v)).
Qed.

Lemma entries_app l1 l2 v : entries (l1 ++ l2) v = entries l1 v ++ entries l2 v.
Proof. unfold entries. by rewrite filter_app, fmap_app. Qed.

Lemma entries_singleton x w v :
  entries [(x, w)] v = if decide (x = v) then [w] else [].
Proof. by rewrite entries_cons. Qed.

Lemma without_cons x n w l :
  AdjacencyList.without x ((n, w) :: l)
  = if decide (n = x) then AdjacencyList.without x l
    else (n, w) :: AdjacencyList.without x l.
Proof.
  unfold AdjacencyList.without. rewrite filter_cons. cbn [fst].
  destruct (decide (n = x)) as [->|].
  - by rewrite decide_False by (intros ?; done).
  - by rewrite decide_True by done.
Qed.

Lemma entries_without x l v :
  entries (AdjacencyList.without x l) v = if decide (v = x) then [] else entries l v.
Proof.
  induction l as [|[n w] l IH].
  - by destruct (decide (v = x)).
  - rewrite without_cons, entries_cons.
    destruct (decide (n = x)) as [->|Hn].
    + rewrite IH. destruct (decide (v = x)) as [->|]; [done|].
      by rewrite decide_False by done.
    + rewrite entries_cons, IH.
      destruct (decide (n = v)) as [->|]; [|done].
      by rewrite !decide_False by done.
Qed.

Lemma entries_elem l v w : w ∈ entries l v ↔ (v, w) ∈ l.
Proof.
  unfold entries. rewrite list_elem_of_fmap. split.
  - intros ([n w'] & -> & [Hf ?]%list_elem_of_filter). simpl in *. by subst.
  - intros Hin. exists (v, w). split; [done|]. by apply list_elem_of_filter.
Qed.

Lemma first_weight_entries v l :
  AdjacencyList.first_weight v l = head (entries l v).
Proof.
  induction l as [|[n w] l IH]; [done|].
  rewrite entries_cons. simpl. by destruct (decide (n = v)).
Qed.

Lemma existsb_entries v l :
  existsb (λ e, bool_decide (e.1 = v)) l = bool_decide (entries l v ≠ []).
Proof.
  induction l as [|[n w] l IH]; [done|].
  rewrite entries_cons. simpl. destruct (decide (n = v)) as [->|].
  - by rewrite bool_decide_eq_true_2.
  - by rewrite bool_decide_eq_false_2.
Qed.

Section list_store.
Implicit Types g : AdjacencyList.t.

Lemma list_neighbors_adj g u :
  AdjacencyList.get_neighbors g u = AdjacencyList.adj g u.
Proof. done. Qed.

Lemma list_adj_absent g u :
  OrderedDict.contains (AdjacencyList.graph g) u = false →
  AdjacencyList.adj g u = [].
Proof.
  unfold AdjacencyList.adj, OrderedDict.contains.
  by destruct (OrderedDict.get _ _).
Qed.

Lemma list_has_edge_entries g u v :
  AdjacencyList.has_edge g u v = bool_decide (list_entries g u v ≠ []).
Proof.
  unfold AdjacencyList.has_edge, list_entries.
  destruct (OrderedDict.contains _ _) eqn:E.
  - apply existsb_entries.
  - by rewrite list_adj_absent.
Qed.

Lemma list_get_weight_entries g u v :
  AdjacencyList.get_weight g u v = head (list_entries g u v).
Proof.
  unfold AdjacencyList.get_weight, list_entries.
  destruct (OrderedDict.contains _ _) eqn:E.
  - apply first_weight_entries.
  - by rewrite list_adj_absent.
Qed.

Lemma list_adj_add_vertex g x u :
  AdjacencyList.adj (AdjacencyList.add_vertex g x) u = AdjacencyList.adj g u.
Proof.
  unfold AdjacencyList.add_vertex.
  destruct (OrderedDict.contains _ _) eqn:E; [done|].
  unfold AdjacencyList.adj. simpl. rewrite od_get_set.
  destruct (decide (x = u)) as [->|]; [|done].
  unfold OrderedDict.contains in E. by destruct (OrderedDict.get _ _).
Qed.

Lemma list_adj_append g u x u' :
  AdjacencyList.adj (AdjacencyList.append g u x) u'
  = if decide (u = u') then AdjacencyList.adj g u ++ [x]
    else AdjacencyList.adj g u'.
Proof.
  unfold AdjacencyList.append, AdjacencyList.adj at 1. simpl.
  rewrite od_get_set. by destruct (decide (u = u')).
Qed.

Lemma list_directed_add_vertex g x :
  AdjacencyList.directed (AdjacencyList.add_vertex g x) = AdjacencyList.directed g.
Proof. unfold AdjacencyList.add_vertex. by destruct (OrderedDict.contains _ _). Qed.

Lemma list_entries_add_vertex g x u v :
  list_entries (AdjacencyList.add_vertex g x) u v = list_entries g u v.
Proof. unfold list_entries. by rewrite list_adj_add_vertex. Qed.

Lemma list_entries_add_edge g u v w a b :
  list_entries (AdjacencyList.add_edge g u v w) a b
  = list_entries g a b ++ added (AdjacencyList.directed g) u v w a b.
Proof.
  unfold AdjacencyList.add_edge, added. simpl.
  rewrite !list_directed_add_vertex.
  unfold list_entries.
  destruct (AdjacencyList.directed g).
  - rewrite list_adj_append, !list_adj_add_vertex.
    destruct (decide (u = a)) as [->|].
    + rewrite entries_app, entries_singleton, app_nil_r.
      destruct (decide (v = b)) as [->|].
      * by rewrite decide_True by done.
      * rewrite decide_False by congruence. done.
    + rewrite decide_False by congruence. by rewrite !app_nil_r.
  - rewrite !list_adj_append, !list_adj_add_vertex.
    destruct (decide (v = a)) as [->|]; destruct (decide (u = a)) as [->|];
      rewrite ?entries_app, ?entries_singleton;
      repeat (case_decide; simplify_eq; try done);
      rewrite ?app_nil_r; try done; by rewrite <- ?app_assoc.
Qed.

Lemma list_adj_with_graph g u l x :
  AdjacencyList.adj
    (AdjacencyList.with_graph g (OrderedDict.set (AdjacencyList.graph g) u l)) x
  = if decide (u = x) then l else AdjacencyList.adj g x.
Proof.
  unfold AdjacencyList.adj at 1. simpl. rewrite od_get_set.
  by destruct (decide (u = x)).
Qed.

Lemma list_entries_remove_edge g u v a b :
  (AdjacencyList.directed g = false →
   list_entries g u v = [] → list_entries g v u = []) →
  list_entries (AdjacencyList.remove_edge g u v) a b
  = if decide (touched (AdjacencyList.directed g) u v a b) then []
    else list_entries g a b.
Proof.
  intros Hsym. unfold AdjacencyList.remove_edge.
  destruct (OrderedDict.contains (AdjacencyList.graph g) u) eqn:Eu.
  - cbv zeta. set (g1 := AdjacencyList.with_graph g _).
    change (AdjacencyList.directed g1) with (AdjacencyList.directed g).
    assert (∀ x, AdjacencyList.adj g1 x
                 = if decide (u = x) then AdjacencyList.without v (AdjacencyList.adj g u)
                   else AdjacencyList.adj g x) as Hg1.
    { intros x. apply list_adj_with_graph. }
    destruct (AdjacencyList.directed g) eqn:Ed; cbn [negb andb].
    + unfold list_entries. rewrite Hg1. unfold touched.
      destruct (decide (u = a)) as [->|].
      * rewrite entries_without. repeat case_decide; naive_solver.
      * case_decide; [naive_solver|done].
    + destruct (OrderedDict.contains (AdjacencyList.graph g1) v) eqn:Ev.
      * unfold list_entries.
        rewrite (list_adj_with_graph g1), !Hg1. unfold touched.
        destruct (decide (v = a)) as [->|]; destruct (decide (u = a)) as [->|];
          rewrite ?entries_without; repeat case_decide; naive_solver.
      * apply list_adj_absent in Ev.
        unfold list_entries. rewrite Hg1. unfold touched.
        destruct (decide (u = a)) as [->|].
        -- rewrite entries_without. repeat case_decide; naive_solver.
        -- case_decide as Hr; [|done].
           destruct Hr as [|[_ ?]]; simplify_eq.
           rewrite Hg1 in Ev. rewrite decide_False in Ev by done.
           by rewrite Ev.
  - apply list_adj_absent in Eu. case_decide as Hr; [|done].
    unfold touched in Hr. destruct Hr as [|[Hd ?]]; simplify_eq.
    + unfold list_entries. by rewrite Eu.
    + apply Hsym; [done|]. unfold list_entries. by rewrite Eu.
Qed.
End list_store.

(** ** The matrix backend *)

Section matrix_store.
Implicit Types (g : AdjacencyMatrix.t) (m : list (list (option float))).

Lemma cell_set_cell m i j x i' j' n :
  length m = n → (∀ k row, m !! k = Some row → length row = n) →
  (i < n)%nat → (j < n)%nat →
  AdjacencyMatrix.cell (AdjacencyMatrix.set_cell m i j x) i' j'
  = if decide (i = i' ∧ j = j') then x else AdjacencyMatrix.cell m i' j'.
Proof.
  intros Hm Hrows Hi Hj. unfold AdjacencyMatrix.cell, AdjacencyMatrix.set_cell.
  destruct (decide (i = i')) as [<-|Hne].
  - rewrite list_lookup_alter_eq.
    destruct (m !! i) as [row|] eqn:E; simpl.
    + destruct (decide (j = j')) as [<-|Hnej].
      * rewrite decide_True by done.
        rewrite list_lookup_insert_eq by (erewrite Hrows; done). done.
      * rewrite decide_False by naive_solver.
        by rewrite list_lookup_insert_ne.
    + apply lookup_ge_None in E. lia.
  - rewrite list_lookup_alter_ne by done.
    by rewrite decide_False by naive_solver.
Qed.

Lemma set_cell_shape m i j x n :
  length m = n → (∀ k row, m !! k = Some row → length row = n) →
  length (AdjacencyMatrix.set_cell m i j x) = n
  ∧ (∀ k row, AdjacencyMatrix.set_cell m i j x !! k = Some row → length row = n).
Proof.
  intros Hm Hrows. unfold AdjacencyMatrix.set_cell. split.
  - by rewrite length_alter.
  - intros k row. destruct (decide (i = k)) as [<-|].
    + rewrite list_lookup_alter_eq. destruct (m !! i) eqn:E; simpl; [|done].
      intros [= <-]. rewrite length_insert. eauto.
    + rewrite list_lookup_alter_ne by done. eauto.
Qed.

Lemma matrix_get_weight g u v :
  AdjacencyMatrix.get_weight g u v = matrix_weight g u v.
Proof.
  unfold AdjacencyMatrix.get_weight, AdjacencyMatrix.has_edge, matrix_weight.
  destruct (OrderedDict.get (AdjacencyMatrix.vertices g) u),
    (OrderedDict.get (AdjacencyMatrix.vertices g) v); try done.
  by destruct (AdjacencyMatrix.cell _ _ _).
Qed.

Lemma matrix_has_edge g u v :
  AdjacencyMatrix.has_edge g u v = bool_decide (is_Some (matrix_weight g u v)).
Proof.
  unfold AdjacencyMatrix.has_edge, matrix_weight.
  destruct (OrderedDict.get (AdjacencyMatrix.vertices g) u),
    (OrderedDict.get (AdjacencyMatrix.vertices g) v); try done.
  by destruct (AdjacencyMatrix.cell _ _ _).
Qed.

Lemma matrix_index_lt g v i :
  matrix_wf g → OrderedDict.get (AdjacencyMatrix.vertices g) v = Some i →
  (i < AdjacencyMatrix.vertex_count g)%nat.
Proof. intros Hwf Hv. apply Hwf. exists v. by apply Hwf. Qed.

Lemma matrix_index_inj g u v i :
  matrix_wf g → OrderedDict.get (AdjacencyMatrix.vertices g) u = Some i →
  OrderedDict.get (AdjacencyMatrix.vertices g) v = Some i → u = v.
Proof. intros Hwf Hu%Hwf Hv%Hwf. congruence. Qed.

Lemma matrix_init_wf directed weighted :
  matrix_wf (AdjacencyMatrix.init directed weighted).
Proof.
  split; simpl; try done.
  - intros i. rewrite lookup_empty. split; [by intros [? ?]|lia].
Qed.

Lemma cell_grow m n i j :
  AdjacencyMatrix.cell (AdjacencyMatrix.grow m n) i j
  = if bool_decide (i < n ∧ j < n)%nat then AdjacencyMatrix.cell m i j else None.
Proof.
  unfold AdjacencyMatrix.grow, AdjacencyMatrix.cell at 1.
  rewrite list_lookup_fmap.
  destruct (decide (i < n + 1)%nat) as [Hi|Hi].
  - rewrite lookup_seq_lt by done. simpl. rewrite list_lookup_fmap.
    destruct (decide (j < n + 1)%nat) as [Hj|Hj].
    + by rewrite lookup_seq_lt by done.
    + rewrite lookup_seq_ge by lia. simpl.
      rewrite bool_decide_eq_false_2; [done|lia].
  - rewrite lookup_seq_ge by lia. simpl.
    rewrite bool_decide_eq_false_2; [done|lia].
Qed.

Lemma grow_shape m n :
  length (AdjacencyMatrix.grow m n) = (n + 1)%nat
  ∧ ∀ i row, AdjacencyMatrix.grow m n !! i = Some row → length row = (n + 1)%nat.
Proof.
  unfold AdjacencyMatrix.grow. split.
  - by rewrite length_fmap, length_seq.
  - intros i row. rewrite list_lookup_fmap.
    destruct (seq _ _ !! i); simpl; [|done]. intros [= <-].
    by rewrite length_fmap, length_seq.
Qed.

Lemma matrix_add_vertex_wf g x :
  matrix_wf g → matrix_wf (AdjacencyMatrix.add_vertex g x).
Proof.
  intros Hwf. unfold AdjacencyMatrix.add_vertex.
  destruct (OrderedDict.contains _ _) eqn:Ec; [done|].
  assert (OrderedDict.get (AdjacencyMatrix.vertices g) x = None) as Hx.
  { by apply od_get_None, od_contains_false. }
  split; simpl.
  - apply grow_shape.
  - apply grow_shape.
  - intros v i. rewrite od_get_set.
    destruct (decide (x = v)) as [->|Hne].
    + split.
      * intros [= <-]. by rewrite lookup_insert_eq.
      * intros Hi. destruct (decide (AdjacencyMatrix.vertex_count g = i)) as [->|Hn];
          [done|].
        rewrite lookup_insert_ne in Hi by done. apply Hwf in Hi. congruence.
    + split.
      * intros Hv. rewrite lookup_insert_ne; [by apply Hwf|].
        apply (matrix_index_lt _ _ _ Hwf) in Hv. lia.
      * intros Hi. destruct (decide (AdjacencyMatrix.vertex_count g = i)) as [<-|Hn].
        -- rewrite lookup_insert_eq in Hi. congruence.
        -- rewrite lookup_insert_ne in Hi by done. by apply Hwf.
  - intros i. destruct (decide (AdjacencyMatrix.vertex_count g = i)) as [<-|Hn].
    + rewrite lookup_insert_eq. split; [lia|eauto].
    + rewrite lookup_insert_ne by done. rewrite (wf_range _ Hwf). lia.
Qed.

Lemma matrix_add_vertex_get g x v :
  OrderedDict.get (AdjacencyMatrix.vertices (AdjacencyMatrix.add_vertex g x)) v
  = if decide (x = v)
    then Some (default (AdjacencyMatrix.vertex_count g)
                 (OrderedDict.get (AdjacencyMatrix.vertices g) x))
    else OrderedDict.get (AdjacencyMatrix.vertices g) v.
Proof.
  unfold AdjacencyMatrix.add_vertex, OrderedDict.contains.
  destruct (OrderedDict.get (AdjacencyMatrix.vertices g) x) eqn:Ex; simpl.
  - destruct (decide (x = v)) as [<-|]; done.
  - by rewrite od_get_set.
Qed.

Lemma matrix_add_vertex_weight g x u v :
  matrix_wf g →
  matrix_weight (AdjacencyMatrix.add_vertex g x) u v = matrix_weight g u v.
Proof.
  intros Hwf. unfold matrix_weight. rewrite !matrix_add_vertex_get.
  unfold AdjacencyMatrix.add_vertex, OrderedDict.contains.
  destruct (OrderedDict.get (AdjacencyMatrix.vertices g) x) eqn:Ex; simpl.
  - destruct (decide (x = u)) as [<-|], (decide (x = v)) as [<-|];
      by rewrite ?Ex.
  - destruct (decide (x = u)) as [<-|].
    { rewrite Ex.
      destruct (decide (x = v));
        [|destruct (OrderedDict.get (AdjacencyMatrix.vertices g) v)];
        rewrite ?cell_grow; try done;
        by rewrite bool_decide_eq_false_2 by lia. }
    destruct (OrderedDict.get (AdjacencyMatrix.vertices g) u) as [i|] eqn:Eu; [|done].
    destruct (decide (x = v)) as [<-|].
    { rewrite Ex, cell_grow. by rewrite bool_decide_eq_false_2 by lia. }
    destruct (OrderedDict.get (AdjacencyMatrix.vertices g) v) as [j|] eqn:Ev; [|done].
    apply (matrix_index_lt _ _ _ Hwf) in Eu, Ev.
    rewrite cell_grow. by rewrite bool_decide_eq_true_2 by lia.
Qed.

Lemma matrix_directed_add_vertex g x :
  AdjacencyMatrix.directed (AdjacencyMatrix.add_vertex g x)
  = AdjacencyMatrix.directed g.
Proof. unfold AdjacencyMatrix.add_vertex. by destruct (OrderedDict.contains _ _). Qed.

Lemma matrix_assign_wf g i j x :
  matrix_wf g → matrix_wf (assign g i j x).
Proof.
  intros [Hr Hc Hi Hrg]. unfold assign.
  destruct (set_cell_shape _ i j x _ Hr Hc) as [Hr1 Hc1].
  destruct (set_cell_shape _ j i x _ Hr1 Hc1) as [Hr2 Hc2].
  split; simpl; try done; by destruct (AdjacencyMatrix.directed g).
Qed.

Lemma matrix_assign_weight g u v i j x a b :
  matrix_wf g →
  OrderedDict.get (AdjacencyMatrix.vertices g) u = Some i →
  OrderedDict.get (AdjacencyMatrix.vertices g) v = Some j →
  matrix_weight (assign g i j x) a b
  = if decide (touched (AdjacencyMatrix.directed g) u v a b) then x
    else matrix_weight g a b.
Proof.
  intros Hwf Hu Hv. unfold matrix_weight, assign. simpl.
  pose proof (matrix_index_lt _ _ _ Hwf Hu) as Hi.
  pose proof (matrix_index_lt _ _ _ Hwf Hv) as Hj.
  destruct Hwf as [Hr Hc Hidx Hrg].
  destruct (set_cell_shape _ i j x _ Hr Hc) as [Hr1 Hc1].
  unfold touched.
  destruct (OrderedDict.get (AdjacencyMatrix.vertices g) a) as [ia|] eqn:Ea.
  2:{ case_decide as Hd; [|done]. destruct Hd as [|[_ ?]]; simplify_eq. }
  destruct (OrderedDict.get (AdjacencyMatrix.vertices g) b) as [ib|] eqn:Eb.
  2:{ case_decide as Hd; [|done]. destruct Hd as [|[_ ?]]; simplify_eq. }
  assert (∀ y k z k', OrderedDict.get (AdjacencyMatrix.vertices g) y = Some k →
            OrderedDict.get (AdjacencyMatrix.vertices g) z = Some k' →
            k = k' ↔ y = z) as Hiff.
  { intros y k z k' Hy Hz. split; [|intros <-; congruence].
    intros <-. apply Hidx in Hy, Hz. congruence. }
  assert ((i = ia ∧ j = ib) ↔ (a, b) = (u, v)) as E1.
  { rewrite (Hiff u i a ia Hu Ea), (Hiff v j b ib Hv Eb).
    split; [by intros [-> ->]|by intros [= -> ->]]. }
  assert ((j = ia ∧ i = ib) ↔ (a, b) = (v, u)) as E2.
  { rewrite (Hiff v j a ia Hv Ea), (Hiff u i b ib Hu Eb).
    split; [by intros [-> ->]|by intros [= -> ->]]. }
  clear Hiff Hidx Hrg.
  destruct (AdjacencyMatrix.directed g).
  - rewrite (cell_set_cell _ _ _ _ _ _ _ Hr Hc Hi Hj).
    repeat case_decide; try done; exfalso; intuition congruence.
  - rewrite (cell_set_cell _ _ _ _ _ _ _ Hr1 Hc1 Hj Hi).
    rewrite (cell_set_cell _ _ _ _ _ _ _ Hr Hc Hi Hj).
    repeat case_decide; try done; exfalso; intuition congruence.
Qed.
End matrix_store.

Section matrix_ops.
Implicit Types (g : AdjacencyMatrix.t).

Lemma matrix_add_edge_assign g u v w :
  ∃ i j,
    let g2 := AdjacencyMatrix.add_vertex (AdjacencyMatrix.add_vertex g u) v in
    OrderedDict.get (AdjacencyMatrix.vertices g2) u = Some i
    ∧ OrderedDict.get (AdjacencyMatrix.vertices g2) v = Some j
    ∧ AdjacencyMatrix.add_edge g u v w = assign g2 i j (Some w).
Proof.
  unfold AdjacencyMatrix.add_edge.
  set (g2 := AdjacencyMatrix.add_vertex (AdjacencyMatrix.add_vertex g u) v).
  assert (is_Some (OrderedDict.get (AdjacencyMatrix.vertices g2) u)) as [i Hi].
  { unfold g2. rewrite !matrix_add_vertex_get.
    destruct (decide (v = u)); [done|]. by rewrite decide_True by done. }
  assert (is_Some (OrderedDict.get (AdjacencyMatrix.vertices g2) v)) as [j Hj].
  { unfold g2. rewrite !matrix_add_vertex_get. by rewrite decide_True by done. }
  exists i, j. simpl. by rewrite Hi, Hj.
Qed.

Lemma matrix_add_edge_wf g u v w :
  matrix_wf g → matrix_wf (AdjacencyMatrix.add_edge g u v w).
Proof.
  intros Hwf. destruct (matrix_add_edge_assign g u v w) as (i & j & _ & _ & ->).
  by apply matrix_assign_wf, matrix_add_vertex_wf, matrix_add_vertex_wf.
Qed.

Lemma matrix_add_edge_weight g u v w a b :
  matrix_wf g →
  matrix_weight (AdjacencyMatrix.add_edge g u v w) a b
  = if decide (touched (AdjacencyMatrix.directed g) u v a b) then Some w
    else matrix_weight g a b.
Proof.
  intros Hwf. destruct (matrix_add_edge_assign g u v w) as (i & j & Hi & Hj & ->).
  pose proof (matrix_add_vertex_wf _ u Hwf) as Hwf1.
  pose proof (matrix_add_vertex_wf _ v Hwf1) as Hwf2.
  rewrite (matrix_assign_weight _ u v) by done.
  by rewrite !matrix_directed_add_vertex, !matrix_add_vertex_weight.
Qed.

Lemma matrix_remove_edge_wf g u v :
  matrix_wf g → matrix_wf (AdjacencyMatrix.remove_edge g u v).
Proof.
  intros Hwf. unfold AdjacencyMatrix.remove_edge.
  destruct (OrderedDict.get (AdjacencyMatrix.vertices g) u) as [i|]; [|done].
  destruct (OrderedDict.get (AdjacencyMatrix.vertices g) v) as [j|]; [|done].
  by apply (matrix_assign_wf g i j None).
Qed.

Lemma matrix_remove_edge_weight g u v a b :
  matrix_wf g →
  matrix_weight (AdjacencyMatrix.remove_edge g u v) a b
  = if decide (touched (AdjacencyMatrix.directed g) u v a b) then None
    else matrix_weight g a b.
Proof.
  intros Hwf. unfold AdjacencyMatrix.remove_edge.
  destruct (OrderedDict.get (AdjacencyMatrix.vertices g) u) as [i|] eqn:Eu.
  - destruct (OrderedDict.get (AdjacencyMatrix.vertices g) v) as [j|] eqn:Ev.
    + by apply (matrix_assign_weight g u v i j None).
    + case_decide as Hr; [|done]. unfold matrix_weight.
      destruct Hr as [[= -> ->]|[_ [= -> ->]]]; rewrite Eu, Ev; done.
  - case_decide as Hr; [|done]. unfold matrix_weight.
    destruct Hr as [[= -> ->]|[_ [= -> ->]]]; rewrite Eu; [done|].
    by destruct (OrderedDict.get (AdjacencyMatrix.vertices g) v).
Qed.

Lemma matrix_step_wf g o : matrix_wf g → matrix_wf (matrix_step g o).
Proof.
  destruct o; simpl; auto using matrix_add_vertex_wf, matrix_add_edge_wf,
    matrix_remove_edge_wf.
Qed.

Lemma matrix_step_directed g o :
  AdjacencyMatrix.directed (matrix_step g o) = AdjacencyMatrix.directed g.
Proof.
  destruct o as [x|u v w|u v]; simpl.
  - apply matrix_directed_add_vertex.
  - destruct (matrix_add_edge_assign g u v w) as (i & j & _ & _ & ->).
    simpl. by rewrite !matrix_directed_add_vertex.
  - unfold AdjacencyMatrix.remove_edge.
    by destruct (OrderedDict.get (AdjacencyMatrix.vertices g) u),
    (OrderedDict.get (AdjacencyMatrix.vertices g) v).
Qed.

Lemma matrix_vertices_add_vertex g x :
  AdjacencyMatrix.get_vertices (AdjacencyMatrix.add_vertex g x)
  = if OrderedDict.contains (AdjacencyMatrix.vertices g) x
    then AdjacencyMatrix.get_vertices g
    else AdjacencyMatrix.get_vertices g ++ [x].
Proof.
  unfold AdjacencyMatrix.add_vertex, AdjacencyMatrix.get_vertices.
  destruct (OrderedDict.contains _ _) eqn:E; [done|].
  simpl. by rewrite od_keys_set, E.
Qed.

Lemma matrix_vertices_add_edge g u v w :
  AdjacencyMatrix.get_vertices (AdjacencyMatrix.add_edge g u v w)
  = AdjacencyMatrix.get_vertices
      (AdjacencyMatrix.add_vertex (AdjacencyMatrix.add_vertex g u) v).
Proof. by destruct (matrix_add_edge_assign g u v w) as (i & j & _ & _ & ->). Qed.

Lemma matrix_vertices_remove_edge g u v :
  AdjacencyMatrix.get_vertices (AdjacencyMatrix.remove_edge g u v)
  = AdjacencyMatrix.get_vertices g.
Proof.
  unfold AdjacencyMatrix.remove_edge.
  by destruct (OrderedDict.get (AdjacencyMatrix.vertices g) u),
    (OrderedDict.get (AdjacencyMatrix.vertices g) v).
Qed.

Lemma matrix_contains_vertices g x :
  OrderedDict.contains (AdjacencyMatrix.vertices g) x
  = bool_decide (x ∈ AdjacencyMatrix.get_vertices g).
Proof.
  unfold AdjacencyMatrix.get_vertices.
  destruct (OrderedDict.contains _ _) eqn:E; symmetry.
  - by apply bool_decide_eq_true_2, od_contains_keys.
  - by apply bool_decide_eq_false_2, od_contains_false.
Qed.
End matrix_ops.

Section list_ops.
Implicit Types (g : AdjacencyList.t).

Lemma list_contains_vertices g x :
  OrderedDict.contains (AdjacencyList.graph g) x
  = bool_decide (x ∈ AdjacencyList.get_vertices g).
Proof.
  unfold AdjacencyList.get_vertices.
  destruct (OrderedDict.contains _ _) eqn:E; symmetry.
  - by apply bool_decide_eq_true_2, od_contains_keys.
  - by apply bool_decide_eq_false_2, od_contains_false.
Qed.

Lemma list_vertices_add_vertex g x :
  AdjacencyList.get_vertices (AdjacencyList.add_vertex g x)
  = if OrderedDict.contains (AdjacencyList.graph g) x
    then AdjacencyList.get_vertices g
    else AdjacencyList.get_vertices g ++ [x].
Proof.
  unfold AdjacencyList.add_vertex, AdjacencyList.get_vertices.
  destruct (OrderedDict.contains _ _) eqn:E; [done|].
  simpl. by rewrite od_keys_set, E.
Qed.

Lemma list_vertices_set_present g x l :
  x ∈ AdjacencyList.get_vertices g →
  AdjacencyList.get_vertices
    (AdjacencyList.with_graph g (OrderedDict.set (AdjacencyList.graph g) x l))
  = AdjacencyList.get_vertices g.
Proof.
  intros Hx. unfold AdjacencyList.get_vertices. simpl. rewrite od_keys_set.
  apply od_contains_keys in Hx. by rewrite Hx.
Qed.

Lemma list_add_vertex_elem g x :
  x ∈ AdjacencyList.get_vertices (AdjacencyList.add_vertex g x).
Proof.
  rewrite list_vertices_add_vertex.
  destruct (OrderedDict.contains _ _) eqn:E.
  - by apply od_contains_keys.
  - set_solver.
Qed.

Lemma list_add_vertex_mono g x y :
  y ∈ AdjacencyList.get_vertices g →
  y ∈ AdjacencyList.get_vertices (AdjacencyList.add_vertex g x).
Proof.
  rewrite list_vertices_add_vertex.
  destruct (OrderedDict.contains _ _); set_solver.
Qed.

Lemma list_vertices_add_edge g u v w :
  AdjacencyList.get_vertices (AdjacencyList.add_edge g u v w)
  = AdjacencyList.get_vertices
      (AdjacencyList.add_vertex (AdjacencyList.add_vertex g u) v).
Proof.
  unfold AdjacencyList.add_edge. cbv zeta.
  set (g2 := AdjacencyList.add_vertex (AdjacencyList.add_vertex g u) v).
  assert (u ∈ AdjacencyList.get_vertices g2) as Hu
    by apply list_add_vertex_mono, list_add_vertex_elem.
  assert (v ∈ AdjacencyList.get_vertices g2) as Hv
    by apply list_add_vertex_elem.
  unfold AdjacencyList.append.
  set (g3 := AdjacencyList.with_graph g2 _).
  assert (AdjacencyList.get_vertices g3 = AdjacencyList.get_vertices g2) as H3
    by by apply list_vertices_set_present.
  destruct (AdjacencyList.directed g3); [done|].
  rewrite list_vertices_set_present; [done|]. by rewrite H3.
Qed.

Lemma list_vertices_remove_edge g u v :
  AdjacencyList.get_vertices (AdjacencyList.remove_edge g u v)
  = AdjacencyList.get_vertices g.
Proof.
  unfold AdjacencyList.remove_edge.
  destruct (OrderedDict.contains _ u) eqn:Eu; [|done].
  cbv zeta. set (g1 := AdjacencyList.with_graph g _).
  assert (AdjacencyList.get_vertices g1 = AdjacencyList.get_vertices g) as H1.
  { apply list_vertices_set_present. by apply od_contains_keys. }
  destruct (negb _); simpl; [|done].
  destruct (OrderedDict.contains _ v) eqn:Ev; [|done].
  rewrite list_vertices_set_present; [done|]. by apply od_contains_keys.
Qed.

Lemma list_step_directed g o :
  AdjacencyList.directed (list_step g o) = AdjacencyList.directed g.
Proof.
  destruct o as [x|u v w|u v]; simpl.
  - apply list_directed_add_vertex.
  - unfold AdjacencyList.add_edge. cbv zeta.
    destruct (AdjacencyList.directed (AdjacencyList.append _ _ _));
      unfold AdjacencyList.append; cbn [AdjacencyList.directed AdjacencyList.with_graph];
      by rewrite !list_directed_add_vertex.
  - unfold AdjacencyList.remove_edge.
    destruct (OrderedDict.contains _ u); [|done]. cbv zeta.
    by destruct (_ && _).
Qed.

Lemma added_sym u v w a b : added false u v w a b = added false u v w b a.
Proof. unfold added. repeat case_decide; simplify_eq; done. Qed.

Lemma touched_sym u v a b : touched false u v a b ↔ touched false u v b a.
Proof. unfold touched. split; intros [|[_ ?]]; simplify_eq; auto. Qed.

Lemma list_step_sym g o : list_sym g → list_sym (list_step g o).
Proof.
  intros Hsym Hd a b. rewrite list_step_directed in Hd.
  destruct o as [x|u v w|u v]; simpl.
  - rewrite !list_entries_add_vertex. by apply Hsym.
  - rewrite !list_entries_add_edge, Hd, (added_sym u v w a b).
    f_equal. by apply Hsym.
  - rewrite !list_entries_remove_edge, Hd.
    + destruct (decide (touched false u v a b)) as [Hr|Hr].
      * by rewrite decide_True by by apply touched_sym.
      * rewrite decide_False by by rewrite touched_sym. by apply Hsym.
    + intros _. by rewrite (Hsym Hd u v).
    + intros _. by rewrite (Hsym Hd u v).
Qed.
End list_ops.

(** ** Induction over the stores reachable from an empty one *)

Lemma matrix_run_snoc directed weighted ops o :
  matrix_run directed weighted (ops ++ [o])
  = matrix_step (matrix_run directed weighted ops) o.
Proof. unfold matrix_run. by rewrite foldl_app. Qed.

Lemma list_run_snoc directed weighted ops o :
  list_run directed weighted (ops ++ [o])
  = list_step (list_run directed weighted ops) o.
Proof. unfold list_run. by rewrite foldl_app. Qed.

Lemma matrix_run_wf directed weighted ops :
  matrix_wf (matrix_run directed weighted ops).
Proof.
  induction ops as [|o ops IH] using rev_ind.
  - apply matrix_init_wf.
  - rewrite matrix_run_snoc. by apply matrix_step_wf.
Qed.

Lemma matrix_run_directed directed weighted ops :
  AdjacencyMatrix.directed (matrix_run directed weighted ops) = directed.
Proof.
  induction ops as [|o ops IH] using rev_ind; [done|].
  by rewrite matrix_run_snoc, matrix_step_directed.
Qed.

Lemma list_run_directed directed weighted ops :
  AdjacencyList.directed (list_run directed weighted ops) = directed.
Proof.
  induction ops as [|o ops IH] using rev_ind; [done|].
  by rewrite list_run_snoc, list_step_directed.
Qed.

Lemma list_run_sym directed weighted ops :
  list_sym (list_run directed weighted ops).
Proof.
  induction ops as [|o ops IH] using rev_ind.
  - by intros _ a b.
  - rewrite list_run_snoc. by apply list_step_sym.
Qed.

(** ** Neighbour enumeration of the two backends *)

Lemma matrix_neighbors_fold (g : AdjacencyMatrix.t) (vi : nat) l acc :
  foldl (λ neighbors i,
           match AdjacencyMatrix.cell (AdjacencyMatrix.matrix g) vi i with
           | Some weight => neighbors ++ [(AdjacencyMatrix.vertex_at g i, weight)]
           | None => neighbors
           end) acc l
  = acc ++ omap (λ i, (λ w, (AdjacencyMatrix.vertex_at g i, w))
                        <$> AdjacencyMatrix.cell (AdjacencyMatrix.matrix g) vi i) l.
Proof.
  revert acc. induction l as [|i l IH]; intros acc; simpl.
  - by rewrite app_nil_r.
  - rewrite IH. destruct (AdjacencyMatrix.cell _ vi i); simpl; [|done].
    by rewrite <- app_assoc.
Qed.

Lemma matrix_neighbors_elem (g : AdjacencyMatrix.t) u x w :
  matrix_wf g →
  (x, w) ∈ AdjacencyMatrix.get_neighbors g u ↔ matrix_weight g u x = Some w.
Proof.
  intros Hwf. unfold AdjacencyMatrix.get_neighbors, matrix_weight.
  destruct (OrderedDict.get (AdjacencyMatrix.vertices g) u) as [i|] eqn:Eu.
  2:{ split; [by intros ?%elem_of_nil|done]. }
  rewrite matrix_neighbors_fold, app_nil_l, list_elem_of_omap.
  split.
  - intros (j & Hj & Hc). apply elem_of_seq in Hj as [_ Hj]. simpl in Hj.
    destruct (AdjacencyMatrix.cell _ i j) as [w'|] eqn:Ec; [|done].
    simpl in Hc. injection Hc as <- <-.
    apply (wf_range _ Hwf) in Hj as [y Hy].
    unfold AdjacencyMatrix.vertex_at. rewrite Hy. simpl.
    apply (wf_index _ Hwf) in Hy. by rewrite Hy.
  - destruct (OrderedDict.get (AdjacencyMatrix.vertices g) x) as [j|] eqn:Ex;
      [|done].
    intros Hc. exists j. split.
    + apply elem_of_seq. split; [lia|]. simpl.
      by apply (matrix_index_lt _ _ _ Hwf Ex).
    + rewrite Hc. simpl. unfold AdjacencyMatrix.vertex_at.
      apply (wf_index _ Hwf) in Ex. by rewrite Ex.
Qed.

Lemma list_neighbors_elem (g : AdjacencyList.t) u x w :
  (x, w) ∈ AdjacencyList.get_neighbors g u ↔ w ∈ list_entries g u x.
Proof. unfold list_entries. by rewrite entries_elem. Qed.

(** ** The two backends after the same mutations *)

Lemma last_added l directed u v w a b :
  last (l ++ added directed u v w a b)
  = if decide (touched directed u v a b) then Some w else last l.
Proof.
  rewrite last_app. unfold added, touched.
  destruct directed; repeat case_decide; simpl; try done; exfalso; naive_solver.
Qed.

Lemma related_init directed weighted :
  related (AdjacencyMatrix.init directed weighted)
          (AdjacencyList.init directed weighted).
Proof.
  split; first [done | apply matrix_init_wf | by intros _ a b].
Qed.

Lemma related_add_vertex m l x :
  related m l →
  related (AdjacencyMatrix.add_vertex m x) (AdjacencyList.add_vertex l x).
Proof.
  intros [Hwf Hd Hv Hw Hs]. split.
  - by apply matrix_add_vertex_wf.
  - by rewrite matrix_directed_add_vertex, list_directed_add_vertex.
  - rewrite matrix_vertices_add_vertex, list_vertices_add_vertex.
    by rewrite matrix_contains_vertices, list_contains_vertices, Hv.
  - intros a b. by rewrite matrix_add_vertex_weight, list_entries_add_vertex.
  - by apply (list_step_sym l (AddVertex x)).
Qed.

Lemma related_step m l o :
  related m l → related (matrix_step m o) (list_step l o).
Proof.
  intros Hrel. destruct o as [x|u v w|u v]; [by apply related_add_vertex|..].
  - pose proof (related_add_vertex _ _ v (related_add_vertex _ _ u Hrel)) as H2.
    destruct Hrel as [Hwf Hd Hv Hw Hs]. split.
    + by apply matrix_step_wf.
    + by rewrite matrix_step_directed, list_step_directed.
    + simpl. rewrite matrix_vertices_add_edge, list_vertices_add_edge.
      apply H2.
    + intros a b. simpl.
      by rewrite matrix_add_edge_weight, list_entries_add_edge, last_added,
        Hd, Hw.
    + by apply list_step_sym.
  - destruct Hrel as [Hwf Hd Hv Hw Hs]. split.
    + by apply matrix_step_wf.
    + by rewrite matrix_step_directed, list_step_directed.
    + simpl. by rewrite matrix_vertices_remove_edge, list_vertices_remove_edge.
    + intros a b. simpl.
      rewrite matrix_remove_edge_weight, list_entries_remove_edge, Hd by
        (try done; intros Hf; by rewrite (Hs Hf u v)).
      destruct (decide _); [done|]. apply Hw.
    + by apply list_step_sym.
Qed.

Lemma related_fold ops m l :
  related m l → related (foldl matrix_step m ops) (foldl list_step l ops).
Proof.
  revert m l. induction ops as [|o ops IH]; intros m l Hrel; [done|].
  simpl. by apply IH, related_step.
Qed.

Lemma related_run directed weighted ops :
  related (matrix_run directed weighted ops) (list_run directed weighted ops).
Proof. apply related_fold, related_init. Qed.

(** ** Sequences that never add an edge over an existing one *)


Lemma added_elem directed u v w a b x :
  x ∈ added directed u v w a b → x = w ∧ touched directed u v a b.
Proof.
  unfold added, touched.
  destruct directed; repeat case_decide; set_solver.
Qed.



(** ** Undirected stores are symmetric (C7) *)

(** C7: on a store created with [directed == false], after any sequence of
    [add_vertex], [add_edge] and [remove_edge], [has_edge(u,v)] equals
    [has_edge(v,u)] and [get_weight(u,v)] equals [get_weight(v,u)] (both are
    [None] when there is no edge), on the matrix and on the list backend. *)
Theorem undirected_symmetry (weighted : bool) (ops : list op) (u v : Z) :
  let m := matrix_run false weighted ops in
  let l := list_run false weighted ops in
  AdjacencyMatrix.has_edge m u v = AdjacencyMatrix.has_edge m v u
  ∧ AdjacencyMatrix.get_weight m u v = AdjacencyMatrix.get_weight m v u
  ∧ AdjacencyList.has_edge l u v = AdjacencyList.has_edge l v u
  ∧ AdjacencyList.get_weight l u v = AdjacencyList.get_weight l v u.
Proof.
  intros m l.
  destruct (related_run false weighted ops) as [_ _ _ Hw Hs].
  fold m l in Hw, Hs.
  assert (list_entries l u v = list_entries l v u) as He.
  { apply Hs. apply list_run_directed. }
  rewrite !matrix_has_edge, !matrix_get_weight, !list_has_edge_entries,
    !list_get_weight_entries, !Hw, He.
  done.
Qed.

(** ** The two backends after the same mutations (C1) *)


(** ** The stores as graphs *)

Lemma matrix_weight_vertices (m : AdjacencyMatrix.t) a b w :
  matrix_weight m a b = Some w →
  a ∈ AdjacencyMatrix.get_vertices m ∧ b ∈ AdjacencyMatrix.get_vertices m.
Proof.
  unfold matrix_weight, AdjacencyMatrix.get_vertices.
  destruct (OrderedDict.get (AdjacencyMatrix.vertices m) a) eqn:Ea; [|done].
  destruct (OrderedDict.get (AdjacencyMatrix.vertices m) b) eqn:Eb; [|done].
  intros _. split.
  - destruct (decide (a ∈ OrderedDict.keys (AdjacencyMatrix.vertices m)))
      as [|Hn]; [done|]. apply od_get_None in Hn. congruence.
  - destruct (decide (b ∈ OrderedDict.keys (AdjacencyMatrix.vertices m)))
      as [|Hn]; [done|]. apply od_get_None in Hn. congruence.
Qed.

Lemma related_edges m l u x :
  related m l → (edge m u x ↔ edge l u x).
Proof.
  intros [Hwf _ _ Hw _]. unfold edge, neighbors. rewrite !list_elem_of_fmap.
  split.
  - intros ([y w] & -> & Hin). simpl in *.
    apply matrix_neighbors_elem in Hin; [|done]. rewrite Hw in Hin.
    apply last_Some_elem_of, list_neighbors_elem in Hin. by exists (y, w).
  - intros ([y w] & -> & Hin). simpl in *.
    apply list_neighbors_elem in Hin.
    destruct (last (list_entries l u y)) as [w'|] eqn:El.
    + exists (y, w'). split; [done|].
      apply matrix_neighbors_elem; [done|]. by rewrite Hw.
    + apply last_None in El. rewrite El in Hin. by apply elem_of_nil in Hin.
Qed.

Lemma related_closed m l : related m l → closed m ∧ closed l.
Proof.
  intros Hrel.
  assert (closed m) as Hm.
  { intros u x ([y w] & -> & Hin)%list_elem_of_fmap. simpl.
    apply matrix_neighbors_elem in Hin; [|apply Hrel].
    by apply matrix_weight_vertices in Hin as [_ ?]. }
  split; [done|].
  intros u x He%(related_edges m l); [|done]. apply Hm in He.
  simpl in *. by rewrite <- (rel_vertices _ _ Hrel).
Qed.

Lemma matrix_run_closed directed weighted ops :
  closed (matrix_run directed weighted ops).
Proof. apply (related_closed _ _ (related_run directed weighted ops)). Qed.

Lemma list_run_closed directed weighted ops :
  closed (list_run directed weighted ops).
Proof. apply (related_closed _ _ (related_run directed weighted ops)). Qed.

Lemma list_add_vertex_NoDup (l : AdjacencyList.t) x :
  NoDup (AdjacencyList.get_vertices l) →
  NoDup (AdjacencyList.get_vertices (AdjacencyList.add_vertex l x)).
Proof.
  intros Hnd. rewrite list_vertices_add_vertex.
  destruct (OrderedDict.contains _ _) eqn:E; [done|].
  apply od_contains_false in E. apply NoDup_app. split; [done|].
  split; [|apply NoDup_singleton].
  intros y Hy ->%list_elem_of_singleton. done.
Qed.

Lemma list_step_NoDup (l : AdjacencyList.t) o :
  NoDup (AdjacencyList.get_vertices l) →
  NoDup (AdjacencyList.get_vertices (list_step l o)).
Proof.
  intros Hnd. destruct o as [x|u v w|u v]; simpl.
  - by apply list_add_vertex_NoDup.
  - rewrite list_vertices_add_edge. by do 2 apply list_add_vertex_NoDup.
  - by rewrite list_vertices_remove_edge.
Qed.

Lemma list_run_NoDup directed weighted ops :
  NoDup (get_vertices (list_run directed weighted ops)).
Proof.
  induction ops as [|o ops IH] using rev_ind.
  - constructor.
  - rewrite list_run_snoc. by apply list_step_NoDup.
Qed.

Lemma matrix_run_NoDup directed weighted ops :
  NoDup (get_vertices (matrix_run directed weighted ops)).
Proof.
  simpl. rewrite (rel_vertices _ _ (related_run directed weighted ops)).
  apply list_run_NoDup.
Qed.

(** The reads and writes of the matrix never leave it: on a reachable store
    every index kept in [vertices] has its row, every row has a cell for the
    index of every vertex, and [index_to_vertex] knows the index. *)
Lemma matrix_run_in_range directed weighted ops u v i j :
  let m := matrix_run directed weighted ops in
  OrderedDict.get (AdjacencyMatrix.vertices m) u = Some i →
  OrderedDict.get (AdjacencyMatrix.vertices m) v = Some j →
  AdjacencyMatrix.index_to_vertex m !! i = Some u
  ∧ ∃ row, AdjacencyMatrix.matrix m !! i = Some row ∧ is_Some (row !! j).
Proof.
  intros m Hu Hv. pose proof (matrix_run_wf directed weighted ops) as Hwf.
  fold m in Hwf. split; [by apply Hwf|].
  pose proof (matrix_index_lt _ _ _ Hwf Hu) as Hi.
  pose proof (matrix_index_lt _ _ _ Hwf Hv) as Hj.
  destruct (lookup_lt_is_Some_2 (AdjacencyMatrix.matrix m) i) as [row Hrow].
  { by rewrite (wf_rows _ Hwf). }
  exists row. split; [done|]. apply lookup_lt_is_Some_2.
  by rewrite (wf_cols _ Hwf _ _ Hrow).
Qed.

(** ** Breadth-first search *)

Section walks.
Context {G : Type} `{Graph G}.
Implicit Types g : G.

Lemma walk_app g n m s v w :
  walk g s n v → walk g v m w → walk g s (n + m) w.
Proof.
  intros Hn Hm. induction Hm as [|m x y Hm IH He].
  - by rewrite Nat.add_0_r.
  - rewrite Nat.add_succ_r. econstructor; eauto.
Qed.

Lemma closed_universe g start u v :
  closed g → edge g u v → v ∈ universe g start.
Proof.
  intros Hc He. apply Hc in He. unfold universe.
  apply elem_of_union_r. by apply elem_of_list_to_set.
Qed.

Lemma size_list_to_set_le (l : list Z) :
  (size (list_to_set (C:=gset Z) l) ≤ length l)%nat.
Proof.
  induction l as [|x l IH].
  - by rewrite list_to_set_nil, size_empty.
  - rewrite list_to_set_cons, size_union_alt, size_singleton. simpl.
    assert (size (list_to_set (C:=gset Z) l ∖ {[x]})
            ≤ size (list_to_set (C:=gset Z) l))%nat
      by (apply subseteq_size; set_solver).
    lia.
Qed.

Lemma universe_size g start :
  (size (universe g start) ≤ length (get_vertices g) + 1)%nat.
Proof.
  unfold universe. rewrite size_union_alt, size_singleton.
  pose proof (size_list_to_set_le (get_vertices g)).
  assert (size (list_to_set (C:=gset Z) (get_vertices g) ∖ {[start]})
          ≤ size (list_to_set (C:=gset Z) (get_vertices g)))%nat
    by (apply subseteq_size; set_solver).
  lia.
Qed.
End walks.

Section bfs.
Context {G : Type} `{Graph G}.
Implicit Types (g : G) (st : GraphTraversal.bfs_state).
Import GraphTraversal.

Lemma bfs_visit_old current cd st n :
  n ∈ visited st → bfs_visit current cd st n = st.
Proof. intros Hn. unfold bfs_visit. by rewrite decide_True. Qed.

Lemma bfs_visit_new current cd st n :
  n ∉ visited st →
  bfs_visit current cd st n
  = {| visited := {[n]} ∪ visited st;
       distances := <[n := cd + 1]> (distances st);
       parents := <[n := Some current]> (parents st);
       queue := queue st ++ [n] |}.
Proof. intros Hn. unfold bfs_visit. by rewrite decide_False. Qed.

(** what the [for neighbor, _ in graph.get_neighbors(current)] loop does to
    the state: it enters the new neighbours, once each, in their order of
    first appearance *)
Lemma bfs_visit_fold current cd ns st :
  ∃ news,
    NoDup news
    ∧ (∀ n, n ∈ news ↔ n ∈ ns ∧ n ∉ visited st)
    ∧ queue (foldl (bfs_visit current cd) st ns) = queue st ++ news
    ∧ visited (foldl (bfs_visit current cd) st ns)
      = visited st ∪ list_to_set news
    ∧ (∀ v, distances (foldl (bfs_visit current cd) st ns) !! v
            = if decide (v ∈ news) then Some (cd + 1) else distances st !! v)
    ∧ (∀ v, parents (foldl (bfs_visit current cd) st ns) !! v
            = if decide (v ∈ news) then Some (Some current)
              else parents st !! v).
Proof.
  revert st. induction ns as [|n ns IH]; intros st.
  - exists []. simpl. split; [constructor|]. split; [set_solver|].
    split; [by rewrite app_nil_r|]. split; [set_solver|]. done.
  - simpl. destruct (decide (n ∈ visited st)) as [Hin|Hnin].
    + rewrite bfs_visit_old by done.
      destruct (IH st) as (news & Hnd & Hmem & Hq & Hv & Hd & Hp).
      exists news. split; [done|]. split; [|done].
      intros x. rewrite Hmem. set_solver.
    + rewrite bfs_visit_new by done.
      set (st1 := {| visited := _ |}).
      destruct (IH st1) as (news & Hnd & Hmem & Hq & Hv & Hd & Hp).
      simpl in Hmem.
      exists (n :: news). split; [|split; [|split; [|split; [|split]]]].
      * constructor; [|done]. intros Hn%Hmem. set_solver.
      * intros x. rewrite elem_of_cons, Hmem.
        destruct (decide (x = n)) as [->|]; set_solver.
      * rewrite Hq. simpl. by rewrite <- app_assoc.
      * rewrite Hv. simpl. set_solver.
      * intros v. rewrite Hd. simpl.
        destruct (decide (v ∈ news)) as [Hvn|Hvn].
        { rewrite decide_True by set_solver. done. }
        destruct (decide (v = n)) as [->|].
        { rewrite decide_True by set_solver. by rewrite lookup_insert_eq. }
        rewrite decide_False by set_solver. by rewrite lookup_insert_ne.
      * intros v. rewrite Hp. simpl.
        destruct (decide (v ∈ news)) as [Hvn|Hvn].
        { rewrite decide_True by set_solver. done. }
        destruct (decide (v = n)) as [->|].
        { rewrite decide_True by set_solver. by rewrite lookup_insert_eq. }
        rewrite decide_False by set_solver. by rewrite lookup_insert_ne.
Qed.

Lemma ascending_ext d d' q :
  (∀ x, x ∈ q → d' !! x = d !! x) → ascending d q → ascending d' q.
Proof.
  induction q as [|x q IH]; simpl; [done|].
  intros Hext [Hx Hq]. split.
  - intros y dx dy Hy. rewrite !Hext by set_solver. by apply Hx.
  - apply IH; [|done]. intros y Hy. apply Hext. set_solver.
Qed.

Lemma ascending_app d q1 q2 :
  ascending d q1 → ascending d q2 →
  (∀ x y dx dy, x ∈ q1 → y ∈ q2 → d !! x = Some dx → d !! y = Some dy →
                dx ≤ dy) →
  ascending d (q1 ++ q2).
Proof.
  induction q1 as [|x q1 IH]; simpl; [done|].
  intros [Hx Hq1] Hq2 Hcross. split.
  - intros y dx dy [Hy|Hy]%elem_of_app; [by apply Hx|].
    apply Hcross; set_solver.
  - apply IH; [done..|]. intros ???? ?. apply Hcross. set_solver.
Qed.

Lemma ascending_const d q k :
  (∀ x, x ∈ q → d !! x = Some k) → ascending d q.
Proof.
  induction q as [|x q IH]; simpl; [done|].
  intros Hk. split.
  - intros y dx dy Hy. rewrite !Hk by set_solver. by intros [= <-] [= <-].
  - apply IH. intros y Hy. apply Hk. set_solver.
Qed.

Lemma bfs_inv_init g start :
  bfs_inv g start {| distances := {[start := 0]};
                     parents := {[start := None]};
                     queue := [start];
                     visited := {[start]} |}.
Proof.
  split; cbn [distances parents queue visited].
  - by rewrite dom_singleton_L.
  - by rewrite dom_singleton_L.
  - by rewrite lookup_singleton_eq.
  - by rewrite lookup_singleton_eq.
  - set_solver.
  - apply NoDup_singleton.
  - set_solver.
  - intros v d [-> <-]%lookup_singleton_Some. exists O.
    split; [done|]. split; [constructor|]. rewrite size_singleton. lia.
  - set_solver.
  - split; [|done]. set_solver.
  - intros x q dx dq ->%list_elem_of_singleton
      [-> <-]%lookup_singleton_Some [_ <-]%lookup_singleton_Some. lia.
Qed.

Lemma bfs_inv_step g start st current rest cd :
  bfs_inv g start st →
  queue st = current :: rest → distances st !! current = Some cd →
  let st' := foldl (bfs_visit current cd)
               {| distances := distances st; parents := parents st;
                  queue := rest; visited := visited st |}
               (neighbors g current) in
  bfs_inv g start st'
  ∧ ∃ k, size (visited st') = (size (visited st) + k)%nat
      ∧ length (queue st') = (length rest + k)%nat
      ∧ visited st' ⊆ visited st ∪ list_to_set (neighbors g current).
Proof.
  intros [Hdd Hdp Hsd Hsp Hq Hnd Hpar Hwalk Hdone Hasc Hnear]
    Hqueue Hcd st'.
  destruct (bfs_visit_fold current cd (neighbors g current)
    {| distances := distances st; parents := parents st;
       queue := rest; visited := visited st |})
    as (news & Hnn & Hmem & Hq' & Hv' & Hd' & Hp').
  fold st' in Hq', Hv', Hd', Hp'. simpl in Hmem, Hq', Hv', Hd', Hp'.
  rewrite Hqueue in Hq, Hnd, Hdone, Hasc, Hnear.
  assert (current ∈ visited st) as Hcur by (apply Hq; set_solver).
  assert (∀ v, v ∈ visited st → v ∉ news) as Hold.
  { intros v Hv Hn%Hmem. tauto. }
  assert (∀ v, v ∈ visited st → distances st' !! v = distances st !! v) as Hdold.
  { intros v Hv. rewrite Hd'. by rewrite decide_False by auto. }
  assert (∀ v, v ∈ news → distances st' !! v = Some (cd + 1)) as Hdnew.
  { intros v Hv. rewrite Hd'. by rewrite decide_True. }
  assert (∀ v d, distances st !! v = Some d → v ∈ visited st) as Hdv.
  { intros v d Hv. rewrite <- Hdd. by apply elem_of_dom. }
  assert (∀ v, v ∈ visited st' ↔ v ∈ visited st ∨ v ∈ news) as Hvis.
  { intros v. rewrite Hv'. set_solver. }
  assert (size (list_to_set (C:=gset Z) news) = length news) as Hsize
    by by apply size_list_to_set.
  split; [split|].
  - (* dom distances *)
    apply set_eq. intros v. rewrite elem_of_dom, Hvis, Hd'.
    destruct (decide (v ∈ news)); [naive_solver|].
    rewrite <- Hdd, elem_of_dom. naive_solver.
  - apply set_eq. intros v. rewrite elem_of_dom, Hvis, Hp'.
    destruct (decide (v ∈ news)); [naive_solver|].
    rewrite <- Hdp, elem_of_dom. naive_solver.
  - rewrite Hdold; [done|]. eauto.
  - rewrite Hp'. rewrite decide_False; [done|].
    apply Hold. eauto.
  - intros v. rewrite Hq', Hvis, elem_of_app. intros [Hv|Hv]; [|by right].
    left. apply Hq. set_solver.
  - rewrite Hq'. apply NoDup_app. apply NoDup_cons in Hnd as [_ Hnd].
    split; [done|]. split; [|done].
    intros v Hv. apply Hold, Hq. set_solver.
  - intros v [Hv|Hv]%Hvis Hne.
    + destruct (Hpar v Hv Hne) as (p & d & Hp & Hdp' & Hdv' & He).
      exists p, d. rewrite Hp', decide_False by auto.
      rewrite (Hdold p), (Hdold v) by eauto. done.
    + exists current, cd. rewrite Hp', decide_True by done.
      rewrite (Hdold current), (Hdnew v) by done.
      split; [done|]. split; [done|]. split; [done|]. by apply Hmem.
  - intros v d. rewrite Hd'. destruct (decide (v ∈ news)) as [Hv|Hv].
    + intros [= <-]. destruct (Hwalk _ _ Hcd) as (n & -> & Hw & Hlt).
      exists (S n). split; [lia|]. split.
      * econstructor; [done|]. by apply Hmem.
      * rewrite Hv', size_union by set_solver. rewrite Hsize.
        destruct news; [set_solver|]. simpl. lia.
    + intros Hd. destruct (Hwalk _ _ Hd) as (n & -> & Hw & Hlt).
      exists n. split; [done|]. split; [done|].
      rewrite Hv', size_union by set_solver. lia.
  - intros v n Hv Hvq He. rewrite Hq' in Hvq.
    apply not_elem_of_app in Hvq as [Hvr Hvn].
    apply Hvis in Hv as [Hv|Hv]; [|done].
    destruct (decide (v = current)) as [->|Hvc].
    + exists cd. rewrite (Hdold current) by done.
      destruct (decide (n ∈ news)) as [Hn|Hn].
      * exists (cd + 1). rewrite (Hdnew n) by done.
        split; [done|]. split; [done|lia].
      * assert (n ∈ visited st) as Hnv.
        { destruct (decide (n ∈ visited st)); [done|].
          exfalso. apply Hn, Hmem. done. }
        assert (is_Some (distances st !! n)) as [dn Hdn].
        { apply elem_of_dom. by rewrite Hdd. }
        exists dn. rewrite (Hdold n) by done. split; [done|]. split; [done|].
        apply (Hnear n current); [set_solver|done..].
    + destruct (Hdone v n Hv) as (dv & dn & Hdv1 & Hdn1 & Hle); [set_solver|done|].
      exists dv, dn. rewrite (Hdold v), (Hdold n) by eauto. done.
  - rewrite Hq'. destruct Hasc as [Hhead Hasc].
    apply ascending_app.
    + apply (ascending_ext (distances st)); [|done].
      intros x Hx. apply Hdold, Hq. set_solver.
    + apply (ascending_const _ _ (cd + 1)). done.
    + intros x y dx dy Hx Hy. rewrite (Hdnew y) by done.
      rewrite (Hdold x) by (apply Hq; set_solver).
      intros Hdx [= <-]. apply (Hnear x current); [set_solver|done..].
  - intros x q dx dq. rewrite Hq', elem_of_app.
    destruct Hasc as [Hhead Hasc].
    intros [Hqr|Hqn].
    + rewrite (Hdold q) by (apply Hq; set_solver). rewrite Hd'.
      destruct (decide (x ∈ news)).
      * intros [= <-] Hdq. pose proof (Hhead q cd dq Hqr Hcd Hdq). lia.
      * intros Hdx Hdq. apply (Hnear x q); [set_solver|done..].
    + rewrite (Hdnew q) by done. rewrite Hd'.
      destruct (decide (x ∈ news)).
      * intros [= <-] [= <-]. lia.
      * intros Hdx [= <-].
        assert (dx ≤ cd + 1)
          by (apply (Hnear x current); [set_solver|done..]).
        lia.
  - exists (length news). split; [|split].
    + rewrite Hv', size_union by set_solver. by rewrite Hsize.
    + by rewrite Hq', length_app.
    + rewrite Hv'. intros v [Hv|Hv%elem_of_list_to_set]%elem_of_union;
        [set_solver|]. apply Hmem in Hv as [Hv _]. set_solver.
Qed.

(** the loop never raises; when it returns, the invariant holds with an
    empty queue, after at most [fuel] iterations *)
Lemma bfs_loop_correct g start fuel st :
  bfs_inv g start st →
  match bfs_loop fuel g st with
  | Return (d, p) =>
      ∃ st', d = distances st' ∧ p = parents st'
        ∧ bfs_inv g start st' ∧ queue st' = []
        ∧ (size (visited st') + length (queue st) ≤ size (visited st) + fuel)%nat
  | Raise _ => False
  | OutOfFuel => True
  end.
Proof.
  revert st. induction fuel as [|fuel IH]; intros st Hinv.
  - simpl. destruct (queue st) as [|c rest] eqn:Hq; [|done].
    exists st. do 4 (split; [done|]). cbn [length]. lia.
  - simpl. destruct (queue st) as [|c rest] eqn:Hq.
    { exists st. do 4 (split; [done|]). cbn [length]. lia. }
    assert (is_Some (distances st !! c)) as [cd Hcd].
    { apply elem_of_dom. rewrite (inv_dom_d _ _ _ Hinv).
      apply (inv_queue _ _ _ Hinv). rewrite Hq. set_solver. }
    rewrite Hcd.
    destruct (bfs_inv_step g start st c rest cd Hinv Hq Hcd)
      as (Hinv' & k & Hsize & Hlen & _).
    specialize (IH _ Hinv').
    destruct (bfs_loop fuel g _) as [[d p]| |]; [|done..].
    destruct IH as (st' & -> & -> & Hinv'' & Hq' & Hle).
    exists st'. do 4 (split; [done|]). cbn [length]. lia.
Qed.

(** on a graph whose neighbours are vertices the loop finishes within one
    iteration per vertex *)
Lemma bfs_loop_finishes g start fuel st :
  closed g → bfs_inv g start st → visited st ⊆ universe g start →
  (length (queue st) + size (universe g start ∖ visited st) ≤ fuel)%nat →
  finished (bfs_loop fuel g st).
Proof.
  intros Hc. revert st. induction fuel as [|fuel IH]; intros st Hinv Hsub Hfuel.
  - destruct (queue st) as [|c rest] eqn:Hq; [|simpl in Hfuel; lia].
    simpl. by rewrite Hq.
  - simpl. destruct (queue st) as [|c rest] eqn:Hq; [done|].
    assert (is_Some (distances st !! c)) as [cd Hcd].
    { apply elem_of_dom. rewrite (inv_dom_d _ _ _ Hinv).
      apply (inv_queue _ _ _ Hinv). rewrite Hq. set_solver. }
    rewrite Hcd.
    destruct (bfs_inv_step g start st c rest cd Hinv Hq Hcd)
      as (Hinv' & k & Hsize & Hlen & Hvis).
    set (st' := foldl _ _ _) in *.
    assert (visited st' ⊆ universe g start) as Hsub'.
    { intros v [Hv|Hv%elem_of_list_to_set]%Hvis%elem_of_union; [set_solver|].
      by apply (closed_universe g start c). }
    apply IH; [done..|].
    pose proof (subseteq_size _ _ Hsub) as Hs1.
    pose proof (subseteq_size _ _ Hsub') as Hs2.
    rewrite !size_difference by done.
    rewrite !size_difference in Hfuel by done. simpl in Hfuel. lia.
Qed.

(** [bfs] returns on every graph whose neighbours are vertices, within
    one iteration per vertex (and one for a start outside the graph) *)
Lemma bfs_returns g start fuel :
  closed g → (length (get_vertices g) + 1 ≤ fuel)%nat →
  ∃ st', bfs fuel g start = Return (distances st', parents st')
         ∧ bfs_inv g start st' ∧ queue st' = []
         ∧ (size (visited st') ≤ fuel)%nat.
Proof.
  intros Hc Hfuel.
  pose proof (bfs_loop_correct g start fuel _ (bfs_inv_init g start)) as Hcor.
  pose proof (bfs_loop_finishes g start fuel _ Hc (bfs_inv_init g start)) as Hfin.
  fold (bfs fuel g start) in Hcor, Hfin.
  destruct (bfs fuel g start) as [[d p]| |]; [|done|].
  - destruct Hcor as (st' & -> & -> & Hinv & Hq & Hle). exists st'.
    do 3 (split; [done|]). cbn [queue visited length] in Hle.
    rewrite size_singleton in Hle. lia.
  - exfalso. apply Hfin; [unfold universe; set_solver| |done].
    cbn [queue visited length].
    pose proof (universe_size g start).
    assert (size (universe g start ∖ {[start]}) + 1 = size (universe g start))%nat.
    { rewrite size_difference by (unfold universe; set_solver).
      rewrite size_singleton.
      assert (size (universe g start) ≠ 0)%nat; [|lia].
      apply size_non_empty_iff. unfold universe. set_solver. }
    lia.
Qed.

Lemma is_path_snoc g l v :
  is_path g l → (∀ x, last l = Some x → edge g x v) → is_path g (l ++ [v]).
Proof.
  induction l as [|x l IH]; [done|].
  destruct l as [|y l].
  - intros _ Hl. simpl. split; [|done]. by apply Hl.
  - intros [Hxy Hp] Hl. split; [done|]. apply IH; [done|].
    intros z Hz. by apply Hl.
Qed.

(** following [parents] from a recorded vertex leads back to [start], one
    step of distance at a time *)
Lemma walk_back_chain g start st n :
  bfs_inv g start st →
  ∀ v acc fuel,
    distances st !! v = Some (Z.of_nat n) → (n < fuel)%nat →
    ∃ chain, walk_back fuel (parents st) (Some v) acc = Return (acc ++ chain)
      ∧ head chain = Some v ∧ last chain = Some start
      ∧ length chain = S n ∧ is_path g (reverse chain).
Proof.
  intros Hinv. induction n as [|n IH]; intros v acc fuel Hd Hfuel;
    (destruct fuel as [|fuel]; [lia|]); simpl.
  - destruct (decide (v = start)) as [->|Hne].
    + rewrite (inv_start_p _ _ _ Hinv). exists [start].
      destruct fuel; done.
    + assert (v ∈ visited st) as Hv.
      { rewrite <- (inv_dom_d _ _ _ Hinv). apply elem_of_dom. eauto. }
      destruct (inv_parent _ _ _ Hinv v Hv Hne) as (p & d & _ & Hdp & Hdv & _).
      destruct (inv_walk _ _ _ Hinv _ _ Hdp) as (k & -> & _).
      rewrite Hd in Hdv. injection Hdv. lia.
  - assert (v ≠ start) as Hne.
    { intros ->. rewrite (inv_start_d _ _ _ Hinv) in Hd. injection Hd. lia. }
    assert (v ∈ visited st) as Hv.
    { rewrite <- (inv_dom_d _ _ _ Hinv). apply elem_of_dom. eauto. }
    destruct (inv_parent _ _ _ Hinv v Hv Hne) as (p & d & Hp & Hdp & Hdv & He).
    rewrite Hp. rewrite Hd in Hdv. injection Hdv as Hdv.
    assert (d = Z.of_nat n) as -> by lia.
    destruct (IH p (acc ++ [v]) fuel Hdp) as (chain & Hr & Hh & Hl & Hlen & Hpath);
      [lia|].
    exists (v :: chain). rewrite Hr, <- app_assoc. split; [done|].
    split; [done|]. split.
    + destruct chain; [done|]. simpl in *. done.
    + split; [simpl; lia|]. rewrite reverse_cons. apply is_path_snoc; [done|].
      intros x. rewrite last_reverse, Hh. by intros [= <-].
Qed.

Section final.
Context (g : G) (start : Z) (st : bfs_state).
Context (Hinv : bfs_inv g start st) (Hq : queue st = []).

Lemma bfs_final_reachable v :
  v ∈ dom (distances st) ↔ reachable g start v.
Proof.
  split.
  - intros [d Hd]%elem_of_dom.
    destruct (inv_walk _ _ _ Hinv _ _ Hd) as (n & _ & Hw & _). by exists n.
  - intros [n Hw]. induction Hw as [|n v w Hw IH He].
    + apply elem_of_dom. rewrite (inv_start_d _ _ _ Hinv). eauto.
    + rewrite (inv_dom_d _ _ _ Hinv) in IH.
      destruct (inv_done _ _ _ Hinv v w IH) as (dv & dn & _ & Hdn & _);
        [rewrite Hq; set_solver|done|].
      apply elem_of_dom. eauto.
Qed.

Lemma bfs_final_shortest v d k :
  distances st !! v = Some d → walk g start k v → d ≤ Z.of_nat k.
Proof.
  intros Hd Hw. revert d Hd. induction Hw as [|n v w Hw IH He]; intros d Hd.
  - rewrite (inv_start_d _ _ _ Hinv) in Hd. injection Hd as <-. lia.
  - assert (v ∈ visited st) as Hv.
    { rewrite <- (inv_dom_d _ _ _ Hinv). apply bfs_final_reachable.
      by exists n. }
    destruct (inv_done _ _ _ Hinv v w Hv) as (dv & dn & Hdv & Hdn & Hle);
      [rewrite Hq; set_solver|done|].
    rewrite Hd in Hdn. injection Hdn as <-.
    specialize (IH _ Hdv). lia.
Qed.
End final.
End bfs.



(** what a returned [bfs] result looks like, and what [bfs_path] makes of
    it with the same budget *)
Lemma bfs_result_spec {G : Type} `{Graph G} (g : G) (start : Z) (fuel : nat)
    distances parents :
  GraphTraversal.bfs fuel g start = Return (distances, parents) →
  dom distances = dom parents
  ∧ (∀ v, v ∈ dom distances ↔ reachable g start v)
  ∧ ∀ end_,
      match distances !! end_ with
      | None => GraphTraversal.bfs_path fuel g start end_ = Return None
      | Some d =>
          ∃ path, GraphTraversal.bfs_path fuel g start end_ = Return (Some path)
            ∧ head path = Some start ∧ last path = Some end_
            ∧ is_path g path ∧ Z.of_nat (length path) = d + 1
      end.
Proof.
  intros Hr.
  pose proof (bfs_loop_correct g start fuel _ (bfs_inv_init g start)) as Hcor.
  fold (GraphTraversal.bfs fuel g start) in Hcor. rewrite Hr in Hcor.
  destruct Hcor as (st & -> & -> & Hinv & Hq & Hle).
  cbn [GraphTraversal.queue GraphTraversal.visited length] in Hle.
  rewrite size_singleton in Hle.
  split.
  { by rewrite (inv_dom_d _ _ _ Hinv), (inv_dom_p _ _ _ Hinv). }
  split; [by apply bfs_final_reachable|].
  intros end_. unfold GraphTraversal.bfs_path. rewrite Hr. simpl.
  destruct (GraphTraversal.distances st !! end_) as [d|] eqn:Hd; [|done].
  destruct (inv_walk _ _ _ Hinv _ _ Hd) as (n & -> & _ & Hn).
  destruct (walk_back_chain g start st n Hinv end_ [] fuel Hd)
    as (chain & Hw & Hh & Hl & Hlen & Hpath); [lia|].
  exists (reverse chain). rewrite Hw. simpl. split; [done|].
  rewrite head_reverse, last_reverse, length_reverse, Hlen.
  repeat split; try done. lia.
Qed.

Lemma bfs_never_raises {G : Type} `{Graph G} (g : G) (start : Z) (fuel : nat) e :
  GraphTraversal.bfs fuel g start ≠ Raise e.
Proof.
  intros Hr.
  pose proof (bfs_loop_correct g start fuel _ (bfs_inv_init g start)) as Hcor.
  fold (GraphTraversal.bfs fuel g start) in Hcor. by rewrite Hr in Hcor.
Qed.

(** what [bfs] and [bfs_path] return on a graph whose neighbours are
    vertices *)
Lemma bfs_spec {G : Type} `{Graph G} (g : G) (start : Z) (fuel : nat) :
  closed g → (length (get_vertices g) + 1 ≤ fuel)%nat →
  ∃ distances parents,
    GraphTraversal.bfs fuel g start = Return (distances, parents)
    ∧ dom distances = dom parents
    ∧ (∀ v, v ∈ dom distances ↔ reachable g start v)
    ∧ ∀ end_,
        match distances !! end_ with
        | None => GraphTraversal.bfs_path fuel g start end_ = Return None
        | Some d =>
            ∃ path, GraphTraversal.bfs_path fuel g start end_ = Return (Some path)
              ∧ head path = Some start ∧ last path = Some end_
              ∧ is_path g path ∧ Z.of_nat (length path) = d + 1
        end.
Proof.
  intros Hc Hfuel.
  destruct (bfs_returns g start fuel Hc Hfuel) as (st & Hr & _).
  exists (GraphTraversal.distances st), (GraphTraversal.parents st).
  split; [done|]. by apply bfs_result_spec.
Qed.

(** C8: [bfs] never raises, and whenever it returns, the two maps have the
    same keys, which are exactly the vertices reachable from [start]
    (distances are integers; an unreached vertex has no entry in either
    map); with the same budget [bfs_path] returns [None] -- it does not
    raise -- exactly when [end] is not a key of the distances, and otherwise
    returns a list that begins at [start], ends at [end], follows edges and
    has as many edges as the distance recorded for [end].  On a graph whose
    neighbours are vertices, one iteration per vertex (plus one) is enough
    for [bfs] to return. *)
Theorem bfs_unreached_absent {G : Type} `{Graph G} (g : G) (start : Z)
    (fuel : nat) :
  (∀ e, GraphTraversal.bfs fuel g start ≠ Raise e)
  ∧ (∀ distances parents,
       GraphTraversal.bfs fuel g start = Return (distances, parents) →
       dom distances = dom parents
       ∧ (∀ v, v ∈ dom distances ↔ reachable g start v)
       ∧ ∀ end_,
           match distances !! end_ with
           | None => GraphTraversal.bfs_path fuel g start end_ = Return None
           | Some d =>
               ∃ path,
                 GraphTraversal.bfs_path fuel g start end_ = Return (Some path)
                 ∧ head path = Some start ∧ last path = Some end_
                 ∧ is_path g path ∧ Z.of_nat (length path) = d + 1
           end)
  ∧ (closed g → (length (get_vertices g) + 1 ≤ fuel)%nat →
     ∃ distances parents,
       GraphTraversal.bfs fuel g start = Return (distances, parents)).
Proof.
  split; [apply bfs_never_raises|]. split; [apply bfs_result_spec|].
  intros Hc Hfuel.
  destruct (bfs_returns g start fuel Hc Hfuel) as (st & Hr & _). eauto.
Qed.

Lemma bfs_unreached_absent_witness :
  closed (list_run false false reference_edges)
  ∧ (length (get_vertices (list_run false false reference_edges)) + 1 ≤ 6)%nat
  ∧ ∃ distances parents,
      GraphTraversal.bfs 6 (list_run false false reference_edges) 1
      = Return (distances, parents).
Proof.
  split; [apply list_run_closed|]. split; [vm_compute; lia|].
  apply (bfs_unreached_absent (list_run false false reference_edges) 1 6).
  - apply list_run_closed.
  - vm_compute. lia.
Defined.

(** ** Connected components *)

Section reach_avoid.
Context {G : Type} `{Graph G}.
Implicit Types (g : G) (X : gset Z).

Lemma reach_avoid_target g X s v : reach_avoid g X s v → v ∉ X.
Proof. by intros [|]. Qed.

Lemma reach_avoid_source g X s v : reach_avoid g X s v → s ∉ X.
Proof. induction 1; done. Qed.

Lemma reach_avoid_mono g X Y s v :
  X ⊆ Y → reach_avoid g Y s v → reach_avoid g X s v.
Proof.
  intros HXY. induction 1 as [|v w _ IH He Hw].
  - apply ra_refl. set_solver.
  - eapply ra_step; [done..|]. set_solver.
Qed.

Lemma reach_avoid_trans g X s v w :
  reach_avoid g X s v → reach_avoid g X v w → reach_avoid g X s w.
Proof. intros Hsv. induction 1; [done|]. by eapply ra_step. Qed.

Lemma reach_avoid_closed g X s v (U : gset Z) :
  (∀ a b, edge g a b → b ∈ U) → s ∈ U → reach_avoid g X s v → v ∈ U.
Proof. intros Hc Hs. induction 1; eauto. Qed.

(** a walk outside [X] either ends at [c], or never meets [c], or leaves
    [c] for the last time through one of its neighbours *)
Lemma reach_avoid_split g X c s v :
  reach_avoid g X s v →
  v = c
  ∨ reach_avoid g ({[c]} ∪ X) s v
  ∨ ∃ n, edge g c n ∧ reach_avoid g ({[c]} ∪ X) n v.
Proof.
  induction 1 as [Hs|v w Hsv IH He Hw].
  - destruct (decide (s = c)) as [->|]; [by left|].
    right; left. apply ra_refl. set_solver.
  - destruct (decide (w = c)) as [->|Hwc]; [by left|]. right.
    assert (w ∉ {[c]} ∪ X) as Hw' by set_solver.
    destruct IH as [->|[IH|(n & Hn & IH)]].
    + right. exists w. split; [done|]. by apply ra_refl.
    + left. by eapply ra_step.
    + right. exists n. split; [done|]. by eapply ra_step.
Qed.

Lemma reach_avoid_same_edges {G2} `{Graph G2} g (g2 : G2) X s v :
  (∀ a b, edge g a b → edge g2 a b) →
  reach_avoid g X s v → reach_avoid g2 X s v.
Proof.
  intros He. induction 1; [by apply ra_refl|]. eapply ra_step; eauto.
Qed.
End reach_avoid.

Section components.
Context {G : Type} `{Graph G}.
Implicit Types (g : G) (visited : gset Z).
Import Connectivity.

Lemma push_unvisited_fold visited stack ns x :
  x ∈ foldl (push_unvisited visited) stack ns
  ↔ (x ∈ ns ∧ x ∉ visited) ∨ x ∈ stack.
Proof.
  revert stack. induction ns as [|n ns IH]; intros stack; simpl.
  - set_solver.
  - rewrite IH. unfold push_unvisited.
    destruct (decide (n ∈ visited)); set_solver.
Qed.

(** the loop of [_dfs_component] returns; it appends to the component,
    once each, the vertices that some stack entry reaches outside
    [visited], and adds them to [visited] *)
Lemma dfs_component_loop_spec g (U : gset Z) :
  (∀ a b, edge g a b → b ∈ U) →
  ∀ n visited, (size (U ∖ visited) ≤ n)%nat →
  ∀ stack component, (∀ s, s ∈ stack → s ∈ U) →
  ∃ k new,
    dfs_component_loop k g stack visited component
    = Return (component ++ new, visited ∪ list_to_set new)
    ∧ NoDup new
    ∧ ∀ x, x ∈ new ↔ ∃ s, s ∈ stack ∧ reach_avoid g visited s x.
Proof.
  intros Hc n. induction n as [n IHn] using lt_wf_ind.
  intros visited Hsize stack.
  induction stack as [|c stack IHs]; intros component HU.
  - exists O, []. cbn [dfs_component_loop].
    rewrite app_nil_r, list_to_set_nil, union_empty_r_L.
    split; [done|]. split; [constructor|]. set_solver.
  - destruct (decide (c ∈ visited)) as [Hcv|Hcv].
    + destruct (IHs component) as (k & new & Hr & Hnd & Hnew); [set_solver|].
      exists (S k), new. simpl. rewrite decide_True by done.
      split; [done|]. split; [done|].
      intros x. rewrite Hnew. split.
      * intros (s & Hs & Hra). exists s. set_solver.
      * intros (s & [->|Hs]%elem_of_cons & Hra); [|by exists s].
        by apply reach_avoid_source in Hra.
    + set (visited1 := {[c]} ∪ visited).
      set (stack1 := foldl (push_unvisited visited1) stack (neighbors g c)).
      assert (c ∈ U) as HcU by set_solver.
      assert (size (U ∖ visited1) < size (U ∖ visited))%nat as Hlt.
      { apply subset_size. unfold visited1. set_solver. }
      destruct (IHn (size (U ∖ visited1)) ltac:(lia) visited1 ltac:(lia)
                  stack1 (component ++ [c])) as (k & new & Hr & Hnd & Hnew).
      { intros s [[Hs _]|Hs]%push_unvisited_fold; [by eapply Hc|set_solver]. }
      exists (S k), (c :: new). simpl. rewrite decide_False by done.
      fold visited1 stack1. rewrite Hr, <- app_assoc. simpl.
      split; [f_equal; f_equal; unfold visited1; set_solver|].
      split.
      * constructor; [|done]. intros (s & _ & Hra)%Hnew.
        apply reach_avoid_target in Hra. unfold visited1 in Hra. set_solver.
      * intros x. rewrite elem_of_cons, Hnew. split.
        -- intros [->|(s & Hs & Hra)].
           { exists c. split; [set_solver|]. by apply ra_refl. }
           apply push_unvisited_fold in Hs as [[Hs Hsv]|Hs].
           ++ exists c. split; [set_solver|].
              apply (reach_avoid_trans _ _ _ s).
              ** eapply ra_step; [by apply ra_refl|done|].
                 unfold visited1 in Hsv. set_solver.
              ** eapply reach_avoid_mono; [|done]. unfold visited1. set_solver.
           ++ exists s. split; [set_solver|].
              eapply reach_avoid_mono; [|done]. unfold visited1. set_solver.
        -- intros (s & Hs & Hra).
           destruct (reach_avoid_split g visited c s x Hra)
             as [->|[Hra1|(m & Hm & Hra1)]]; [by left|..]; right.
           ++ apply elem_of_cons in Hs as [->|Hs].
              { apply reach_avoid_source in Hra1. set_solver. }
              exists s. split; [|done]. apply push_unvisited_fold. by right.
           ++ exists m. split; [|done]. apply push_unvisited_fold. left.
              split; [done|]. by apply reach_avoid_source in Hra1.
Qed.

Lemma dfs_component_spec g v visited :
  closed g → v ∈ get_vertices g →
  ∃ k c,
    (∀ fuel, (k ≤ fuel)%nat →
       _dfs_component fuel g v visited = Return (c, visited ∪ list_to_set c))
    ∧ NoDup c
    ∧ ∀ x, x ∈ c ↔ reach_avoid g visited v x.
Proof.
  intros Hc Hv.
  destruct (dfs_component_loop_spec g (list_to_set (get_vertices g))
              ltac:(intros a b He%Hc; set_solver)
              _ visited ltac:(reflexivity) [v] [])
    as (k & c & Hr & Hnd & Hx); [set_solver|].
  exists k, c. split; [|split; [done|]].
  - intros fuel Hfuel. unfold _dfs_component.
    replace fuel with (k + (fuel - k))%nat by lia.
    rewrite dfs_component_loop_mono; [done|]. by rewrite Hr.
  - intros x. rewrite Hx. split; [|by exists v; set_solver].
    by intros (s & ->%list_elem_of_singleton & Hra).
Qed.

Lemma find_components_spec g vs :
  closed g → (∀ v, v ∈ vs → v ∈ get_vertices g) →
  ∀ components visited,
  ∃ k cs visited',
    comps_from g vs visited cs visited'
    ∧ ∀ fuel, (k ≤ fuel)%nat →
        for_each
          (λ '(components, visited) vertex,
             if decide (vertex ∈ visited) then Return (components, visited)
             else
               '(component, visited') ← _dfs_component fuel g vertex visited;
               Return (components ++ [component], visited'))
          vs (components, visited)
        = Return (components ++ cs, visited').
Proof.
  intros Hc. induction vs as [|v vs IH]; intros Hvs components visited.
  - exists O, [], visited. split; [constructor|]. intros fuel _. simpl.
    by rewrite app_nil_r.
  - destruct (decide (v ∈ visited)) as [Hv|Hv].
    + destruct (IH ltac:(set_solver) components visited)
        as (k & cs & visited' & Hcf & Hr).
      exists k, cs, visited'. split; [by apply cf_skip|].
      intros fuel Hfuel. simpl. rewrite decide_True by done. simpl.
      by apply Hr.
    + destruct (dfs_component_spec g v visited Hc ltac:(set_solver))
        as (k1 & c & Hr1 & Hnd & Hx).
      destruct (IH ltac:(set_solver) (components ++ [c])
                  (visited ∪ list_to_set c))
        as (k2 & cs & visited' & Hcf & Hr2).
      exists (k1 `max` k2)%nat, (c :: cs), visited'.
      split; [by apply cf_comp|].
      intros fuel Hfuel. simpl. rewrite decide_False by done.
      rewrite Hr1 by lia. simpl. rewrite Hr2 by lia.
      by rewrite <- app_assoc.
Qed.

Lemma comps_from_visited g vs X cs X' :
  comps_from g vs X cs X' → X' = X ∪ list_to_set (concat cs).
Proof.
  induction 1 as [X|v vs X cs X' Hv _ IH|v vs X c cs X' Hv Hnd Hx _ IH]; simpl.
  - set_solver.
  - done.
  - rewrite IH, list_to_set_app_L. set_solver.
Qed.

Lemma comps_from_NoDup g vs X cs X' :
  comps_from g vs X cs X' →
  NoDup (concat cs) ∧ ∀ x, x ∈ concat cs → x ∉ X.
Proof.
  induction 1 as [X|v vs X cs X' Hv _ IH|v vs X c cs X' Hv Hnd Hx _ IH]; simpl.
  - split; [constructor|]. set_solver.
  - done.
  - destruct IH as [IH1 IH2]. split.
    + apply NoDup_app. split; [done|]. split; [|done].
      intros x Hxc Hxcs. apply IH2 in Hxcs. set_solver.
    + intros x [Hxc|Hxcs]%elem_of_app.
      * apply Hx in Hxc. by apply reach_avoid_target in Hxc.
      * apply IH2 in Hxcs. set_solver.
Qed.

Lemma comps_from_cover g vs X cs X' :
  comps_from g vs X cs X' → ∀ v, v ∈ vs → v ∈ X'.
Proof.
  induction 1 as [X|v vs X cs X' Hv Hcf IH|v vs X c cs X' Hv Hnd Hx Hcf IH];
    intros y Hy.
  - set_solver.
  - apply elem_of_cons in Hy as [->|Hy]; [|by apply IH].
    rewrite (comps_from_visited _ _ _ _ _ Hcf). set_solver.
  - apply elem_of_cons in Hy as [->|Hy]; [|by apply IH].
    rewrite (comps_from_visited _ _ _ _ _ Hcf).
    assert (v ∈ c) by (apply Hx; by apply ra_refl). set_solver.
Qed.

Lemma comps_from_vertices g vs X cs X' :
  closed g → (∀ v, v ∈ vs → v ∈ get_vertices g) →
  comps_from g vs X cs X' → ∀ x, x ∈ concat cs → x ∈ get_vertices g.
Proof.
  intros Hc Hvs Hcf.
  induction Hcf as [X|v vs X cs X' Hv _ IH|v vs X c cs X' Hv Hnd Hx _ IH];
    simpl; intros y Hy.
  - set_solver.
  - apply IH; [set_solver|done].
  - apply elem_of_app in Hy as [Hy|Hy]; [|apply IH; set_solver].
    apply Hx in Hy.
    assert (y ∈ list_to_set (C:=gset Z) (get_vertices g)); [|set_solver].
    eapply (reach_avoid_closed g X v); [|by apply elem_of_list_to_set, Hvs; set_solver|done].
    intros a b He%Hc. set_solver.
Qed.

Lemma comps_from_same_edges {G2} `{Graph G2} g (g2 : G2) vs X cs1 X1 cs2 X2 :
  (∀ a b, edge g a b ↔ edge g2 a b) →
  comps_from g vs X cs1 X1 → comps_from g2 vs X cs2 X2 →
  X1 = X2 ∧ Forall2 (λ c1 c2, ∀ x, x ∈ c1 ↔ x ∈ c2) cs1 cs2.
Proof.
  intros He Hcf1. revert cs2 X2.
  induction Hcf1 as [X|v vs X cs X' Hv _ IH|v vs X c cs X' Hv Hnd Hx _ IH];
    intros cs2 X2 Hcf2;
    inversion Hcf2 as [|? ? ? ? ? Hv2 Hcf2'|? ? ? c2 ? ? Hv2 Hnd2 Hx2 Hcf2'];
    subst; try done.
  - by apply IH.
  - assert (∀ x, x ∈ c ↔ x ∈ c2) as Hcc.
    { intros x. rewrite Hx, Hx2. split; apply reach_avoid_same_edges;
        intros a b; apply He. }
    assert (list_to_set (C:=gset Z) c = list_to_set c2) as Hset by set_solver.
    rewrite Hset in IH. destruct (IH _ _ Hcf2') as [-> HF].
    split; [done|]. by constructor.
Qed.
End components.

Lemma find_connected_components_returns {G : Type} `{Graph G} (g : G) :
  closed g →
  ∃ k cs X',
    comps_from g (get_vertices g) ∅ cs X'
    ∧ ∀ fuel, (k ≤ fuel)%nat →
        Connectivity.find_connected_components fuel g = Return cs.
Proof.
  intros Hc.
  destruct (find_components_spec g (get_vertices g) Hc ltac:(done) [] ∅)
    as (k & cs & X' & Hcf & Hr).
  exists k, cs, X'. split; [done|]. intros fuel Hfuel.
  unfold Connectivity.find_connected_components. by rewrite Hr.
Qed.

(** C9: on a graph whose neighbours are vertices, with enough budget,
    [find_connected_components] returns components that together hold every
    vertex of the graph exactly once; [is_connected] returns true for a graph
    without vertices, and for a graph with vertices it returns true exactly
    when there is one component (which then holds all the vertices). *)
Theorem connectivity_components {G : Type} `{Graph G} (g : G) :
  closed g →
  ∃ fuel0 components connected,
    (NoDup (concat components)
     ∧ ∀ v, v ∈ concat components ↔ v ∈ get_vertices g)
    ∧ (get_vertices g = [] → connected = true)
    ∧ (get_vertices g ≠ [] →
       (connected = true
        ↔ ∃ c, components = [c] ∧ ∀ v, v ∈ get_vertices g → v ∈ c))
    ∧ ∀ fuel, (fuel0 ≤ fuel)%nat →
        Connectivity.find_connected_components fuel g = Return components
        ∧ Connectivity.is_connected fuel g = Return connected.
Proof.
  intros Hc.
  destruct (find_connected_components_returns g Hc) as (k & cs & X' & Hcf & Hr).
  pose proof (comps_from_NoDup _ _ _ _ _ Hcf) as [Hnd _].
  pose proof (comps_from_cover _ _ _ _ _ Hcf) as Hcover.
  pose proof (comps_from_vertices g _ _ _ _ Hc ltac:(done) Hcf) as Hsub.
  rewrite (comps_from_visited _ _ _ _ _ Hcf) in Hcover.
  assert (∀ v, v ∈ concat cs ↔ v ∈ get_vertices g) as Hall.
  { intros v. split; [apply Hsub|]. intros Hv%Hcover. set_solver. }
  exists k, cs,
    (match get_vertices g with
     | [] => true
     | _ => bool_decide (length cs = 1%nat)
     end).
  split; [done|]. split; [by intros ->|]. split.
  - intros Hne. destruct (get_vertices g) as [|v0 vs] eqn:Hvs; [done|].
    rewrite bool_decide_eq_true. split.
    + intros Hlen. destruct cs as [|c [|c' cs]]; try done.
      exists c. split; [done|]. intros v Hv%Hall. simpl in Hv.
      by rewrite app_nil_r in Hv.
    + by intros (c & -> & _).
  - intros fuel Hfuel. split; [by apply Hr|].
    unfold Connectivity.is_connected. rewrite (Hr fuel Hfuel).
    by destruct (get_vertices g).
Qed.

Lemma connectivity_components_witness :
  ∃ fuel0 components connected,
    (NoDup (concat components)
     ∧ ∀ v, v ∈ concat components
            ↔ v ∈ get_vertices (list_run false false reference_edges))
    ∧ (get_vertices (list_run false false reference_edges) = [] →
       connected = true)
    ∧ (get_vertices (list_run false false reference_edges) ≠ [] →
       (connected = true
        ↔ ∃ c, components = [c]
            ∧ ∀ v, v ∈ get_vertices (list_run false false reference_edges) →
                   v ∈ c))
    ∧ ∀ fuel, (fuel0 ≤ fuel)%nat →
        Connectivity.find_connected_components fuel
          (list_run false false reference_edges) = Return components
        ∧ Connectivity.is_connected fuel
            (list_run false false reference_edges) = Return connected.
Proof.
  apply (connectivity_components (list_run false false reference_edges)).
  apply list_run_closed.
Defined.

(** ** Depth-first search: the recursive and the iterative variant *)

Section dfs.
Context {G : Type} `{Graph G}.
Implicit Types (g : G) (visited : gset Z).
Import GraphTraversal.

(** pushing the neighbours in reverse leaves them on the stack in their
    order of enumeration, above the older entries *)
Lemma push_reversed visited stack ns :
  foldl (push_unvisited visited) stack (reverse ns)
  = filter (λ x, x ∉ visited) ns ++ stack.
Proof.
  induction ns as [|n ns IH]; [done|].
  rewrite reverse_cons, foldl_app, IH, filter_cons. simpl.
  unfold push_unvisited. destruct (decide (n ∈ visited)) as [Hn|Hn].
  - by rewrite (decide_False (P:=n ∉ visited)) by tauto.
  - by rewrite (decide_True (P:=n ∉ visited)) by done.
Qed.

Lemma dfs_iterative_loop_nil fuel g visited result :
  dfs_iterative_loop fuel g [] visited result = Return result.
Proof. by destruct fuel. Qed.

Lemma dfs_recursive_unfold depth g start visited :
  dfs_recursive (S depth) g start visited
  = for_each (dfs_child depth g) (neighbors g start)
      ([start], {[start]} ∪ visited).
Proof. done. Qed.

(** One call of [dfs_recursive] on an unvisited vertex returns, and the
    iterative loop, started with that vertex on top of its stack, appends
    the same vertices to its result and reaches the same visited set
    before it pops what lies beneath. *)
Lemma dfs_simulation g (U : gset Z) :
  (∀ a b, edge g a b → b ∈ U) →
  ∀ N visited v, (size (U ∖ visited) ≤ N)%nat → v ∈ U → v ∉ visited →
  ∃ d k r visited',
    (∀ depth, (d ≤ depth)%nat →
       dfs_recursive depth g v visited = Return (r, visited'))
    ∧ (∀ rest res fuel,
         dfs_iterative_loop (k + fuel) g (v :: rest) visited res
         = dfs_iterative_loop fuel g rest visited' (res ++ r))
    ∧ visited ⊆ visited'.
Proof.
  intros Hc N. induction N as [N IHN] using lt_wf_ind.
  intros visited v Hsize HvU Hv.
  set (visited1 := {[v]} ∪ visited).
  assert (size (U ∖ visited1) < N)%nat as Hlt.
  { apply Nat.lt_le_trans with (size (U ∖ visited)); [|done].
    apply subset_size. unfold visited1. set_solver. }
  assert (∀ ns, (∀ n, n ∈ ns → n ∈ U) →
          ∀ vis acc, visited1 ⊆ vis →
          ∃ d k r vis',
            (∀ depth, (d ≤ depth)%nat →
               for_each (dfs_child depth g) ns (acc, vis)
               = Return (acc ++ r, vis'))
            ∧ (∀ rest res fuel,
                 dfs_iterative_loop (k + fuel) g
                   (filter (λ x, x ∉ visited1) ns ++ rest) vis res
                 = dfs_iterative_loop fuel g rest vis' (res ++ r))
            ∧ vis ⊆ vis') as Hchildren.
  { induction ns as [|n ns IHns]; intros Hns vis acc Hvis.
    - exists O, O, [], vis. split; [|split; [|done]].
      + intros depth _. simpl. by rewrite app_nil_r.
      + intros rest res fuel. simpl. by rewrite app_nil_r.
    - destruct (decide (n ∈ vis)) as [Hn|Hn].
      + destruct (IHns ltac:(set_solver) vis acc Hvis)
          as (d & k & r & vis' & Hrec & Hit & Hsub).
        destruct (decide (n ∈ visited1)) as [Hn1|Hn1].
        * exists d, k, r, vis'. split; [|split; [|done]].
          -- intros depth Hd. simpl. rewrite decide_True by done. simpl.
             by apply Hrec.
          -- intros rest res fuel. rewrite filter_cons_False by tauto.
             apply Hit.
        * exists d, (S k), r, vis'. split; [|split; [|done]].
          -- intros depth Hd. simpl. rewrite decide_True by done. simpl.
             by apply Hrec.
          -- intros rest res fuel. rewrite filter_cons_True by done.
             simpl. rewrite decide_True by done. apply Hit.
      + assert (size (U ∖ vis) < N)%nat as Hlt'.
        { apply Nat.le_lt_trans with (size (U ∖ visited1)); [|done].
          apply subseteq_size. set_solver. }
        destruct (IHN (size (U ∖ vis)) Hlt' vis n ltac:(done)
                    ltac:(set_solver) Hn)
          as (d1 & k1 & r1 & vis1 & Hrec1 & Hit1 & Hsub1).
        destruct (IHns ltac:(set_solver) vis1 (acc ++ r1) ltac:(set_solver))
          as (d2 & k2 & r2 & vis' & Hrec2 & Hit2 & Hsub2).
        exists (d1 `max` d2)%nat, (k1 + k2)%nat, (r1 ++ r2), vis'.
        split; [|split; [|set_solver]].
        * intros depth Hd. simpl. rewrite decide_False by done.
          rewrite Hrec1 by lia. simpl. rewrite Hrec2 by lia.
          by rewrite <- app_assoc.
        * intros rest res fuel.
          rewrite filter_cons_True by set_solver. simpl.
          rewrite <- Nat.add_assoc, Hit1, Hit2. by rewrite <- app_assoc. }
  destruct (Hchildren (neighbors g v) ltac:(intros n Hn; by eapply Hc)
              visited1 [v] ltac:(done))
    as (d & k & r & vis' & Hrec & Hit & Hsub).
  exists (S d), (S k), (v :: r), vis'. split; [|split].
  - intros [|depth] Hd; [lia|]. rewrite dfs_recursive_unfold.
    fold visited1. apply Hrec. lia.
  - intros rest res fuel. simpl. rewrite decide_False by done.
    fold visited1. rewrite push_reversed, Hit. by rewrite <- app_assoc.
  - unfold visited1 in Hsub. set_solver.
Qed.

(** Whenever a call of [dfs_recursive] on an unvisited vertex returns, the
    iterative loop started with that vertex on top of its stack appends the
    same vertices and reaches the same visited set (no assumption on the
    graph). *)
Lemma dfs_recursive_simulated g depth :
  ∀ v visited r visited',
    v ∉ visited →
    dfs_recursive depth g v visited = Return (r, visited') →
    visited ⊆ visited'
    ∧ ∃ k, ∀ rest res fuel,
        dfs_iterative_loop (k + fuel) g (v :: rest) visited res
        = dfs_iterative_loop fuel g rest visited' (res ++ r).
Proof.
  induction depth as [|depth IHd]; intros v visited r visited' Hv Hrec;
    [done|].
  rewrite dfs_recursive_unfold in Hrec.
  set (visited1 := {[v]} ∪ visited) in *.
  assert (∀ ns vis acc acc' vis',
            visited1 ⊆ vis →
            for_each (dfs_child depth g) ns (acc, vis) = Return (acc', vis') →
            vis ⊆ vis'
            ∧ ∃ r k, acc' = acc ++ r
              ∧ ∀ rest res fuel,
                  dfs_iterative_loop (k + fuel) g
                    (filter (λ x, x ∉ visited1) ns ++ rest) vis res
                  = dfs_iterative_loop fuel g rest vis' (res ++ r))
    as Hchildren.
  { induction ns as [|n ns IHns]; intros vis acc acc' vis' Hvis Hfor.
    - injection Hfor as <- <-. split; [done|]. exists [], O.
      split; [by rewrite app_nil_r|]. intros rest res fuel. simpl.
      by rewrite app_nil_r.
    - simpl in Hfor. destruct (decide (n ∈ vis)) as [Hn|Hn].
      + simpl in Hfor.
        destruct (IHns _ _ _ _ Hvis Hfor) as (Hsub & r' & k & -> & Hit).
        split; [done|]. destruct (decide (n ∈ visited1)) as [Hn1|Hn1].
        * exists r', k. split; [done|]. intros rest res fuel.
          rewrite filter_cons_False by tauto. apply Hit.
        * exists r', (S k). split; [done|]. intros rest res fuel.
          rewrite filter_cons_True by done. simpl.
          rewrite decide_True by done. apply Hit.
      + destruct (dfs_recursive depth g n vis) as [[sub vis1]| |] eqn:Hsub;
          simpl in Hfor; [|done..].
        destruct (IHd _ _ _ _ Hn Hsub) as (Hsub1 & k1 & Hit1).
        destruct (IHns vis1 (acc ++ sub) acc' vis' ltac:(set_solver) Hfor)
          as (Hsub2 & r2 & k2 & -> & Hit2).
        split; [set_solver|]. exists (sub ++ r2), (k1 + k2)%nat.
        split; [by rewrite app_assoc|]. intros rest res fuel.
        rewrite filter_cons_True by set_solver. simpl.
        rewrite <- Nat.add_assoc, Hit1, Hit2. by rewrite <- app_assoc. }
  destruct (Hchildren _ _ _ _ _ ltac:(done) Hrec) as (Hsub & r' & k & -> & Hit).
  split; [unfold visited1 in Hsub; set_solver|].
  exists (S k). intros rest res fuel. simpl. rewrite decide_False by done.
  fold visited1. rewrite push_reversed, Hit. by rewrite <- app_assoc.
Qed.
End dfs.

(** what [dfs_recursive] and [dfs_iterative] return on a graph whose
    neighbours are vertices *)
Lemma dfs_spec {G : Type} `{Graph G} (g : G) (start : Z) :
  closed g →
  ∃ k order visited,
    ∀ n, (k ≤ n)%nat →
      GraphTraversal.dfs_recursive n g start ∅ = Return (order, visited)
      ∧ GraphTraversal.dfs_iterative n g start = Return order.
Proof.
  intros Hc.
  destruct (dfs_simulation g (universe g start)
              ltac:(intros a b He; by eapply closed_universe)
              _ ∅ start ltac:(reflexivity)
              ltac:(unfold universe; set_solver) ltac:(set_solver))
    as (d & k & r & vis' & Hrec & Hit & _).
  exists (d `max` k)%nat, r, vis'. intros n Hn. split; [apply Hrec; lia|].
  unfold GraphTraversal.dfs_iterative.
  replace n with (k + (n - k))%nat by lia.
  by rewrite Hit, dfs_iterative_loop_nil.
Qed.

(** C3: [dfs_recursive(graph, start)] and [dfs_iterative(graph, start)]
    return exactly the same list.  On every graph, two lists they return
    are equal, and whenever the recursive variant returns, the iterative one
    returns the same list once it is given enough iterations; on a graph
    whose neighbours are vertices both return, with enough call depth and
    iterations. *)
Theorem dfs_variants_agree {G : Type} `{Graph G} (g : G) (start : Z) :
  (∀ depth fuel r1 v1 r2,
     GraphTraversal.dfs_recursive depth g start ∅ = Return (r1, v1) →
     GraphTraversal.dfs_iterative fuel g start = Return r2 →
     r1 = r2)
  ∧ (∀ depth r1 v1,
       GraphTraversal.dfs_recursive depth g start ∅ = Return (r1, v1) →
       ∃ k, ∀ n, (k ≤ n)%nat →
         GraphTraversal.dfs_iterative n g start = Return r1)
  ∧ (closed g →
     ∃ k order visited,
       ∀ n, (k ≤ n)%nat →
         GraphTraversal.dfs_recursive n g start ∅ = Return (order, visited)
         ∧ GraphTraversal.dfs_iterative n g start = Return order).
Proof.
  assert (∀ depth r1 v1,
            GraphTraversal.dfs_recursive depth g start ∅ = Return (r1, v1) →
            ∃ k, ∀ n, (k ≤ n)%nat →
              GraphTraversal.dfs_iterative n g start = Return r1) as Hsim.
  { intros depth r1 v1 Hrec.
    destruct (dfs_recursive_simulated g depth start ∅ r1 v1
                ltac:(set_solver) Hrec) as (_ & k & Hit).
    exists k. intros n Hn. unfold GraphTraversal.dfs_iterative.
    replace n with (k + (n - k))%nat by lia.
    by rewrite Hit, dfs_iterative_loop_nil. }
  split; [|split; [done|apply dfs_spec]].
  intros depth fuel r1 v1 r2 Hrec Hit.
  destruct (Hsim depth r1 v1 Hrec) as (k & Hk).
  specialize (Hk (fuel + k)%nat ltac:(lia)).
  unfold GraphTraversal.dfs_iterative in Hit, Hk.
  rewrite dfs_iterative_loop_mono in Hk by by rewrite Hit.
  congruence.
Qed.

Lemma dfs_variants_agree_witness :
  closed (list_run false false reference_edges)
  ∧ ∃ k order visited,
      ∀ n, (k ≤ n)%nat →
        GraphTraversal.dfs_recursive n (list_run false false reference_edges) 1 ∅
        = Return (order, visited)
        ∧ GraphTraversal.dfs_iterative n (list_run false false reference_edges) 1
          = Return order.
Proof.
  split; [apply list_run_closed|].
  apply (dfs_variants_agree (list_run false false reference_edges) 1).
  apply list_run_closed.
Defined.

(** ** Dijkstra: keys of the distance map *)

Section dijkstra.
Context {G : Type} `{Graph G}.
Implicit Types (g : G) (st : ShortestPath.dijkstra_state).
Import ShortestPath.

Lemma heappush_elem pq e x : x ∈ heappush pq e ↔ x = e ∨ x ∈ pq.
Proof.
  induction pq as [|y pq IH]; simpl; [set_solver|].
  destruct (entry_lt e y); [set_solver|]. rewrite !elem_of_cons, IH. tauto.
Qed.

(** the relaxation loop keeps the keys of [distances]; it raises only on a
    neighbour that is not a key *)
Lemma relax_fold (U : gset Z) visited current_dist current nbrs st :
  (∀ e, e ∈ nbrs → e.1 ∈ U) →
  dom (distances st) = U → (∀ e, e ∈ pq st → e.2 ∈ U) →
  ∃ st', for_each (relax visited current_dist current) nbrs st = Return st'
         ∧ dom (distances st') = U ∧ (∀ e, e ∈ pq st' → e.2 ∈ U).
Proof.
  revert st. induction nbrs as [|[n w] nbrs IH]; intros st Hn Hdom Hpq.
  - by exists st.
  - simpl. destruct (decide (n ∈ visited)) as [Hv|Hv].
    { simpl. apply IH; [set_solver|done..]. }
    assert (n ∈ U) as HnU by (apply (Hn (n, w)); set_solver).
    assert (is_Some (distances st !! n)) as [d Hd].
    { apply elem_of_dom. by rewrite Hdom. }
    rewrite Hd. destruct (PrimFloat.ltb _ d); simpl.
    + apply IH; [set_solver| |]; simpl.
      * rewrite dom_insert_L. set_solver.
      * intros e [->|He]%heappush_elem; [done|by apply Hpq].
    + apply IH; [set_solver|done..].
Qed.

Lemma dijkstra_loop_spec g (U : gset Z) :
  (∀ a b, edge g a b → b ∈ U) →
  ∀ n visited, (size (U ∖ visited) ≤ n)%nat →
  ∀ queue distances parents,
    dom distances = U → (∀ e, e ∈ queue → e.2 ∈ U) →
    ∃ k distances' parents',
      dijkstra_loop k g
        {| distances := distances; parents := parents; pq := queue |} visited
      = Return (distances', parents')
      ∧ dom distances' = U.
Proof.
  intros Hc n. induction n as [n IHn] using lt_wf_ind.
  intros visited Hsize queue.
  induction queue as [|[d c] queue IHq]; intros distances parents Hdom Hpq.
  - exists O, distances, parents. done.
  - destruct (decide (c ∈ visited)) as [Hcv|Hcv].
    + destruct (IHq distances parents Hdom ltac:(set_solver))
        as (k & d' & p' & Hr & Hd').
      exists (S k), d', p'. simpl. by rewrite decide_True by done.
    + assert (c ∈ U) as HcU by (apply (Hpq (d, c)); set_solver).
      destruct (relax_fold U ({[c]} ∪ visited) d c (get_neighbors g c)
                  {| distances := distances; parents := parents; pq := queue |})
        as ([d1 p1 q1] & Hrel & Hd1 & Hq1); simpl; [|done|set_solver|].
      { intros e He. apply (Hc c). unfold edge, neighbors.
        apply list_elem_of_fmap. by exists e. }
      assert (size (U ∖ ({[c]} ∪ visited)) < size (U ∖ visited))%nat as Hlt
        by (apply subset_size; set_solver).
      destruct (IHn (size (U ∖ ({[c]} ∪ visited))) ltac:(lia)
                  ({[c]} ∪ visited) ltac:(lia) q1 d1 p1 Hd1 Hq1)
        as (k & d' & p' & Hr & Hd').
      exists (S k), d', p'. simpl. rewrite decide_False by done.
      by rewrite Hrel.
Qed.

Lemma dom_foldl_insert {A} (x : A) (l : list Z) (m : gmap Z A) :
  dom (foldl (λ d v, <[v := x]> d) m l) = dom m ∪ list_to_set l.
Proof.
  revert m. induction l as [|v l IH]; intros m; simpl; [set_solver|].
  rewrite IH, dom_insert_L. set_solver.
Qed.

Lemma dijkstra_returns g start :
  closed g →
  ∃ k distances parents,
    dom distances = {[start]} ∪ list_to_set (get_vertices g)
    ∧ ∀ fuel, (k ≤ fuel)%nat →
        dijkstra fuel g start = Return (distances, parents).
Proof.
  intros Hc. unfold dijkstra.
  destruct (dijkstra_loop_spec g ({[start]} ∪ list_to_set (get_vertices g))
              ltac:(intros a b He%Hc; set_solver) _ ∅ ltac:(reflexivity)
              [(0%float, start)]
              (<[start:=0%float]>
                 (foldl (λ d v, <[v:=infinity]> d) ∅ (get_vertices g)))
              (foldl (λ p v, <[v:=None]> p) ∅ (get_vertices g)))
    as (k & d' & p' & Hr & Hd').
  { rewrite dom_insert_L, dom_foldl_insert. set_solver. }
  { set_solver. }
  exists k, d', p'. split; [done|]. intros fuel Hfuel.
  replace fuel with (k + (fuel - k))%nat by lia.
  rewrite dijkstra_loop_mono; [done|]. by rewrite Hr.
Qed.
End dijkstra.

Lemma closed_reachable {G : Type} `{Graph G} (g : G) start v :
  closed g → reachable g start v → v = start ∨ v ∈ get_vertices g.
Proof.
  intros Hc [n Hw]. destruct Hw as [|n u w _ He]; [by left|].
  right. by eapply Hc.
Qed.

(** C10: on a graph whose neighbours are vertices, with enough budget,
    [dijkstra] returns a distance map whose keys are exactly the vertices of
    the graph and [start]; hence for an [end] that is neither a vertex nor
    [start], [dijkstra_path] raises KeyError (at [distances[end]]), whereas
    [bfs_path] returns [None] for it. *)
Theorem dijkstra_path_unknown_end {G : Type} `{Graph G} (g : G) (start : Z) :
  closed g →
  ∃ fuel0 distances parents,
    dom distances = {[start]} ∪ list_to_set (get_vertices g)
    ∧ ∀ fuel, (fuel0 ≤ fuel)%nat →
        ShortestPath.dijkstra fuel g start = Return (distances, parents)
        ∧ ∀ end_, end_ ∉ get_vertices g → end_ ≠ start →
            ShortestPath.dijkstra_path fuel g start end_ = Raise KeyError
            ∧ GraphTraversal.bfs_path fuel g start end_ = Return None.
Proof.
  intros Hc.
  destruct (dijkstra_returns g start Hc) as (k & d & p & Hdom & Hr).
  exists (k `max` (length (get_vertices g) + 1))%nat, d, p.
  split; [done|]. intros fuel Hfuel.
  split; [apply Hr; lia|]. intros end_ Hv Hs. split.
  - unfold ShortestPath.dijkstra_path. rewrite Hr by lia. simpl.
    assert (d !! end_ = None) as ->; [|done].
    apply not_elem_of_dom. rewrite Hdom. set_solver.
  - destruct (bfs_spec g start fuel Hc ltac:(lia))
      as (bd & bp & _ & _ & Hreach & Hpath).
    specialize (Hpath end_).
    destruct (bd !! end_) as [x|] eqn:E; [|done].
    exfalso. assert (reachable g start end_) as Hre.
    { apply Hreach. apply elem_of_dom. eauto. }
    apply closed_reachable in Hre as [?|?]; done.
Qed.

Lemma dijkstra_path_unknown_end_witness :
  ∃ fuel0 distances parents,
    dom distances
    = {[1]} ∪ list_to_set (get_vertices (list_run false true reference_edges))
    ∧ ∀ fuel, (fuel0 ≤ fuel)%nat →
        ShortestPath.dijkstra fuel (list_run false true reference_edges) 1
        = Return (distances, parents)
        ∧ ∀ end_,
            end_ ∉ get_vertices (list_run false true reference_edges) →
            end_ ≠ 1 →
            ShortestPath.dijkstra_path fuel
              (list_run false true reference_edges) 1 end_ = Raise KeyError
            ∧ GraphTraversal.bfs_path fuel
                (list_run false true reference_edges) 1 end_ = Return None.
Proof.
  apply (dijkstra_path_unknown_end (list_run false true reference_edges) 1).
  apply list_run_closed.
Defined.
(** ** The order of float distances

    [==] and [<] of IEEE binary64, as the kernel specifies them on the
    decoded numbers: a partial order with NaN unrelated to everything. *)

Section float_order.
Import SpecFloat FloatOps.











End float_order.
(** ** [dijkstra] does not depend on the order of the neighbours *)

Section heap.
Import ShortestPath.



End heap.



(** a loop whose body gives the same state for two items of different keys
    in either order, and for an item twice as for once, depends only on the
    items it meets -- when no two of them share a key *)
Section for_each_items.
Context {S A K : Type} `{EqDecision K} (key : A → K) (f : S → A → outcome S).
Hypothesis f_twice : ∀ s x, (s' ← f s x; f s' x) = f s x.
Hypothesis f_swap : ∀ s x y, key x ≠ key y →
  (s' ← f s x; f s' y) = (s' ← f s y; f s' x).





End for_each_items.

Section relax.
Import ShortestPath.
Implicit Types st : dijkstra_state.


End relax.



(** ** What the two backends agree on (C1) *)



(** ** Overwriting an edge (C2) *)


(** C2, on the code: after [add_edge(1,2,3.0); add_edge(1,2,7.0)] the matrix
    backend holds the single weight 7.0, whereas the list backend keeps both
    adjacency entries and [get_weight(1,2)] still answers the first one, 3.0.
    [get_edges] lists the pair once on both backends and [get_edge_count] is 1
    before and after the second call. *)
Theorem add_edge_twice (directed weighted : bool) :
  let m := matrix_run directed weighted overwrite_ops in
  let l := list_run directed weighted overwrite_ops in
  AdjacencyMatrix.get_weight m 1 2 = Some 7%float
  ∧ AdjacencyMatrix.get_neighbors m 1 = [(2, 7%float)]
  ∧ AdjacencyMatrix.get_edge_count m = 1%nat
  ∧ AdjacencyMatrix.get_edge_count
      (matrix_run directed weighted [AddEdge 1 2 3%float]) = 1%nat
  ∧ AdjacencyList.get_weight l 1 2 = Some 3%float
  ∧ AdjacencyList.get_neighbors l 1 = [(2, 3%float); (2, 7%float)]
  ∧ AdjacencyList.get_edges l = [(1, 2, 3%float)]
  ∧ AdjacencyList.get_edge_count l = 1%nat
  ∧ AdjacencyList.get_edge_count
      (list_run directed weighted [AddEdge 1 2 3%float]) = 1%nat.
Proof. destruct directed, weighted; vm_compute; repeat split. Qed.

(** the two entries of the list backend are both relaxed by [dijkstra], so
    the shortest distance it finds is the smaller weight, 3.0, while the
    matrix backend only knows 7.0 *)
Lemma add_edge_twice_dijkstra (k : nat) :
  ShortestPath.dijkstra_path (10 + k) (list_run false true overwrite_ops) 1 2
  = Return (Some ([1; 2], 3%float))
  ∧ ShortestPath.dijkstra_path (10 + k) (matrix_run false true overwrite_ops) 1 2
    = Return (Some ([1; 2], 7%float)).
Proof.
  rewrite !dijkstra_path_mono by (vm_compute; done).
  split; vm_compute; reflexivity.
Qed.

(** ** Dijkstra on the reference graph (C4) *)

(** C4: on the weighted undirected graph with edges (1,2,2.0), (2,3,3.0),
    (1,4,1.0), (2,5,4.0), (4,5,1.0), built in either backend, [dijkstra(g,1)]
    returns the distances {1:0, 4:1, 5:2, 2:2, 3:5} and [dijkstra_path(g,1,5)]
    returns ([1,4,5], 2.0); any budget of at least 20 iterations is enough. *)
Theorem dijkstra_reference_graph (k : nat) :
  let expected : gmap Z float :=
    {[ 1 := 0%float; 4 := 1%float; 5 := 2%float; 2 := 2%float; 3 := 5%float ]} in
  let l := list_run false true reference_edges in
  let m := matrix_run false true reference_edges in
  (∃ parents, ShortestPath.dijkstra (20 + k) l 1 = Return (expected, parents))
  ∧ ShortestPath.dijkstra_path (20 + k) l 1 5
    = Return (Some ([1; 4; 5], 2%float))
  ∧ (∃ parents, ShortestPath.dijkstra (20 + k) m 1 = Return (expected, parents))
  ∧ ShortestPath.dijkstra_path (20 + k) m 1 5
    = Return (Some ([1; 4; 5], 2%float)).
Proof.
  intros expected l m.
  rewrite !dijkstra_mono, !dijkstra_path_mono by (vm_compute; done).
  repeat split; try (eexists; vm_compute; reflexivity); vm_compute; reflexivity.
Qed.

(** ** Topological sorting of the test graphs (C5, C6) *)

Lemma dag_order_1234 : dag_order (Return (Some [1; 2; 3; 4])).
Proof.
  eexists; split; [done|]. split; [done|].
  repeat split; do 2 eexists; (split; [|split]); try (vm_compute; reflexivity); lia.
Qed.

Lemma dag_order_1324 : dag_order (Return (Some [1; 3; 2; 4])).
Proof.
  eexists; split; [done|]. split; [apply perm_swap || (constructor; apply perm_swap)|].
  repeat split; do 2 eexists; (split; [|split]); try (vm_compute; reflexivity); lia.
Qed.

(** C5: on the directed graph 1→2, 1→3, 2→4, 3→4 (either backend) Kahn's
    [topological_sort] and [topological_sort_dfs] both return a permutation of
    1,2,3,4 in which 1 precedes 2 and 3, and 2 and 3 precede 4; on the directed
    cycle 1→2, 2→3, 3→1 both return [None]. *)
Theorem topological_sort_test_graphs (k : nat) :
  let dag_l := list_run true false dag_edges in
  let dag_m := matrix_run true false dag_edges in
  let cyc_l := list_run true false cycle_edges in
  let cyc_m := matrix_run true false cycle_edges in
  dag_order (TopologicalSort.topological_sort (10 + k) dag_l)
  ∧ dag_order (TopologicalSort.topological_sort_dfs (10 + k) dag_l)
  ∧ dag_order (TopologicalSort.topological_sort (10 + k) dag_m)
  ∧ dag_order (TopologicalSort.topological_sort_dfs (10 + k) dag_m)
  ∧ TopologicalSort.topological_sort (10 + k) cyc_l = Return None
  ∧ TopologicalSort.topological_sort_dfs (10 + k) cyc_l = Return None
  ∧ TopologicalSort.topological_sort (10 + k) cyc_m = Return None
  ∧ TopologicalSort.topological_sort_dfs (10 + k) cyc_m = Return None.
Proof.
  intros dag_l dag_m cyc_l cyc_m.
  rewrite !topological_sort_mono, !topological_sort_dfs_mono
    by (vm_compute; done).
  assert (TopologicalSort.topological_sort 10 dag_l = Return (Some [1; 2; 3; 4]))
    as -> by (vm_compute; reflexivity).
  assert (TopologicalSort.topological_sort 10 dag_m = Return (Some [1; 2; 3; 4]))
    as -> by (vm_compute; reflexivity).
  assert (TopologicalSort.topological_sort_dfs 10 dag_l
          = Return (Some [1; 3; 2; 4])) as -> by (vm_compute; reflexivity).
  assert (TopologicalSort.topological_sort_dfs 10 dag_m
          = Return (Some [1; 3; 2; 4])) as -> by (vm_compute; reflexivity).
  repeat split; try apply dag_order_1234; try apply dag_order_1324;
    vm_compute; reflexivity.
Qed.

(** C6: on a graph whose [directed] flag is false both sorting functions raise
    ValueError, whatever the budget; they return neither an ordering nor
    [None]. *)
Theorem topological_sort_undirected {G : Type} `{Graph G} (g : G) (fuel : nat) :
  directed g = false →
  TopologicalSort.topological_sort fuel g = Raise ValueError
  ∧ TopologicalSort.topological_sort_dfs fuel g = Raise ValueError.
Proof.
  intros Hd. unfold TopologicalSort.topological_sort,
    TopologicalSort.topological_sort_dfs. by rewrite Hd.
Qed.

Lemma topological_sort_undirected_witness :
  directed (list_run false false dag_edges) = false
  ∧ TopologicalSort.topological_sort 10 (list_run false false dag_edges)
    = Raise ValueError
  ∧ TopologicalSort.topological_sort_dfs 10 (list_run false false dag_edges)
    = Raise ValueError.
Proof.
  split; [reflexivity|].
  apply (topological_sort_undirected (list_run false false dag_edges) 10).
  reflexivity.
Defined.

(** ** The connectivity example of the test suite *)

Lemma connectivity_test_graph :
  let g := list_run false false
             [AddEdge 1 2 1; AddEdge 2 3 1; AddEdge 4 5 1; AddVertex 6]%float in
  Connectivity.is_connected 10 g = Return false
  ∧ Connectivity.find_connected_components 10 g
    = Return [[1; 2; 3]; [4; 5]; [6]].
Proof. split; vm_compute; reflexivity. Qed.
(** * Further properties of the two stores *)

(** ** Vertices *)

Lemma od_length_set {V : Type} (d : list (Z * V)) k v :
  length (OrderedDict.set d k v)
  = if OrderedDict.contains d k then length d else S (length d).
Proof.
  unfold OrderedDict.contains.
  induction d as [|[k' v'] d IH]; simpl; [done|].
  destruct (decide (k' = k)); simpl; [done|]. rewrite IH.
  by destruct (OrderedDict.get d k).
Qed.

Lemma matrix_add_vertex_count (g : AdjacencyMatrix.t) x :
  AdjacencyMatrix.vertex_count g = length (AdjacencyMatrix.vertices g) →
  AdjacencyMatrix.vertex_count (AdjacencyMatrix.add_vertex g x)
  = length (AdjacencyMatrix.vertices (AdjacencyMatrix.add_vertex g x)).
Proof.
  intros Hn. unfold AdjacencyMatrix.add_vertex.
  destruct (OrderedDict.contains _ _) eqn:E; [done|]. simpl.
  rewrite od_length_set, E. lia.
Qed.

Lemma matrix_step_count (g : AdjacencyMatrix.t) o :
  AdjacencyMatrix.vertex_count g = length (AdjacencyMatrix.vertices g) →
  AdjacencyMatrix.vertex_count (matrix_step g o)
  = length (AdjacencyMatrix.vertices (matrix_step g o)).
Proof.
  intros Hn. destruct o as [x|u v w|u v]; simpl.
  - by apply matrix_add_vertex_count.
  - destruct (matrix_add_edge_assign g u v w) as (i & j & _ & _ & ->).
    simpl. by do 2 apply matrix_add_vertex_count.
  - unfold AdjacencyMatrix.remove_edge.
    by destruct (OrderedDict.get (AdjacencyMatrix.vertices g) u),
      (OrderedDict.get (AdjacencyMatrix.vertices g) v).
Qed.

Lemma matrix_run_count directed weighted ops :
  AdjacencyMatrix.get_vertex_count (matrix_run directed weighted ops)
  = length (AdjacencyMatrix.get_vertices (matrix_run directed weighted ops)).
Proof.
  unfold AdjacencyMatrix.get_vertex_count, AdjacencyMatrix.get_vertices,
    OrderedDict.keys.
  rewrite length_fmap.
  induction ops as [|o ops IH] using rev_ind; [done|].
  rewrite matrix_run_snoc. by apply matrix_step_count.
Qed.

Lemma matrix_step_prefix (g : AdjacencyMatrix.t) o :
  AdjacencyMatrix.get_vertices g
  `prefix_of` AdjacencyMatrix.get_vertices (matrix_step g o).
Proof.
  assert (∀ g x, AdjacencyMatrix.get_vertices g
                 `prefix_of` AdjacencyMatrix.get_vertices
                               (AdjacencyMatrix.add_vertex g x)) as Hadd.
  { intros g' x. rewrite matrix_vertices_add_vertex.
    destruct (OrderedDict.contains _ _); [done|]. by apply prefix_app_r. }
  destruct o as [x|u v w|u v]; simpl.
  - apply Hadd.
  - rewrite matrix_vertices_add_edge. etrans; apply Hadd.
  - by rewrite matrix_vertices_remove_edge.
Qed.

Lemma matrix_fold_prefix ops (g : AdjacencyMatrix.t) :
  AdjacencyMatrix.get_vertices g
  `prefix_of` AdjacencyMatrix.get_vertices (foldl matrix_step g ops).
Proof.
  revert g. induction ops as [|o ops IH]; intros g; simpl; [done|].
  etrans; [apply (matrix_step_prefix g o)|apply IH].
Qed.

(** X1: in every store built by operations the vertices are pairwise
    distinct and [get_vertex_count] is their number. *)
Theorem vertices_distinct_and_counted (directed weighted : bool) (ops : list op) :
  let m := matrix_run directed weighted ops in
  let l := list_run directed weighted ops in
  NoDup (AdjacencyMatrix.get_vertices m)
  ∧ AdjacencyMatrix.get_vertex_count m
    = length (AdjacencyMatrix.get_vertices m)
  ∧ NoDup (AdjacencyList.get_vertices l)
  ∧ AdjacencyList.get_vertex_count l = length (AdjacencyList.get_vertices l).
Proof.
  intros m l. split; [apply matrix_run_NoDup|].
  split; [apply matrix_run_count|]. split; [apply list_run_NoDup|].
  unfold AdjacencyList.get_vertex_count, AdjacencyList.get_vertices,
    OrderedDict.keys.
  by rewrite length_fmap.
Qed.

(** X2: no operation removes a vertex or moves it: the vertices a store
    lists are a prefix of those it lists after further operations (the two
    stores list the same vertices), and the endpoints of an added edge are
    among them. *)
Theorem vertices_never_removed (directed weighted : bool) (ops more : list op) :
  let m := matrix_run directed weighted ops in
  let m' := matrix_run directed weighted (ops ++ more) in
  let l := list_run directed weighted ops in
  let l' := list_run directed weighted (ops ++ more) in
  AdjacencyMatrix.get_vertices m `prefix_of` AdjacencyMatrix.get_vertices m'
  ∧ AdjacencyList.get_vertices l `prefix_of` AdjacencyList.get_vertices l'
  ∧ ∀ u v w, In (AddEdge u v w) ops →
      u ∈ AdjacencyList.get_vertices l ∧ v ∈ AdjacencyList.get_vertices l.
Proof.
  intros m m' l l'.
  assert (AdjacencyMatrix.get_vertices m
          `prefix_of` AdjacencyMatrix.get_vertices m') as Hm.
  { unfold m, m', matrix_run. rewrite foldl_app. apply matrix_fold_prefix. }
  split; [done|]. split.
  { unfold l, l'.
    rewrite <- !(rel_vertices _ _ (related_run directed weighted _)).
    apply Hm. }
  intros u v w Hin. apply list_elem_of_In in Hin.
  apply list_elem_of_split in Hin as (ops1 & ops2 & ->).
  assert (u ∈ AdjacencyList.get_vertices
                (list_run directed weighted (ops1 ++ [AddEdge u v w]))
          ∧ v ∈ AdjacencyList.get_vertices
                  (list_run directed weighted (ops1 ++ [AddEdge u v w])))
    as [Hu Hv].
  { rewrite list_run_snoc. simpl. rewrite list_vertices_add_edge. split.
    - apply list_add_vertex_mono, list_add_vertex_elem.
    - apply list_add_vertex_elem. }
  assert (AdjacencyList.get_vertices
            (list_run directed weighted (ops1 ++ [AddEdge u v w]))
          `prefix_of` AdjacencyList.get_vertices l) as Hp.
  { unfold l. rewrite (cons_middle _ ops1 ops2), app_assoc.
    rewrite <- !(rel_vertices _ _ (related_run directed weighted _)).
    unfold matrix_run. rewrite (foldl_app _ (ops1 ++ _)).
    apply matrix_fold_prefix. }
  destruct Hp as [k Hk]. rewrite Hk. set_solver.
Qed.

(** ** [add_vertex] *)

Lemma matrix_add_vertex_present (g : AdjacencyMatrix.t) x :
  OrderedDict.contains
    (AdjacencyMatrix.vertices (AdjacencyMatrix.add_vertex g x)) x = true.
Proof.
  unfold OrderedDict.contains. rewrite matrix_add_vertex_get.
  by rewrite decide_True by done.
Qed.

Lemma matrix_vertex_at_add_vertex (g : AdjacencyMatrix.t) x i :
  (i < AdjacencyMatrix.vertex_count g)%nat →
  AdjacencyMatrix.vertex_at (AdjacencyMatrix.add_vertex g x) i
  = AdjacencyMatrix.vertex_at g i.
Proof.
  intros Hi. unfold AdjacencyMatrix.add_vertex, AdjacencyMatrix.vertex_at.
  destruct (OrderedDict.contains _ _); [done|]. simpl.
  by rewrite lookup_insert_ne by lia.
Qed.

Lemma omap_ext_elem {A B} (f g : A → option B) (l : list A) :
  (∀ x, x ∈ l → f x = g x) → omap f l = omap g l.
Proof.
  induction l as [|x l IH]; intros Hfg; [done|]. cbn [omap list_omap].
  rewrite (Hfg x) by set_solver. fold (omap f l) (omap g l).
  rewrite IH; [done|]. intros y Hy. apply Hfg. set_solver.
Qed.

Lemma matrix_get_neighbors_omap (g : AdjacencyMatrix.t) u :
  AdjacencyMatrix.get_neighbors g u
  = match OrderedDict.get (AdjacencyMatrix.vertices g) u with
    | None => []
    | Some ui =>
        omap (λ i, (λ w, (AdjacencyMatrix.vertex_at g i, w))
                     <$> AdjacencyMatrix.cell (AdjacencyMatrix.matrix g) ui i)
             (seq 0 (AdjacencyMatrix.vertex_count g))
    end.
Proof.
  unfold AdjacencyMatrix.get_neighbors.
  destruct (OrderedDict.get (AdjacencyMatrix.vertices g) u); [|done].
  by rewrite matrix_neighbors_fold.
Qed.

Lemma matrix_neighbors_add_vertex (g : AdjacencyMatrix.t) x u :
  matrix_wf g →
  AdjacencyMatrix.get_neighbors (AdjacencyMatrix.add_vertex g x) u
  = AdjacencyMatrix.get_neighbors g u.
Proof.
  intros Hwf. rewrite !matrix_get_neighbors_omap, matrix_add_vertex_get.
  destruct (OrderedDict.contains (AdjacencyMatrix.vertices g) x) eqn:E.
  { unfold AdjacencyMatrix.add_vertex. rewrite E.
    unfold OrderedDict.contains in E.
    destruct (decide (x = u)) as [->|]; [|done].
    by destruct (OrderedDict.get (AdjacencyMatrix.vertices g) u). }
  assert (OrderedDict.get (AdjacencyMatrix.vertices g) x = None) as Ex.
  { unfold OrderedDict.contains in E.
    by destruct (OrderedDict.get (AdjacencyMatrix.vertices g) x). }
  set (n := AdjacencyMatrix.vertex_count g).
  assert (AdjacencyMatrix.vertex_count (AdjacencyMatrix.add_vertex g x)
          = (n + 1)%nat) as ->.
  { unfold AdjacencyMatrix.add_vertex. by rewrite E. }
  assert (AdjacencyMatrix.matrix (AdjacencyMatrix.add_vertex g x)
          = AdjacencyMatrix.grow (AdjacencyMatrix.matrix g) n) as ->.
  { unfold AdjacencyMatrix.add_vertex. by rewrite E. }
  replace (seq 0 (n + 1)) with (seq 0 n ++ [n]) by (by rewrite seq_app).
  assert (∀ ui, omap (λ i, (λ w, (AdjacencyMatrix.vertex_at
                                     (AdjacencyMatrix.add_vertex g x) i, w))
                     <$> AdjacencyMatrix.cell
                           (AdjacencyMatrix.grow (AdjacencyMatrix.matrix g) n)
                           ui i) (seq 0 n ++ [n])
                = omap (λ i, (λ w, (AdjacencyMatrix.vertex_at g i, w))
                     <$> (if bool_decide (ui < n)%nat
                          then AdjacencyMatrix.cell (AdjacencyMatrix.matrix g)
                                 ui i
                          else None)) (seq 0 n)) as Hrow.
  { intros ui. rewrite omap_app.
    match goal with |- _ ++ ?t = _ => assert (t = []) as -> end.
    { cbn [omap list_omap].
      by rewrite cell_grow, bool_decide_eq_false_2 by lia. }
    rewrite app_nil_r.
    apply omap_ext_elem. intros i Hi%elem_of_seq.
    rewrite cell_grow. destruct (decide (ui < n)%nat).
    - rewrite !bool_decide_eq_true_2 by lia.
      destruct (AdjacencyMatrix.cell _ ui i); [|done]. simpl.
      by rewrite matrix_vertex_at_add_vertex by (fold n; lia).
    - by rewrite !bool_decide_eq_false_2 by lia. }
  destruct (decide (x = u)) as [->|Hxu].
  - rewrite Ex. simpl. rewrite Hrow.
    rewrite bool_decide_eq_false_2 by lia.
    generalize (seq 0 n). intros l. by induction l.
  - destruct (OrderedDict.get (AdjacencyMatrix.vertices g) u) as [ui|] eqn:Eu;
      [|done].
    pose proof (matrix_index_lt _ _ _ Hwf Eu) as Hui. fold n in Hui.
    rewrite Hrow. by rewrite bool_decide_eq_true_2 by done.
Qed.

(** X3: [add_vertex] on a vertex the store has changes nothing, so adding
    twice is adding once; adding a vertex -- which rebuilds the matrix --
    leaves every weight and every neighbour list as it was. *)
Theorem add_vertex_keeps_edges (directed weighted : bool) (ops : list op)
    (x : Z) :
  let m := matrix_run directed weighted ops in
  let l := list_run directed weighted ops in
  AdjacencyMatrix.add_vertex (AdjacencyMatrix.add_vertex m x) x
  = AdjacencyMatrix.add_vertex m x
  ∧ AdjacencyList.add_vertex (AdjacencyList.add_vertex l x) x
    = AdjacencyList.add_vertex l x
  ∧ (∀ u v, AdjacencyMatrix.get_weight (AdjacencyMatrix.add_vertex m x) u v
            = AdjacencyMatrix.get_weight m u v)
  ∧ (∀ u, AdjacencyMatrix.get_neighbors (AdjacencyMatrix.add_vertex m x) u
          = AdjacencyMatrix.get_neighbors m u)
  ∧ (∀ u v, AdjacencyList.get_weight (AdjacencyList.add_vertex l x) u v
            = AdjacencyList.get_weight l u v)
  ∧ (∀ u, AdjacencyList.get_neighbors (AdjacencyList.add_vertex l x) u
          = AdjacencyList.get_neighbors l u).
Proof.
  intros m l. pose proof (matrix_run_wf directed weighted ops) as Hwf.
  fold m in Hwf.
  split.
  { unfold AdjacencyMatrix.add_vertex at 1.
    by rewrite matrix_add_vertex_present. }
  split.
  { unfold AdjacencyList.add_vertex at 1.
    rewrite list_contains_vertices.
    by rewrite bool_decide_eq_true_2 by apply list_add_vertex_elem. }
  split.
  { intros u v. rewrite !matrix_get_weight.
    by apply matrix_add_vertex_weight. }
  split; [intros u; by apply matrix_neighbors_add_vertex|].
  split.
  { intros u v. by rewrite !list_get_weight_entries, list_entries_add_vertex. }
  intros u. by rewrite !list_neighbors_adj, list_adj_add_vertex.
Qed.

(** ** [add_edge] *)

(** X4: on the matrix store [add_edge(u, v, w)] makes [u] and [v] vertices
    and [w] the weight of the pair -- in both directions when the store is
    undirected -- whatever weight the pair had; the weight of every other
    pair stays. *)
Theorem matrix_add_edge_sets_weight (directed weighted : bool) (ops : list op)
    (u v : Z) (w : float) :
  let m := matrix_run directed weighted ops in
  let m' := AdjacencyMatrix.add_edge m u v w in
  u ∈ AdjacencyMatrix.get_vertices m' ∧ v ∈ AdjacencyMatrix.get_vertices m'
  ∧ AdjacencyMatrix.has_edge m' u v = true
  ∧ AdjacencyMatrix.get_weight m' u v = Some w
  ∧ (directed = false → AdjacencyMatrix.get_weight m' v u = Some w)
  ∧ ∀ a b, (a, b) ≠ (u, v) → (directed = false → (a, b) ≠ (v, u)) →
      AdjacencyMatrix.get_weight m' a b = AdjacencyMatrix.get_weight m a b.
Proof.
  intros m m'. pose proof (matrix_run_wf directed weighted ops) as Hwf.
  fold m in Hwf.
  assert (∀ a b, AdjacencyMatrix.get_weight m' a b
                 = if decide (touched directed u v a b) then Some w
                   else AdjacencyMatrix.get_weight m a b) as Hw.
  { intros a b. rewrite !matrix_get_weight. unfold m'.
    rewrite matrix_add_edge_weight by done.
    assert (AdjacencyMatrix.directed m = directed) as ->
      by apply matrix_run_directed.
    done. }
  assert (AdjacencyMatrix.get_weight m' u v = Some w) as Huv.
  { rewrite Hw, decide_True; [done|]. by left. }
  rewrite matrix_get_weight in Huv.
  destruct (matrix_weight_vertices _ _ _ _ Huv) as [Hu Hv].
  split; [done|]. split; [done|]. split.
  { rewrite matrix_has_edge, Huv. by apply bool_decide_eq_true_2. }
  split; [by rewrite matrix_get_weight|]. split.
  { intros ->. rewrite Hw, decide_True; [done|]. by right. }
  intros a b Hab Hba. rewrite Hw, decide_False; [done|].
  intros [?|[Hd ?]]; [done|]. by apply Hba.
Qed.

(** X5: on the list store [add_edge(u, v, w)] makes [u] and [v] vertices
    and [(v, w)] a neighbour entry of [u]; [get_weight] reports [w] for a
    pair that had no edge and keeps reporting the earlier weight for a pair
    that had one; the weight of every other pair stays. *)
Theorem list_add_edge_keeps_first_weight (l : AdjacencyList.t) (u v : Z)
    (w : float) :
  let l' := AdjacencyList.add_edge l u v w in
  u ∈ AdjacencyList.get_vertices l' ∧ v ∈ AdjacencyList.get_vertices l'
  ∧ AdjacencyList.has_edge l' u v = true
  ∧ (v, w) ∈ AdjacencyList.get_neighbors l' u
  ∧ AdjacencyList.get_weight l' u v
    = match AdjacencyList.get_weight l u v with
      | Some old => Some old
      | None => Some w
      end
  ∧ (AdjacencyList.directed l = false →
     (u, w) ∈ AdjacencyList.get_neighbors l' v)
  ∧ ∀ a b, (a, b) ≠ (u, v) →
      (AdjacencyList.directed l = false → (a, b) ≠ (v, u)) →
      AdjacencyList.get_weight l' a b = AdjacencyList.get_weight l a b.
Proof.
  intros l'.
  assert (∀ a b, list_entries l' a b
                 = list_entries l a b
                   ++ added (AdjacencyList.directed l) u v w a b) as He.
  { intros a b. apply list_entries_add_edge. }
  assert (added (AdjacencyList.directed l) u v w u v
          = w :: (if AdjacencyList.directed l then []
                  else if decide ((u, v) = (v, u)) then [w] else [])) as Huv.
  { unfold added. by rewrite decide_True by done. }
  split.
  { unfold l'. rewrite list_vertices_add_edge.
    apply list_add_vertex_mono, list_add_vertex_elem. }
  split.
  { unfold l'. rewrite list_vertices_add_edge. apply list_add_vertex_elem. }
  split.
  { rewrite list_has_edge_entries, He, Huv. apply bool_decide_eq_true_2.
    by destruct (list_entries l u v). }
  split.
  { apply list_neighbors_elem. rewrite He, Huv. set_solver. }
  split.
  { rewrite !list_get_weight_entries, He, Huv.
    by destruct (list_entries l u v). }
  split.
  { intros Hd. apply list_neighbors_elem. rewrite He. unfold added.
    rewrite Hd, (decide_True (P:=(v, u) = (v, u))) by done.
    set_solver. }
  intros a b Hab Hba. rewrite !list_get_weight_entries, He.
  unfold added. rewrite decide_False by done.
  destruct (AdjacencyList.directed l); [by rewrite app_nil_r|].
  rewrite decide_False by (by apply Hba). by rewrite app_nil_r.
Qed.

(** ** [remove_edge] *)

(** X6: after [remove_edge(u, v)] neither store has the edge, in either
    direction when the store is undirected -- the list store drops every
    entry of the pair; all other weights and the vertices stay. *)
Theorem remove_edge_clears_pair (directed weighted : bool) (ops : list op)
    (u v : Z) :
  let m := matrix_run directed weighted ops in
  let l := list_run directed weighted ops in
  let m' := AdjacencyMatrix.remove_edge m u v in
  let l' := AdjacencyList.remove_edge l u v in
  AdjacencyMatrix.has_edge m' u v = false
  ∧ AdjacencyList.has_edge l' u v = false
  ∧ (∀ w, (v, w) ∉ AdjacencyList.get_neighbors l' u)
  ∧ (directed = false →
     AdjacencyMatrix.has_edge m' v u = false
     ∧ AdjacencyList.has_edge l' v u = false)
  ∧ (∀ a b, (a, b) ≠ (u, v) → (directed = false → (a, b) ≠ (v, u)) →
       AdjacencyMatrix.get_weight m' a b = AdjacencyMatrix.get_weight m a b
       ∧ AdjacencyList.get_weight l' a b = AdjacencyList.get_weight l a b)
  ∧ AdjacencyMatrix.get_vertices m' = AdjacencyMatrix.get_vertices m
  ∧ AdjacencyList.get_vertices l' = AdjacencyList.get_vertices l.
Proof.
  intros m l m' l'.
  pose proof (matrix_run_wf directed weighted ops) as Hwf. fold m in Hwf.
  pose proof (list_run_sym directed weighted ops) as Hsym. fold l in Hsym.
  assert (AdjacencyMatrix.directed m = directed) as Hdm
    by apply matrix_run_directed.
  assert (AdjacencyList.directed l = directed) as Hdl
    by apply list_run_directed.
  assert (∀ a b, matrix_weight m' a b
                 = if decide (touched directed u v a b) then None
                   else matrix_weight m a b) as Hm.
  { intros a b. unfold m'. rewrite matrix_remove_edge_weight by done.
    by rewrite Hdm. }
  assert (∀ a b, list_entries l' a b
                 = if decide (touched directed u v a b) then []
                   else list_entries l a b) as Hl.
  { intros a b. unfold l'. rewrite list_entries_remove_edge.
    - by rewrite Hdl.
    - intros Hd Huv. by rewrite <- (Hsym Hd). }
  assert (touched directed u v u v) as Tuv by by left.
  split.
  { rewrite matrix_has_edge, Hm, decide_True by done.
    apply bool_decide_eq_false_2. by intros [? ?]. }
  split.
  { rewrite list_has_edge_entries, Hl, decide_True by done.
    apply bool_decide_eq_false_2. by intros ?. }
  split.
  { intros w Hin%list_neighbors_elem. rewrite Hl, decide_True in Hin by done.
    by apply elem_of_nil in Hin. }
  split.
  { intros ->. assert (touched false u v v u) as Tvu by by right.
    split.
    - rewrite matrix_has_edge, Hm, decide_True by done.
      apply bool_decide_eq_false_2. by intros [? ?].
    - rewrite list_has_edge_entries, Hl, decide_True by done.
      apply bool_decide_eq_false_2. by intros ?. }
  split.
  { intros a b Hab Hba.
    assert (¬ touched directed u v a b) as Hnt.
    { intros [?|[Hd ?]]; [done|]. by apply Hba. }
    rewrite !matrix_get_weight, !list_get_weight_entries, Hm, Hl.
    by rewrite !decide_False by done. }
  split; [apply matrix_vertices_remove_edge|apply list_vertices_remove_edge].
Qed.
(** * [get_edges] and [get_edge_count] *)

Section scan.
Context {G : Type} `{Graph G}.
Implicit Types (g : G) (key : Z → Z → Z * Z).

(** the inner loop lists, for every neighbour whose key is new, its first
    entry *)
Lemma list_unseen_fold key u a :
  (∀ v v', key u v = key u v' → v = v') →
  ∀ edges visited_edges,
  ∃ new,
    foldl (list_unseen key u) (edges, visited_edges) a
    = (edges ++ new, visited_edges ∪ list_to_set (key u <$> a.*1))
    ∧ NoDup (key_of key <$> new)
    ∧ (∀ x, x ∈ new →
         ∃ v w, x = (u, v, w) ∧ (key u v ∉ visited_edges)
           ∧ head (entries a v) = Some w)
    ∧ list_to_set (key_of key <$> new)
      = list_to_set (C:=gset (Z * Z)) (key u <$> a.*1) ∖ visited_edges.
Proof.
  intros Hinj. induction a as [|[v0 w0] a IH]; intros E V.
  - exists []. simpl. rewrite app_nil_r.
    split; [f_equal; set_solver|]. split; [constructor|].
    split; [by intros x Hx%elem_of_nil|]. set_solver.
  - cbn [foldl]. unfold list_unseen at 2. cbn [fst snd].
    destruct (decide (key u v0 ∈ V)) as [Hk|Hk].
    + destruct (IH E V) as (new & -> & Hnd & Hnew & Hset).
      exists new. split; [f_equal; set_solver|]. split; [done|]. split.
      * intros x Hx. destruct (Hnew x Hx) as (v & w & -> & Hv & Hh).
        exists v, w. split; [done|]. split; [done|].
        rewrite entries_cons, decide_False; [done|]. by intros ->.
      * rewrite Hset. set_solver.
    + destruct (IH (E ++ [(u, v0, w0)]) ({[key u v0]} ∪ V))
        as (new & -> & Hnd & Hnew & Hset).
      exists ((u, v0, w0) :: new). rewrite <- app_assoc.
      split; [f_equal; set_solver|]. split.
      { rewrite fmap_cons. constructor; [|done].
        intros (x & Hkx & Hx)%list_elem_of_fmap.
        destruct (Hnew x Hx) as (v & w & -> & Hv & _).
        unfold key_of in Hkx. simpl in Hkx. rewrite <- Hkx in Hv. set_solver. }
      split.
      * intros x [->|Hx]%elem_of_cons.
        { exists v0, w0. split; [done|]. split; [done|].
          by rewrite entries_cons, decide_True. }
        destruct (Hnew x Hx) as (v & w & -> & Hv & Hh).
        exists v, w. split; [done|]. split; [set_solver|].
        rewrite entries_cons, decide_False; [done|]. intros ->. set_solver.
      * rewrite fmap_cons, list_to_set_cons, Hset. unfold key_of at 1. simpl.
        apply set_eq. intros k. destruct (decide (k = key u v0)); set_solver.
Qed.

Lemma edge_keys_cons key g u vs :
  edge_keys key g (u :: vs)
  = list_to_set (key u <$> neighbors g u) ∪ edge_keys key g vs.
Proof. unfold edge_keys. simpl. by rewrite list_to_set_app_L. Qed.

Lemma edge_keys_elem key g vs k :
  k ∈ edge_keys key g vs ↔ ∃ u v, u ∈ vs ∧ edge g u v ∧ k = key u v.
Proof.
  unfold edge_keys, edge. rewrite elem_of_list_to_set, list_elem_of_bind.
  split.
  - intros (u & (v & -> & Hv)%list_elem_of_fmap & Hu). by exists u, v.
  - intros (u & v & Hu & Hv & ->). exists u. split; [|done].
    apply list_elem_of_fmap. by exists v.
Qed.

(** the two loops list every key once, with the first entry met for it *)
Lemma scan_edges_spec key g :
  (∀ u v v', key u v = key u v' → v = v') →
  ∀ vs edges visited_edges,
  ∃ new,
    scan_edges key g vs (edges, visited_edges)
    = (edges ++ new, visited_edges ∪ edge_keys key g vs)
    ∧ NoDup (key_of key <$> new)
    ∧ (∀ x, x ∈ new →
         ∃ u v w, x = (u, v, w) ∧ u ∈ vs ∧ (key u v ∉ visited_edges)
           ∧ head (entries (get_neighbors g u) v) = Some w)
    ∧ list_to_set (key_of key <$> new)
      = edge_keys key g vs ∖ visited_edges.
Proof.
  intros Hinj. unfold scan_edges.
  induction vs as [|u vs IH]; intros E V.
  - exists []. simpl. rewrite app_nil_r.
    split; [f_equal; unfold edge_keys; set_solver|]. split; [constructor|].
    split; [by intros x Hx%elem_of_nil|]. unfold edge_keys. set_solver.
  - cbn [foldl].
    destruct (list_unseen_fold key u (get_neighbors g u) (Hinj u) E V)
      as (new1 & -> & Hnd1 & Hnew1 & Hset1).
    fold (neighbors g u) in Hset1 |- *.
    destruct (IH (E ++ new1) (V ∪ list_to_set (key u <$> neighbors g u)))
      as (new2 & -> & Hnd2 & Hnew2 & Hset2).
    exists (new1 ++ new2). rewrite <- app_assoc, edge_keys_cons.
    split; [f_equal; set_solver|]. split.
    { rewrite fmap_app. apply NoDup_app. split; [done|]. split; [|done].
      intros k Hk1 Hk2.
      assert (k ∈ list_to_set (C:=gset (Z * Z)) (key_of key <$> new1)) as H1
        by by apply elem_of_list_to_set.
      assert (k ∈ list_to_set (C:=gset (Z * Z)) (key_of key <$> new2)) as H2
        by by apply elem_of_list_to_set.
      rewrite Hset1 in H1. rewrite Hset2 in H2. set_solver. }
    split.
    + intros x [Hx|Hx]%elem_of_app.
      * destruct (Hnew1 x Hx) as (v & w & -> & Hv & Hh).
        exists u, v, w. set_solver.
      * destruct (Hnew2 x Hx) as (u' & v & w & -> & Hu' & Hv & Hh).
        exists u', v, w. set_solver.
    + rewrite fmap_app, list_to_set_app_L, Hset1, Hset2.
      apply set_eq. intros k.
      destruct (decide (k ∈ list_to_set (C:=gset (Z * Z))
                              (key u <$> neighbors g u))); set_solver.
Qed.

(** what the two loops return from the empty list and the empty set *)
Lemma scan_edges_result key g :
  (∀ u v v', key u v = key u v' → v = v') →
  let edges := (scan_edges key g (get_vertices g) ([], ∅)).1 in
  NoDup (key_of key <$> edges)
  ∧ (∀ u v w, (u, v, w) ∈ edges →
       u ∈ get_vertices g ∧ head (entries (get_neighbors g u) v) = Some w)
  ∧ (∀ u v, u ∈ get_vertices g → edge g u v →
       ∃ x, x ∈ edges ∧ key_of key x = key u v)
  ∧ length edges = size (edge_keys key g (get_vertices g)).
Proof.
  intros Hinj.
  destruct (scan_edges_spec key g Hinj (get_vertices g) [] ∅)
    as (new & -> & Hnd & Hnew & Hset).
  cbn [fst app]. rewrite difference_empty_L in Hset.
  split; [done|]. split.
  { intros u v w Hx. destruct (Hnew _ Hx) as (u' & v' & w' & Heq & ?).
    simplify_eq. tauto. }
  split.
  { intros u v Hu He.
    assert (key u v ∈ list_to_set (C:=gset (Z * Z)) (key_of key <$> new)) as Hk.
    { rewrite Hset. apply edge_keys_elem. by exists u, v. }
    apply elem_of_list_to_set, list_elem_of_fmap in Hk as (x & Hkx & Hx).
    by exists x. }
  rewrite <- Hset, size_list_to_set by done. by rewrite length_fmap.
Qed.
End scan.

(** ** The two stores run these loops *)

Lemma edge_key_inj (directed : bool) u v v' :
  (if directed then (u, v) else (Z.min u v, Z.max u v))
  = (if directed then (u, v') else (Z.min u v', Z.max u v')) → v = v'.
Proof. destruct directed; intros Heq; injection Heq; intros; lia. Qed.

Lemma edge_key_eq (directed : bool) a b u v :
  (if directed then (a, b) else (Z.min a b, Z.max a b))
  = (if directed then (u, v) else (Z.min u v, Z.max u v))
  ↔ touched directed u v a b.
Proof.
  unfold touched. destruct directed.
  - split; [intros [= -> ->]; by left|]. by intros [[= -> ->]|[? _]].
  - split.
    + intros [= Hmin Hmax].
      destruct (decide (a = u)) as [->|]; [left; f_equal; lia|].
      right. split; [done|]. f_equal; lia.
    + intros [[= -> ->]|[_ [= -> ->]]]; f_equal; lia.
Qed.

Lemma od_get_elem {V : Type} (d : list (Z * V)) k v :
  NoDup (OrderedDict.keys d) → (k, v) ∈ d → OrderedDict.get d k = Some v.
Proof.
  unfold OrderedDict.keys.
  induction d as [|[k' v'] d IH]; intros Hnd Hin; [by apply elem_of_nil in Hin|].
  rewrite fmap_cons in Hnd. apply NoDup_cons in Hnd as [Hk' Hnd]. simpl.
  apply elem_of_cons in Hin as [[= <- <-]|Hin]; [by rewrite decide_True|].
  rewrite decide_False; [by apply IH|]. intros ->. apply Hk'.
  apply list_elem_of_fmap. by exists (k, v).
Qed.

Lemma matrix_get_edges_scan (g : AdjacencyMatrix.t) :
  NoDup (AdjacencyMatrix.get_vertices g) →
  AdjacencyMatrix.get_edges g
  = (scan_edges (AdjacencyMatrix.edge_key g) g (get_vertices g) ([], ∅)).1.
Proof.
  intros Hnd. unfold AdjacencyMatrix.get_edges, scan_edges. f_equal.
  assert (∀ u u_idx l acc,
    foldl (λ '(edges, visited_edges) i,
             match AdjacencyMatrix.cell (AdjacencyMatrix.matrix g) u_idx i with
             | Some weight =>
                 let v := AdjacencyMatrix.vertex_at g i in
                 if decide (AdjacencyMatrix.edge_key g u v ∈ visited_edges)
                 then (edges, visited_edges)
                 else (edges ++ [(u, v, weight)],
                       {[AdjacencyMatrix.edge_key g u v]} ∪ visited_edges)
             | None => (edges, visited_edges)
             end) acc l
    = foldl (list_unseen (AdjacencyMatrix.edge_key g) u) acc
        (omap (λ i, (λ w, (AdjacencyMatrix.vertex_at g i, w))
                      <$> AdjacencyMatrix.cell (AdjacencyMatrix.matrix g)
                            u_idx i) l)) as Hinner.
  { intros u u_idx l. induction l as [|i l IH]; intros [E V]; [done|].
    cbn [foldl omap list_omap].
    destruct (AdjacencyMatrix.cell (AdjacencyMatrix.matrix g) u_idx i)
      as [w|]; cbn [fmap option_fmap option_map foldl]; [|apply IH].
    rewrite IH. by f_equal. }
  simpl. unfold AdjacencyMatrix.get_vertices, OrderedDict.keys in *.
  match goal with
  | |- foldl ?F _ _ = foldl ?F' _ _ =>
      assert (∀ vs acc,
                (∀ u ui, (u, ui) ∈ vs →
                   OrderedDict.get (AdjacencyMatrix.vertices g) u = Some ui) →
                foldl F acc vs = foldl F' acc vs.*1) as Houter
  end.
  { intros vs. induction vs as [|[u ui] vs IH]; intros acc Hget; [done|].
    cbn [foldl fmap list_fmap fst].
    rewrite Hinner, matrix_get_neighbors_omap, (Hget u ui) by set_solver.
    apply IH. intros u' ui' Hin. apply Hget. set_solver. }
  apply Houter. intros u ui. by apply od_get_elem.
Qed.

Lemma list_get_edges_scan (g : AdjacencyList.t) :
  NoDup (AdjacencyList.get_vertices g) →
  AdjacencyList.get_edges g
  = (scan_edges (AdjacencyList.edge_key g) g (get_vertices g) ([], ∅)).1.
Proof.
  intros Hnd. unfold AdjacencyList.get_edges, scan_edges. f_equal.
  assert (∀ u l acc,
    foldl (λ '(edges, visited_edges) '(v, weight),
             if decide (AdjacencyList.edge_key g u v ∈ visited_edges)
             then (edges, visited_edges)
             else (edges ++ [(u, v, weight)],
                   {[AdjacencyList.edge_key g u v]} ∪ visited_edges)) acc l
    = foldl (list_unseen (AdjacencyList.edge_key g) u) acc l) as Hinner.
  { intros u l. induction l as [|[v w] l IH]; intros [E V]; [done|].
    cbn [foldl]. rewrite IH. by f_equal. }
  simpl. unfold AdjacencyList.get_vertices, OrderedDict.keys in *.
  match goal with
  | |- foldl ?F _ _ = foldl ?F' _ _ =>
      assert (∀ vs acc,
                (∀ u a, (u, a) ∈ vs →
                   OrderedDict.get (AdjacencyList.graph g) u = Some a) →
                foldl F acc vs = foldl F' acc vs.*1) as Houter
  end.
  { intros vs. induction vs as [|[u a] vs IH]; intros acc Hget; [done|].
    cbn [foldl fmap list_fmap fst].
    rewrite Hinner.
    assert (AdjacencyList.get_neighbors g u = a) as ->.
    { unfold AdjacencyList.get_neighbors. by rewrite (Hget u a) by set_solver. }
    apply IH. intros u' a' Hin. apply Hget. set_solver. }
  apply Houter. intros u a. by apply od_get_elem.
Qed.

Lemma edge_keys_ext {G1 G2 : Type} `{Graph G1} `{Graph G2}
    (key1 key2 : Z → Z → Z * Z) (g1 : G1) (g2 : G2) vs :
  (∀ u v, key1 u v = key2 u v) →
  (∀ u v, edge g1 u v ↔ edge g2 u v) →
  edge_keys key1 g1 vs = edge_keys key2 g2 vs.
Proof.
  intros Hkey Hedge. apply set_eq. intros k. rewrite !edge_keys_elem.
  split; intros (u & v & Hu & He & ->); exists u, v;
    (split; [done|]); (split; [by apply Hedge|]); by rewrite Hkey.
Qed.

Lemma matrix_has_edge_edge (g : AdjacencyMatrix.t) u v :
  matrix_wf g →
  AdjacencyMatrix.has_edge g u v = true
  ↔ u ∈ get_vertices g ∧ edge g u v.
Proof.
  intros Hwf. rewrite matrix_has_edge, bool_decide_eq_true. split.
  - intros [w Hw]. split; [by apply matrix_weight_vertices in Hw as [? _]|].
    apply list_elem_of_fmap. exists (v, w). split; [done|].
    by apply matrix_neighbors_elem.
  - intros [_ ([v' w] & -> & Hin)%list_elem_of_fmap].
    apply matrix_neighbors_elem in Hin; [|done]. by exists w.
Qed.

Lemma list_has_edge_edge (g : AdjacencyList.t) u v :
  AdjacencyList.has_edge g u v = true ↔ u ∈ get_vertices g ∧ edge g u v.
Proof.
  rewrite list_has_edge_entries, bool_decide_eq_true. split.
  - intros Hne. destruct (list_entries g u v) as [|w ws] eqn:E; [done|].
    assert ((v, w) ∈ AdjacencyList.get_neighbors g u) as Hin.
    { apply list_neighbors_elem. rewrite E. set_solver. }
    split.
    + destruct (decide (u ∈ AdjacencyList.get_vertices g)) as [|Hn]; [done|].
      rewrite list_neighbors_adj, list_adj_absent in Hin;
        [by apply elem_of_nil in Hin|].
      rewrite list_contains_vertices. by apply bool_decide_eq_false_2.
    + apply list_elem_of_fmap. by exists (v, w).
  - intros [_ ([v' w] & -> & Hin)%list_elem_of_fmap].
    apply list_neighbors_elem in Hin. simpl. intros E. rewrite E in Hin.
    by apply elem_of_nil in Hin.
Qed.

Lemma matrix_edge_count_keys (g : AdjacencyMatrix.t) :
  NoDup (AdjacencyMatrix.get_vertices g) →
  AdjacencyMatrix.get_edge_count g
  = size (edge_keys (AdjacencyMatrix.edge_key g) g (get_vertices g)).
Proof.
  intros Hnd. unfold AdjacencyMatrix.get_edge_count.
  rewrite matrix_get_edges_scan by done.
  apply scan_edges_result. intros u v v'. apply edge_key_inj.
Qed.

Lemma list_edge_count_keys (g : AdjacencyList.t) :
  NoDup (AdjacencyList.get_vertices g) →
  AdjacencyList.get_edge_count g
  = size (edge_keys (AdjacencyList.edge_key g) g (get_vertices g)).
Proof.
  intros Hnd. unfold AdjacencyList.get_edge_count.
  rewrite list_get_edges_scan by done.
  apply scan_edges_result. intros u v v'. apply edge_key_inj.
Qed.

Lemma related_edge_count m l :
  related m l → NoDup (AdjacencyList.get_vertices l) →
  AdjacencyMatrix.get_edge_count m = AdjacencyList.get_edge_count l.
Proof.
  intros Hrel Hnd.
  rewrite matrix_edge_count_keys, list_edge_count_keys; [|done|].
  - simpl. rewrite (rel_vertices _ _ Hrel). f_equal. apply edge_keys_ext.
    + intros u v. unfold AdjacencyMatrix.edge_key, AdjacencyList.edge_key.
      by rewrite (rel_directed _ _ Hrel).
    + intros u v. by apply related_edges.
  - by rewrite (rel_vertices _ _ Hrel).
Qed.

(** X7: [get_edges] of the matrix store lists no key twice -- a directed
    edge once, an undirected edge in one of its two directions -- each
    listed triple carries the weight [get_weight] reports, and every edge
    is listed. *)
Theorem matrix_get_edges_each_edge_once (directed weighted : bool)
    (ops : list op) :
  let m := matrix_run directed weighted ops in
  NoDup ((λ e, AdjacencyMatrix.edge_key m e.1.1 e.1.2)
           <$> AdjacencyMatrix.get_edges m)
  ∧ (∀ u v w, (u, v, w) ∈ AdjacencyMatrix.get_edges m →
       AdjacencyMatrix.get_weight m u v = Some w)
  ∧ (∀ u v, AdjacencyMatrix.has_edge m u v = true →
       ∃ a b w, (a, b, w) ∈ AdjacencyMatrix.get_edges m
         ∧ ((a, b) = (u, v) ∨ (directed = false ∧ (a, b) = (v, u)))).
Proof.
  intros m. pose proof (matrix_run_wf directed weighted ops) as Hwf.
  pose proof (matrix_run_NoDup directed weighted ops) as Hnd.
  fold m in Hwf, Hnd.
  assert (AdjacencyMatrix.directed m = directed) as Hd
    by apply matrix_run_directed.
  rewrite matrix_get_edges_scan by done.
  destruct (scan_edges_result (AdjacencyMatrix.edge_key m) m)
    as (Hkeys & Hsound & Hcomplete & _).
  { intros u v v'. apply edge_key_inj. }
  split; [done|]. split.
  - intros u v w Hin. destruct (Hsound u v w Hin) as [_ Hh].
    apply head_Some_elem_of, entries_elem in Hh.
    rewrite matrix_get_weight. by apply matrix_neighbors_elem.
  - intros u v [Hu He]%matrix_has_edge_edge; [|done].
    destruct (Hcomplete u v Hu He) as ([[a b] w] & Hin & Hk).
    exists a, b, w. split; [done|].
    unfold key_of, AdjacencyMatrix.edge_key in Hk. simpl in Hk.
    apply edge_key_eq in Hk. by rewrite Hd in Hk.
Qed.

(** X8: the same for the list store, which may hold several entries for a
    pair: the pair is listed once, with the weight of its first entry, the
    one [get_weight] reports. *)
Theorem list_get_edges_each_edge_once (directed weighted : bool)
    (ops : list op) :
  let l := list_run directed weighted ops in
  NoDup ((λ e, AdjacencyList.edge_key l e.1.1 e.1.2)
           <$> AdjacencyList.get_edges l)
  ∧ (∀ u v w, (u, v, w) ∈ AdjacencyList.get_edges l →
       AdjacencyList.get_weight l u v = Some w)
  ∧ (∀ u v, AdjacencyList.has_edge l u v = true →
       ∃ a b w, (a, b, w) ∈ AdjacencyList.get_edges l
         ∧ ((a, b) = (u, v) ∨ (directed = false ∧ (a, b) = (v, u)))).
Proof.
  intros l. pose proof (list_run_NoDup directed weighted ops) as Hnd.
  fold l in Hnd.
  assert (AdjacencyList.directed l = directed) as Hd
    by apply list_run_directed.
  rewrite list_get_edges_scan by done.
  destruct (scan_edges_result (AdjacencyList.edge_key l) l)
    as (Hkeys & Hsound & Hcomplete & _).
  { intros u v v'. apply edge_key_inj. }
  split; [done|]. split.
  - intros u v w Hin. destruct (Hsound u v w Hin) as [_ Hh].
    rewrite list_get_weight_entries. unfold list_entries.
    by rewrite <- list_neighbors_adj.
  - intros u v [Hu He]%list_has_edge_edge.
    destruct (Hcomplete u v Hu He) as ([[a b] w] & Hin & Hk).
    exists a, b, w. split; [done|].
    unfold key_of, AdjacencyList.edge_key in Hk. simpl in Hk.
    apply edge_key_eq in Hk. by rewrite Hd in Hk.
Qed.

(** X9: after the same operations the two stores count the same number of
    edges, although the list store may hold several entries for a pair. *)
Theorem get_edge_count_agrees (directed weighted : bool) (ops : list op) :
  AdjacencyMatrix.get_edge_count (matrix_run directed weighted ops)
  = AdjacencyList.get_edge_count (list_run directed weighted ops).
Proof.
  apply related_edge_count; [apply related_run|apply list_run_NoDup].
Qed.

Lemma list_add_edge_again (l : AdjacencyList.t) u v w :
  NoDup (AdjacencyList.get_vertices l) → closed l → list_sym l →
  AdjacencyList.has_edge l u v = true →
  AdjacencyList.get_edge_count (AdjacencyList.add_edge l u v w)
  = AdjacencyList.get_edge_count l.
Proof.
  intros Hnd Hc Hsym Hhas.
  pose proof Hhas as [Hu He]%list_has_edge_edge.
  pose proof (Hc u v He) as Hv.
  assert (AdjacencyList.get_vertices (AdjacencyList.add_edge l u v w)
          = AdjacencyList.get_vertices l) as Hvs.
  { assert (∀ x, x ∈ AdjacencyList.get_vertices l →
              AdjacencyList.add_vertex l x = l) as Hadd.
    { intros x Hx. unfold AdjacencyList.add_vertex.
      by rewrite list_contains_vertices, bool_decide_eq_true_2. }
    by rewrite list_vertices_add_edge, !Hadd. }
  rewrite !list_edge_count_keys; [|done|by rewrite Hvs].
  simpl. rewrite Hvs. f_equal. apply edge_keys_ext.
  - intros a b. unfold AdjacencyList.edge_key.
    change (AdjacencyList.add_edge l u v w) with (list_step l (AddEdge u v w)).
    by rewrite list_step_directed.
  - intros a b.
    assert (∀ g : AdjacencyList.t,
              edge g a b ↔ list_entries g a b ≠ []) as Hedge.
    { intros g. unfold edge, neighbors. rewrite list_elem_of_fmap. split.
      - intros ([b' x] & -> & Hin). apply list_neighbors_elem in Hin.
        simpl. intros E. rewrite E in Hin. by apply elem_of_nil in Hin.
      - intros Hne. destruct (list_entries g a b) as [|x xs] eqn:E; [done|].
        exists (b, x). split; [done|]. apply list_neighbors_elem.
        rewrite E. set_solver. }
    rewrite !Hedge, list_entries_add_edge. split.
    + intros Hne E. destruct (list_entries l a b) eqn:El; [|done].
      simpl in Hne.
      assert (touched (AdjacencyList.directed l) u v a b) as [[= -> ->]|[Hd [= -> ->]]].
      { destruct (added _ u v w a b) as [|x xs] eqn:Ea; [done|].
        destruct (added_elem (AdjacencyList.directed l) u v w a b x)
          as [_ ?]; [rewrite Ea; set_solver|done]. }
      * rewrite list_has_edge_entries, El in Hhas.
        by apply bool_decide_eq_true in Hhas.
      * rewrite list_has_edge_entries, (Hsym Hd), El in Hhas.
        by apply bool_decide_eq_true in Hhas.
    + intros Hne. by destruct (list_entries l a b).
Qed.

(** X10: adding an edge between two vertices that already have one leaves
    [get_edge_count] of either store as it was. *)
Theorem add_edge_again_keeps_count (directed weighted : bool) (ops : list op)
    (u v : Z) (w : float) :
  let m := matrix_run directed weighted ops in
  let l := list_run directed weighted ops in
  AdjacencyList.has_edge l u v = true →
  AdjacencyList.get_edge_count (AdjacencyList.add_edge l u v w)
  = AdjacencyList.get_edge_count l
  ∧ AdjacencyMatrix.get_edge_count (AdjacencyMatrix.add_edge m u v w)
    = AdjacencyMatrix.get_edge_count m.
Proof.
  intros m l Hhas.
  assert (AdjacencyList.get_edge_count (AdjacencyList.add_edge l u v w)
          = AdjacencyList.get_edge_count l) as Hl.
  { apply list_add_edge_again; [apply list_run_NoDup|apply list_run_closed
                               |apply list_run_sym|done]. }
  split; [done|].
  unfold m. rewrite (related_edge_count _ _ (related_run directed weighted ops))
    by apply list_run_NoDup.
  fold l. rewrite <- Hl.
  change (AdjacencyMatrix.add_edge (matrix_run directed weighted ops) u v w)
    with (matrix_step (matrix_run directed weighted ops) (AddEdge u v w)).
  change (AdjacencyList.add_edge l u v w) with (list_step l (AddEdge u v w)).
  unfold l. rewrite <- matrix_run_snoc, <- list_run_snoc.
  apply related_edge_count; [apply related_run|apply list_run_NoDup].
Qed.

Lemma add_edge_again_keeps_count_witness :
  AdjacencyList.has_edge (list_run false true [AddEdge 1 2 3%float]) 1 2 = true
  ∧ AdjacencyList.get_edge_count
      (AdjacencyList.add_edge (list_run false true [AddEdge 1 2 3%float])
         1 2 7%float)
    = AdjacencyList.get_edge_count (list_run false true [AddEdge 1 2 3%float])
  ∧ AdjacencyMatrix.get_edge_count
      (AdjacencyMatrix.add_edge (matrix_run false true [AddEdge 1 2 3%float])
         1 2 7%float)
    = AdjacencyMatrix.get_edge_count
        (matrix_run false true [AddEdge 1 2 3%float]).
Proof.
  split; [reflexivity|].
  apply (add_edge_again_keeps_count false true [AddEdge 1 2 3%float] 1 2).
  reflexivity.
Defined.
(** * Further properties of the traversals *)

(** ** Breadth-first search *)

Lemma bfs_result_inv {G : Type} `{Graph G} (g : G) (start : Z) (fuel : nat)
    distances parents :
  GraphTraversal.bfs fuel g start = Return (distances, parents) →
  ∃ st, distances = GraphTraversal.distances st
    ∧ parents = GraphTraversal.parents st
    ∧ bfs_inv g start st ∧ GraphTraversal.queue st = [].
Proof.
  intros Hr.
  pose proof (bfs_loop_correct g start fuel _ (bfs_inv_init g start)) as Hcor.
  fold (GraphTraversal.bfs fuel g start) in Hcor. rewrite Hr in Hcor.
  destruct Hcor as (st & -> & -> & Hinv & Hq & _). by exists st.
Qed.

Lemma bfs_returns_same {G : Type} `{Graph G} (g : G) (start : Z) :
  closed g →
  ∃ distances parents, ∀ fuel,
    (length (get_vertices g) + 1 ≤ fuel)%nat →
    GraphTraversal.bfs fuel g start = Return (distances, parents).
Proof.
  intros Hc.
  destruct (bfs_returns g start (length (get_vertices g) + 1) Hc ltac:(done))
    as (st & Hr & _).
  eexists _, _. intros fuel Hfuel.
  replace fuel
    with ((length (get_vertices g) + 1)
          + (fuel - (length (get_vertices g) + 1)))%nat by lia.
  unfold GraphTraversal.bfs in *. rewrite bfs_loop_mono; [exact Hr|].
  by rewrite Hr.
Qed.

(** X11: the distance [bfs] records for a vertex is the number of edges of
    a shortest walk from [start] to it: a walk of that length exists and no
    walk is shorter; the distance of [start] is 0.  On a graph whose
    neighbours are vertices [bfs] returns such a result within one
    iteration per vertex (plus one). *)
Theorem bfs_distances_are_shortest {G : Type} `{Graph G} (g : G) (start : Z) :
  (∀ fuel distances parents,
     GraphTraversal.bfs fuel g start = Return (distances, parents) →
     distances !! start = Some 0
     ∧ ∀ v d, distances !! v = Some d →
         ∃ n : nat, d = Z.of_nat n ∧ walk g start n v
           ∧ ∀ k, walk g start k v → (n ≤ k)%nat)
  ∧ (closed g →
     ∃ distances parents, ∀ fuel,
       (length (get_vertices g) + 1 ≤ fuel)%nat →
       GraphTraversal.bfs fuel g start = Return (distances, parents)).
Proof.
  split; [|apply bfs_returns_same].
  intros fuel distances parents (st & -> & -> & Hinv & Hq)%bfs_result_inv.
  split; [apply Hinv|]. intros v d Hd.
  destruct (inv_walk _ _ _ Hinv _ _ Hd) as (n & -> & Hw & _).
  exists n. split; [done|]. split; [done|]. intros k Hk.
  pose proof (bfs_final_shortest g start st Hinv Hq v _ k Hd Hk). lia.
Qed.

Lemma bfs_distances_are_shortest_witness :
  (∃ distances parents,
     GraphTraversal.bfs 6 (list_run false false reference_edges) 1
     = Return (distances, parents)
     ∧ distances !! 1 = Some 0
     ∧ ∀ v d, distances !! v = Some d →
         ∃ n : nat, d = Z.of_nat n
           ∧ walk (list_run false false reference_edges) 1 n v
           ∧ ∀ k, walk (list_run false false reference_edges) 1 k v →
               (n ≤ k)%nat)
  ∧ closed (list_run false false reference_edges)
  ∧ ∃ distances parents, ∀ fuel,
      (length (get_vertices (list_run false false reference_edges)) + 1
       ≤ fuel)%nat →
      GraphTraversal.bfs fuel (list_run false false reference_edges) 1
      = Return (distances, parents).
Proof.
  destruct (bfs_distances_are_shortest
              (list_run false false reference_edges) 1) as [Hres Hret].
  split.
  - eexists _, _. split; [vm_compute; reflexivity|].
    eapply (Hres 6%nat). vm_compute. reflexivity.
  - split; [apply list_run_closed|]. apply Hret, list_run_closed.
Defined.

(** X12: the parents [bfs] records form a tree rooted at [start]: [start]
    has no parent, and every other recorded vertex has one, which is a
    recorded vertex with an edge to it and a distance smaller by one.  On a
    graph whose neighbours are vertices [bfs] returns such a result within
    one iteration per vertex (plus one). *)
Theorem bfs_parents_form_tree {G : Type} `{Graph G} (g : G) (start : Z) :
  (∀ fuel distances parents,
     GraphTraversal.bfs fuel g start = Return (distances, parents) →
     parents !! start = Some None
     ∧ ∀ v, is_Some (parents !! v) → v ≠ start →
         ∃ p d, parents !! v = Some (Some p) ∧ edge g p v
           ∧ distances !! p = Some d ∧ distances !! v = Some (d + 1))
  ∧ (closed g →
     ∃ distances parents, ∀ fuel,
       (length (get_vertices g) + 1 ≤ fuel)%nat →
       GraphTraversal.bfs fuel g start = Return (distances, parents)).
Proof.
  split; [|apply bfs_returns_same].
  intros fuel distances parents (st & -> & -> & Hinv & Hq)%bfs_result_inv.
  split; [apply Hinv|]. intros v Hv Hne.
  apply elem_of_dom in Hv. rewrite (inv_dom_p _ _ _ Hinv) in Hv.
  destruct (inv_parent _ _ _ Hinv v Hv Hne) as (p & d & Hp & Hdp & Hdv & He).
  by exists p, d.
Qed.

Lemma bfs_parents_form_tree_witness :
  (∃ distances parents,
     GraphTraversal.bfs 6 (list_run false false reference_edges) 1
     = Return (distances, parents)
     ∧ parents !! 1 = Some None
     ∧ ∀ v, is_Some (parents !! v) → v ≠ 1 →
         ∃ p d, parents !! v = Some (Some p)
           ∧ edge (list_run false false reference_edges) p v
           ∧ distances !! p = Some d ∧ distances !! v = Some (d + 1))
  ∧ closed (list_run false false reference_edges)
  ∧ ∃ distances parents, ∀ fuel,
      (length (get_vertices (list_run false false reference_edges)) + 1
       ≤ fuel)%nat →
      GraphTraversal.bfs fuel (list_run false false reference_edges) 1
      = Return (distances, parents).
Proof.
  destruct (bfs_parents_form_tree
              (list_run false false reference_edges) 1) as [Hres Hret].
  split.
  - eexists _, _. split; [vm_compute; reflexivity|].
    eapply (Hres 6%nat). vm_compute. reflexivity.
  - split; [apply list_run_closed|]. apply Hret, list_run_closed.
Defined.
(** ** Depth-first search *)

Section dfs_reachable.
Context {G : Type} `{Graph G}.
Implicit Types (g : G) (visited : gset Z).

Lemma reversed_neighbors g v :
  neighbors (Reversed g) v = reverse (neighbors g v).
Proof. unfold neighbors. simpl. by rewrite fmap_reverse. Qed.

Lemma reversed_edge g a b : edge (Reversed g) a b ↔ edge g a b.
Proof. unfold edge. rewrite reversed_neighbors. apply elem_of_reverse. Qed.

Lemma reversed_closed g : closed g → closed (Reversed g).
Proof.
  intros Hc u v He. apply (proj1 (reversed_edge g u v)) in He.
  exact (Hc u v He).
Qed.

(** the loop of [dfs_iterative_from_vertex] is the loop of [_dfs_component]
    on the reversed neighbour lists *)
Lemma dfs_from_vertex_loop_reversed fuel g stack visited component :
  GraphTraversal.dfs_from_vertex_loop fuel g stack visited component
  = Connectivity.dfs_component_loop fuel (Reversed g) stack visited component.
Proof.
  revert stack visited component.
  induction fuel as [|fuel IH]; intros stack visited component;
    destruct stack as [|c stack]; simpl; try done.
  destruct (decide (c ∈ visited)); [apply IH|].
  rewrite IH. by rewrite reversed_neighbors.
Qed.

(** [dfs_iterative] runs the same loop and keeps the list *)
Lemma dfs_iterative_loop_from_vertex fuel g stack visited result :
  GraphTraversal.dfs_iterative_loop fuel g stack visited result
  = '(component, _) ←
      GraphTraversal.dfs_from_vertex_loop fuel g stack visited result;
    Return component.
Proof.
  revert stack visited result.
  induction fuel as [|fuel IH]; intros stack visited result;
    destruct stack as [|c stack]; simpl; try done.
  destruct (decide (c ∈ visited)); apply IH.
Qed.

Lemma dfs_component_loop_prefix fuel g stack visited component c' v' :
  Connectivity.dfs_component_loop fuel g stack visited component
  = Return (c', v') →
  component `prefix_of` c'.
Proof.
  revert stack visited component.
  induction fuel as [|fuel IH]; intros stack visited component;
    destruct stack as [|c stack]; simpl; try done.
  - by intros [= -> _].
  - by intros [= -> _].
  - destruct (decide (c ∈ visited)); [apply IH|].
    intros Hr%IH. etrans; [|done]. by apply prefix_app_r.
Qed.

Lemma reach_avoid_empty g s v : reach_avoid g ∅ s v ↔ reachable g s v.
Proof.
  split.
  - induction 1 as [|v w _ [n Hn] He _]; [exists O; constructor|].
    exists (S n). by econstructor.
  - intros [n Hw]. induction Hw as [|n v w _ IH He].
    + by apply ra_refl.
    + by eapply ra_step.
Qed.

Lemma for_each_ext {S A : Type} (f f' : S → A → outcome S) (l : list A) s :
  (∀ s x, f s x = f' s x) → for_each f l s = for_each f' l s.
Proof.
  intros Hf. revert s. induction l as [|x l IH]; intros s; simpl; [done|].
  rewrite Hf. destruct (f' s x); simpl; [apply IH|done..].
Qed.

(** [dfs_all_components] is [find_connected_components] on the reversed
    neighbour lists: the test [start in visited] of
    [dfs_iterative_from_vertex] never succeeds there *)
Lemma dfs_all_components_reversed fuel g :
  GraphTraversal.dfs_all_components fuel g
  = Connectivity.find_connected_components fuel (Reversed g).
Proof.
  unfold GraphTraversal.dfs_all_components,
    Connectivity.find_connected_components.
  f_equal. simpl. apply for_each_ext. intros [components visited] vertex.
  destruct (decide (vertex ∈ visited)) as [Hv|Hv]; [done|].
  unfold GraphTraversal.dfs_iterative_from_vertex, Connectivity._dfs_component.
  rewrite decide_False by done. by rewrite dfs_from_vertex_loop_reversed.
Qed.
End dfs_reachable.

(** X13: on a graph whose neighbours are vertices both depth-first
    searches return, given enough call depth and iterations, a list that
    begins with [start] and holds, once each, exactly the vertices that can
    be reached from [start]. *)
Theorem dfs_visits_reachable_once {G : Type} `{Graph G} (g : G) (start : Z) :
  closed g →
  ∃ k order visited,
    (∀ n, (k ≤ n)%nat →
       GraphTraversal.dfs_recursive n g start ∅ = Return (order, visited)
       ∧ GraphTraversal.dfs_iterative n g start = Return order)
    ∧ head order = Some start
    ∧ NoDup order
    ∧ ∀ v, v ∈ order ↔ reachable g start v.
Proof.
  intros Hc. destruct (dfs_spec g start Hc) as (k1 & order & visited & Hboth).
  destruct (dfs_component_loop_spec (Reversed g) (universe g start)) with
    (n := size (universe g start ∖ (∅ : gset Z)))
    (visited := (∅ : gset Z)) (stack := [start]) (component := @nil Z)
    as (k2 & new & Hr & Hnd & Hnew).
  { intros a b He. apply (proj1 (reversed_edge g a b)) in He.
    by apply (closed_universe g start a b). }
  { done. }
  { unfold universe. set_solver. }
  rewrite app_nil_l in Hr. rewrite <- dfs_from_vertex_loop_reversed in Hr.
  assert (order = new) as ->.
  { destruct (Hboth (k1 `max` k2)%nat ltac:(lia)) as [_ Hit].
    unfold GraphTraversal.dfs_iterative in Hit.
    rewrite dfs_iterative_loop_from_vertex in Hit.
    assert (GraphTraversal.dfs_from_vertex_loop (k1 `max` k2) g [start] ∅ []
            = Return (new, ∅ ∪ list_to_set new)) as Hr'.
    { rewrite dfs_from_vertex_loop_reversed in Hr |- *.
      replace (k1 `max` k2)%nat with (k2 + (k1 `max` k2 - k2))%nat by lia.
      rewrite dfs_component_loop_mono; [done|]. by rewrite Hr. }
    rewrite Hr' in Hit. simpl in Hit. congruence. }
  exists k1, new, visited. split; [done|]. split.
  { rewrite dfs_from_vertex_loop_reversed in Hr.
    destruct k2 as [|k2]; [done|]. simpl in Hr.
    rewrite decide_False in Hr by set_solver.
    apply dfs_component_loop_prefix in Hr as [rest ->]. done. }
  split; [done|]. intros v. rewrite Hnew. split.
  - intros (s & ->%list_elem_of_singleton & Hra).
    apply reach_avoid_empty.
    apply (reach_avoid_same_edges (Reversed g) g); [|done].
    intros a b. apply reversed_edge.
  - intros Hv%reach_avoid_empty. exists start. split; [set_solver|].
    apply (reach_avoid_same_edges g (Reversed g)); [|done].
    intros a b. apply reversed_edge.
Qed.

Lemma dfs_visits_reachable_once_witness :
  closed (list_run false false reference_edges)
  ∧ ∃ k order visited,
      (∀ n, (k ≤ n)%nat →
         GraphTraversal.dfs_recursive n (list_run false false reference_edges)
           1 ∅ = Return (order, visited)
         ∧ GraphTraversal.dfs_iterative n
             (list_run false false reference_edges) 1 = Return order)
      ∧ head order = Some 1
      ∧ NoDup order
      ∧ ∀ v, v ∈ order ↔ reachable (list_run false false reference_edges) 1 v.
Proof.
  split; [apply list_run_closed|].
  apply (dfs_visits_reachable_once (list_run false false reference_edges) 1).
  apply list_run_closed.
Defined.

(** X14: [dfs_iterative_from_vertex] on an empty [visited] set returns the
    list [dfs_iterative] returns, with the same budget; on a vertex of its
    [visited] set it returns the empty list and leaves the set. *)
Theorem dfs_from_vertex_is_dfs_iterative {G : Type} `{Graph G} (g : G)
    (start : Z) (fuel : nat) :
  GraphTraversal.dfs_iterative fuel g start
  = ('(component, _) ←
       GraphTraversal.dfs_iterative_from_vertex fuel g start ∅;
     Return component)
  ∧ ∀ visited, start ∈ visited →
      GraphTraversal.dfs_iterative_from_vertex fuel g start visited
      = Return ([], visited).
Proof.
  split.
  - unfold GraphTraversal.dfs_iterative,
      GraphTraversal.dfs_iterative_from_vertex.
    rewrite decide_False by set_solver. apply dfs_iterative_loop_from_vertex.
  - intros visited Hv. unfold GraphTraversal.dfs_iterative_from_vertex.
    by rewrite decide_True.
Qed.

(** X15: on a graph whose neighbours are vertices [dfs_all_components]
    returns, given enough iterations, components that together hold every
    vertex exactly once; they are, one by one, the components
    [find_connected_components] returns, up to the order inside a
    component. *)
Theorem dfs_all_components_partition {G : Type} `{Graph G} (g : G) :
  closed g →
  ∃ k components components',
    (∀ n, (k ≤ n)%nat →
       GraphTraversal.dfs_all_components n g = Return components
       ∧ Connectivity.find_connected_components n g = Return components')
    ∧ NoDup (concat components)
    ∧ (∀ v, v ∈ concat components ↔ v ∈ get_vertices g)
    ∧ Forall2 (λ c c', c ≡ₚ c') components components'.
Proof.
  intros Hc.
  destruct (find_connected_components_returns (Reversed g)
              (reversed_closed g Hc)) as (k1 & cs & X1 & Hcf1 & Hr1).
  destruct (find_connected_components_returns g Hc)
    as (k2 & cs' & X2 & Hcf2 & Hr2).
  simpl in Hcf1.
  exists (k1 `max` k2)%nat, cs, cs'. split.
  { intros n Hn. rewrite dfs_all_components_reversed.
    split; [apply Hr1|apply Hr2]; lia. }
  pose proof (comps_from_NoDup _ _ _ _ _ Hcf1) as [Hnd _].
  split; [done|]. split.
  { intros v. split.
    - apply (comps_from_vertices (Reversed g) _ _ _ _
               (reversed_closed g Hc) ltac:(done) Hcf1).
    - intros Hv. pose proof (comps_from_cover _ _ _ _ _ Hcf1 v Hv) as Hin.
      rewrite (comps_from_visited _ _ _ _ _ Hcf1) in Hin. set_solver. }
  destruct (comps_from_same_edges (Reversed g) g _ _ _ _ _ _
              (reversed_edge g) Hcf1 Hcf2) as [_ HF].
  assert (Forall (λ c, NoDup c) cs) as Hnd1.
  { clear -Hcf1. induction Hcf1; [constructor|done|by constructor]. }
  assert (Forall (λ c, NoDup c) cs') as Hnd2.
  { clear -Hcf2. induction Hcf2; [constructor|done|by constructor]. }
  clear -HF Hnd1 Hnd2.
  induction HF as [|c c' cs cs' Hcc HF IH]; [constructor|].
  apply Forall_cons in Hnd1 as [? ?]. apply Forall_cons in Hnd2 as [? ?].
  constructor; [|by apply IH]. by apply NoDup_Permutation.
Qed.

Lemma dfs_all_components_partition_witness :
  closed (list_run false false reference_edges)
  ∧ ∃ k components components',
      (∀ n, (k ≤ n)%nat →
         GraphTraversal.dfs_all_components n
           (list_run false false reference_edges) = Return components
         ∧ Connectivity.find_connected_components n
             (list_run false false reference_edges) = Return components')
      ∧ NoDup (concat components)
      ∧ (∀ v, v ∈ concat components
              ↔ v ∈ get_vertices (list_run false false reference_edges))
      ∧ Forall2 (λ c c', c ≡ₚ c') components components'.
Proof.
  split; [apply list_run_closed|].
  apply (dfs_all_components_partition (list_run false false reference_edges)).
  apply list_run_closed.
Defined.
(** ** Components of a graph with symmetric edges *)

Section classes.
Context {G : Type} `{Graph G}.
Implicit Types (g : G) (X : gset Z).

Lemma reachable_refl g s : reachable g s s.
Proof. exists O. constructor. Qed.

Lemma reachable_step g s v w : reachable g s v → edge g v w → reachable g s w.
Proof. intros [n Hn] He. exists (S n). by econstructor. Qed.

Lemma reachable_trans g s v w :
  reachable g s v → reachable g v w → reachable g s w.
Proof.
  intros Hsv [m Hm]. induction Hm as [|m w x _ IH He]; [done|].
  by eapply reachable_step.
Qed.

Lemma reachable_sym g s v :
  (∀ a b, edge g a b → edge g b a) → reachable g s v → reachable g v s.
Proof.
  intros Hsym [n Hn]. induction Hn as [|n v w _ IH He].
  - apply reachable_refl.
  - eapply reachable_trans; [|done].
    eapply reachable_step; [apply reachable_refl|by apply Hsym].
Qed.

Lemma reach_avoid_reachable g X s v : reach_avoid g X s v → reachable g s v.
Proof.
  induction 1 as [|v w _ IH He _]; [apply reachable_refl|].
  by eapply reachable_step.
Qed.

(** no edge leaves a set of visited vertices that no edge enters *)
Lemma reachable_reach_avoid g X s v :
  (∀ a b, edge g a b → b ∈ X → a ∈ X) →
  s ∉ X → reachable g s v → reach_avoid g X s v.
Proof.
  intros HX Hs [n Hn]. induction Hn as [|n v w _ IH He].
  - by apply ra_refl.
  - eapply ra_step; [done..|]. intros Hw.
    apply reach_avoid_target in IH. apply IH. by eapply HX.
Qed.

Lemma comps_from_classes g vs X cs X' :
  (∀ a b, edge g a b → edge g b a) →
  (∀ a b, edge g a b → b ∈ X → a ∈ X) →
  comps_from g vs X cs X' →
  Forall (λ c, c ≠ [] ∧ ∀ x y, x ∈ c → (y ∈ c ↔ reachable g x y)) cs.
Proof.
  intros Hsym HX Hcf.
  induction Hcf as [X|v vs X cs X' Hv _ IH|v vs X c cs X' Hv Hnd Hx _ IH].
  - constructor.
  - by apply IH.
  - assert (∀ x, x ∈ c ↔ reachable g v x) as Hc.
    { intros x. rewrite Hx. split; [apply reach_avoid_reachable|].
      by apply reachable_reach_avoid. }
    constructor.
    + split.
      * intros ->. by apply (elem_of_nil v), Hc, reachable_refl.
      * intros x y Hxc%Hc. rewrite Hc. split.
        -- intros Hy. eapply reachable_trans; [|done]. by apply reachable_sym.
        -- intros Hxy. by eapply reachable_trans.
    + apply IH. intros a b He [Hb|Hb%elem_of_list_to_set%Hc]%elem_of_union.
      * apply elem_of_union_l. by eapply HX.
      * apply elem_of_union_r, elem_of_list_to_set, Hc.
        eapply reachable_step; [done|]. by apply Hsym.
Qed.
End classes.

(** the edges of an undirected store are symmetric *)
Lemma list_run_symmetric weighted ops a b :
  edge (list_run false weighted ops) a b →
  edge (list_run false weighted ops) b a.
Proof.
  pose proof (list_run_sym false weighted ops) as Hsym.
  pose proof (list_run_directed false weighted ops) as Hd.
  specialize (Hsym Hd).
  intros ([b' w] & -> & Hin)%list_elem_of_fmap. simpl.
  apply list_neighbors_elem in Hin. simpl in Hin. rewrite Hsym in Hin.
  apply list_elem_of_fmap. exists (a, w). split; [done|].
  by apply list_neighbors_elem.
Qed.

(** X16: on a graph whose edges go both ways -- every undirected store is
    one -- the components [find_connected_components] returns are the
    classes of mutual reachability: no component is empty, and a component
    holds, with any of its vertices, exactly the vertices reachable from
    it. *)
Theorem components_are_reachability_classes {G : Type} `{Graph G} (g : G) :
  closed g → (∀ a b, edge g a b → edge g b a) →
  ∃ k components,
    (∀ n, (k ≤ n)%nat →
       Connectivity.find_connected_components n g = Return components)
    ∧ ∀ c, c ∈ components →
        c ≠ [] ∧ ∀ x y, x ∈ c → (y ∈ c ↔ reachable g x y).
Proof.
  intros Hc Hsym.
  destruct (find_connected_components_returns g Hc) as (k & cs & X' & Hcf & Hr).
  exists k, cs. split; [done|].
  apply Forall_forall. eapply comps_from_classes; [done| |done]. set_solver.
Qed.

Lemma components_are_reachability_classes_witness :
  closed (list_run false false reference_edges)
  ∧ (∀ a b, edge (list_run false false reference_edges) a b →
            edge (list_run false false reference_edges) b a)
  ∧ ∃ k components,
      (∀ n, (k ≤ n)%nat →
         Connectivity.find_connected_components n
           (list_run false false reference_edges) = Return components)
      ∧ ∀ c, c ∈ components →
          c ≠ [] ∧ ∀ x y, x ∈ c →
            (y ∈ c ↔ reachable (list_run false false reference_edges) x y).
Proof.
  split; [apply list_run_closed|]. split; [apply list_run_symmetric|].
  apply (components_are_reachability_classes
           (list_run false false reference_edges)).
  - apply list_run_closed.
  - apply list_run_symmetric.
Defined.
(** * Further properties of [dijkstra] and [dijkstra_path] *)

Section dijkstra_parents.
Context {G : Type} `{Graph G}.
Implicit Types (g : G) (st : ShortestPath.dijkstra_state) (visited : gset Z).
Import ShortestPath.

Lemma lookup_foldl_insert {A} (x : A) (l : list Z) (m : gmap Z A) v :
  foldl (λ d v, <[v := x]> d) m l !! v
  = if decide (v ∈ l) then Some x else m !! v.
Proof.
  revert m. induction l as [|u l IH]; intros m; simpl; [done|].
  rewrite IH. destruct (decide (v ∈ l)) as [Hv|Hv].
  - by rewrite decide_True by set_solver.
  - destruct (decide (u = v)) as [->|Hne].
    + rewrite lookup_insert_eq. by rewrite decide_True by set_solver.
    + rewrite lookup_insert_ne by done. by rewrite decide_False by set_solver.
Qed.

Lemma initial_parents_lookup g v :
  initial_parents g !! v
  = if decide (v ∈ get_vertices g) then Some None else None.
Proof. unfold initial_parents. by rewrite lookup_foldl_insert. Qed.

Lemma initial_distances_lookup g start v :
  initial_distances g start !! v
  = if decide (v = start) then Some 0%float
    else if decide (v ∈ get_vertices g) then Some infinity else None.
Proof.
  unfold initial_distances. destruct (decide (v = start)) as [->|Hne].
  - by rewrite lookup_insert_eq.
  - rewrite lookup_insert_ne by done. by rewrite lookup_foldl_insert.
Qed.

Lemma parent_chain_ext parents parents' start v path :
  parent_chain parents start v path →
  (∀ x, x ∈ path → parents' !! x = parents !! x) →
  parent_chain parents' start v path.
Proof.
  induction 1 as [|v p path Hp _ IH]; intros Hext; [constructor|].
  apply chain_step with p.
  - rewrite Hext; [done|]. set_solver.
  - apply IH. intros x Hx. apply Hext. set_solver.
Qed.

Lemma parent_chain_ends parents start v path :
  parent_chain parents start v path →
  head path = Some start ∧ last path = Some v.
Proof.
  induction 1 as [|v p path Hp _ [IHh IHl]]; [done|].
  split; [|by rewrite last_snoc].
  destruct path; [done|]. done.
Qed.

(** [dijkstra_path] walks a chain of parents back to [start], where it
    stops on the entry [None] and raises on a missing entry *)
Lemma walk_back_parent_chain parents start v path fuel acc :
  parent_chain parents start v path → (length path ≤ fuel)%nat →
  GraphTraversal.walk_back fuel parents (Some v) acc
  = match parents !! start with
    | Some None => Return (acc ++ reverse path)
    | Some (Some p) =>
        GraphTraversal.walk_back (fuel - length path) parents (Some p)
          (acc ++ reverse path)
    | None => Raise KeyError
    end.
Proof.
  intros Hc. revert fuel acc.
  induction Hc as [|v p path Hp _ IH]; intros fuel acc Hfuel.
  - destruct fuel as [|fuel]; [simpl in Hfuel; lia|]. simpl.
    destruct (parents !! start) as [[p|]|]; [|by destruct fuel|done].
    by rewrite Nat.sub_0_r.
  - rewrite length_app in Hfuel. simpl in Hfuel.
    destruct fuel as [|fuel]; [lia|]. simpl. rewrite Hp.
    rewrite IH by lia. rewrite reverse_app, length_app. simpl.
    rewrite <- app_assoc. simpl.
    replace (fuel - length path)%nat
      with (S fuel - (length path + 1))%nat by lia.
    done.
Qed.

(** one relaxation keeps the invariant *)
Lemma relax_inv g start visited current_dist current st e :
  dijkstra_inv g start st visited → current ∈ visited →
  e.1 ∈ neighbors g current →
  match relax visited current_dist current st e with
  | Return st' => dijkstra_inv g start st' visited
  | _ => True
  end.
Proof.
  intros Hinv Hcur He. destruct e as [n w]. simpl in He. unfold relax.
  destruct (decide (n ∈ visited)) as [Hn|Hn]; [done|].
  destruct (distances st !! n) as [d|] eqn:Hd; [|done].
  destruct (PrimFloat.ltb _ d); [|done].
  assert (n ≠ start) as Hns.
  { intros ->. apply Hn, Hinv. }
  constructor; simpl.
  - apply Hinv.
  - rewrite lookup_insert_ne by done. apply Hinv.
  - rewrite lookup_insert_ne by done. apply Hinv.
  - intros v Hv. destruct (dj_chain _ _ _ _ Hinv v Hv)
      as (path & Hc & Hp & Hnd & Hvis).
    exists path. split; [|done].
    apply (parent_chain_ext _ _ _ _ _ Hc). intros x Hx.
    rewrite lookup_insert_ne; [done|]. intros ->. by apply Hn, Hvis.
  - intros v p. destruct (decide (n = v)) as [->|Hne].
    + rewrite lookup_insert_eq. by intros [= <-].
    + rewrite lookup_insert_ne by done. apply Hinv.
  - intros v p. destruct (decide (n = v)) as [->|Hne].
    + intros _. right. eexists. apply heappush_elem. by left.
    + rewrite lookup_insert_ne by done.
      intros [?|[d' Hq]]%(dj_queued _ _ _ _ Hinv); [by left|].
      right. exists d'. apply heappush_elem. by right.
  - intros d' v [[= -> ->]|Hq]%heappush_elem.
    + right. exists current. by rewrite lookup_insert_eq.
    + destruct (decide (n = v)) as [->|Hne].
      * right. exists current. by rewrite lookup_insert_eq.
      * rewrite lookup_insert_ne by done. by eapply (dj_queue _ _ _ _ Hinv).
  - intros v Hv Hnp. destruct (decide (n = v)) as [->|Hne].
    + exfalso. apply (Hnp current). by rewrite lookup_insert_eq.
    + rewrite !lookup_insert_ne by done.
      apply (dj_untouched _ _ _ _ Hinv); [done|].
      intros p Hp. apply (Hnp p). by rewrite lookup_insert_ne.
Qed.

Lemma relax_fold_inv g start visited current_dist current nbrs st :
  dijkstra_inv g start st visited → current ∈ visited →
  (∀ e, e ∈ nbrs → e.1 ∈ neighbors g current) →
  match for_each (relax visited current_dist current) nbrs st with
  | Return st' => dijkstra_inv g start st' visited
  | _ => True
  end.
Proof.
  revert st. induction nbrs as [|e nbrs IH]; intros st Hinv Hcur Hn; [done|].
  cbn [for_each].
  pose proof (relax_inv g start visited current_dist current st e Hinv Hcur
                ltac:(apply Hn; set_solver)) as Hstep.
  destruct (relax visited current_dist current st e) as [st1| |]; [|done..].
  simpl. apply IH; [done..|]. intros e' He'. apply Hn. set_solver.
Qed.

(** visiting the vertex on top of the queue keeps the invariant *)
Lemma visit_inv g start st visited current_dist current rest :
  dijkstra_inv g start st visited →
  pq st = (current_dist, current) :: rest → current ∉ visited →
  dijkstra_inv g start
    {| distances := distances st; parents := parents st; pq := rest |}
    ({[current]} ∪ visited).
Proof.
  intros Hinv Hq Hcur. constructor; simpl.
  - apply elem_of_union_r, Hinv.
  - apply Hinv.
  - apply Hinv.
  - intros v [->%elem_of_singleton|Hv]%elem_of_union.
    + destruct (dj_queue _ _ _ _ Hinv current_dist current) as [?|[p Hp]];
        [rewrite Hq; set_solver|done|].
      destruct (dj_parent _ _ _ _ Hinv current p Hp) as (Hpv & He & _).
      destruct (dj_chain _ _ _ _ Hinv p Hpv) as (path & Hc & Hpath & Hnd & Hvis).
      exists (path ++ [current]). split; [by apply chain_step with p|]. split.
      { apply is_path_snoc; [done|]. intros x Hx.
        apply parent_chain_ends in Hc as [_ Hl]. congruence. }
      split.
      { apply NoDup_app. split; [done|]. split; [|apply NoDup_singleton].
        intros x Hx ->%list_elem_of_singleton. by apply Hcur, Hvis. }
      intros x [Hx | ->%list_elem_of_singleton]%elem_of_app; [|set_solver].
      apply elem_of_union_r. by apply Hvis.
    + destruct (dj_chain _ _ _ _ Hinv v Hv) as (path & Hc & Hpath & Hnd & Hvis).
      exists path. do 3 (split; [done|]). intros x Hx.
      apply elem_of_union_r. by apply Hvis.
  - intros v p Hp. destruct (dj_parent _ _ _ _ Hinv v p Hp) as (? & ? & ?).
    split; [set_solver|done].
  - intros v p Hp.
    destruct (dj_queued _ _ _ _ Hinv v p Hp) as [?|[d Hd]]; [set_solver|].
    rewrite Hq in Hd. apply elem_of_cons in Hd as [[= -> ->]|Hd];
      [set_solver|]. right. by exists d.
  - intros d v Hd.
    destruct (dj_queue _ _ _ _ Hinv d v) as [?|?];
      [rewrite Hq; set_solver|set_solver|by right].
  - intros v Hv Hnp. apply (dj_untouched _ _ _ _ Hinv); [set_solver|done].
Qed.

(** dropping an entry of a visited vertex keeps the invariant *)
Lemma skip_inv g start st visited current_dist current rest :
  dijkstra_inv g start st visited →
  pq st = (current_dist, current) :: rest → current ∈ visited →
  dijkstra_inv g start
    {| distances := distances st; parents := parents st; pq := rest |}
    visited.
Proof.
  intros Hinv Hq Hcur. constructor; simpl; try apply Hinv.
  - intros v p Hp.
    destruct (dj_queued _ _ _ _ Hinv v p Hp) as [?|[d Hd]]; [by left|].
    rewrite Hq in Hd. apply elem_of_cons in Hd as [[= -> ->]|Hd];
      [by left|]. right. by exists d.
  - intros d v Hd. apply (dj_queue _ _ _ _ Hinv d v). rewrite Hq. set_solver.
Qed.

(** the loop keeps the invariant; it visits at most one vertex per
    iteration *)
Lemma dijkstra_loop_inv g start fuel st visited distances' parents' :
  dijkstra_inv g start st visited →
  dijkstra_loop fuel g st visited = Return (distances', parents') →
  ∃ st' visited',
    distances' = distances st' ∧ parents' = parents st'
    ∧ dijkstra_inv g start st' visited' ∧ pq st' = []
    ∧ (size visited' ≤ size visited + fuel)%nat.
Proof.
  revert st visited. induction fuel as [|fuel IH]; intros st visited Hinv.
  - simpl. destruct (pq st) as [|[d c] rest] eqn:Hq; [|done].
    intros [= <- <-]. exists st, visited. do 4 (split; [done|]). lia.
  - simpl. destruct (pq st) as [|[d c] rest] eqn:Hq.
    { intros [= <- <-]. exists st, visited. do 4 (split; [done|]). lia. }
    destruct (decide (c ∈ visited)) as [Hc|Hc].
    + intros Hr. destruct (IH _ _ (skip_inv g start st visited d c rest
                                     Hinv Hq Hc) Hr)
        as (st' & visited' & ? & ? & ? & ? & ?).
      exists st', visited'. do 4 (split; [done|]). lia.
    + pose proof (visit_inv g start st visited d c rest Hinv Hq Hc) as Hinv1.
      pose proof (relax_fold_inv g start ({[c]} ∪ visited) d c
                    (get_neighbors g c) _ Hinv1 ltac:(set_solver)) as Hinv2.
      destruct (for_each _ _ _) as [st1| |]; [|done..]. simpl.
      intros Hr. destruct (IH _ _ (Hinv2 ltac:(
        intros e He; unfold neighbors; apply list_elem_of_fmap; by exists e))
                             Hr)
        as (st' & visited' & ? & ? & ? & ? & Hsize).
      exists st', visited'. do 4 (split; [done|]).
      rewrite size_union in Hsize by set_solver.
      rewrite size_singleton in Hsize. lia.
Qed.

Lemma dijkstra_inv_initial g start :
  dijkstra_inv g start
    {| distances := initial_distances g start;
       parents := initial_parents g; pq := [] |} {[start]}.
Proof.
  assert (∀ v p, initial_parents g !! v ≠ Some (Some p)) as Hnone.
  { intros v p. rewrite initial_parents_lookup. by destruct (decide _). }
  constructor; simpl.
  - set_solver.
  - rewrite initial_distances_lookup. by rewrite decide_True.
  - done.
  - intros v ->%elem_of_singleton. exists [start].
    split; [constructor|]. split; [done|].
    split; [apply NoDup_singleton|]. set_solver.
  - intros v p Hp. by apply Hnone in Hp.
  - intros v p Hp. by apply Hnone in Hp.
  - intros d v Hd. by apply elem_of_nil in Hd.
  - done.
Qed.

(** what a returned result of [dijkstra] satisfies *)
Lemma dijkstra_result_inv g start fuel distances' parents' :
  dijkstra fuel g start = Return (distances', parents') →
  ∃ st' visited',
    distances' = distances st' ∧ parents' = parents st'
    ∧ dijkstra_inv g start st' visited' ∧ pq st' = []
    ∧ (size visited' ≤ fuel)%nat.
Proof.
  unfold dijkstra. fold (initial_distances g start) (initial_parents g).
  destruct fuel as [|fuel]; [done|]. simpl.
  rewrite decide_False by set_solver.
  assert ({[start]} ∪ (∅ : gset Z) = {[start]}) as Hu by set_solver.
  pose proof (dijkstra_inv_initial g start) as Hinv0. rewrite <- Hu in Hinv0.
  pose proof (relax_fold_inv g start ({[start]} ∪ ∅) 0%float start
                (get_neighbors g start) _ Hinv0 ltac:(set_solver)) as Hinv.
  destruct (for_each _ _ _) as [st1| |]; [|done..]. simpl.
  intros Hr.
  destruct (dijkstra_loop_inv g start fuel st1 ({[start]} ∪ ∅) _ _
              (Hinv ltac:(intros e He; unfold neighbors;
                          apply list_elem_of_fmap; by exists e)) Hr)
    as (st' & visited' & ? & ? & ? & ? & Hsize).
  exists st', visited'. do 4 (split; [done|]).
  rewrite Hu, size_singleton in Hsize. lia.
Qed.

Lemma parent_chain_reachable g parents start v path :
  parent_chain parents start v path → is_path g path → reachable g start v.
Proof.
  induction 1 as [|v p path Hp Hc IH]; intros Hpath; [apply reachable_refl|].
  assert (is_path g path ∧ edge g p v) as [Hpath' He].
  { apply parent_chain_ends in Hc as [_ Hl]. clear -Hpath Hl.
    induction path as [|x path IH]; [done|].
    destruct path as [|y path].
    - simpl in *. injection Hl as ->. by destruct Hpath.
    - destruct Hpath as [Hxy Hp]. destruct (IH Hl Hp) as [? ?].
      split; [|done]. by split. }
  eapply reachable_step; [by apply IH|done].
Qed.

(** at the end every vertex that is not visited has its initial entries,
    and every visited vertex can be reached *)
Lemma dijkstra_final g start st visited :
  dijkstra_inv g start st visited → pq st = [] →
  (∀ v, v ∈ visited → reachable g start v)
  ∧ (∀ v, v ∉ visited →
       distances st !! v = initial_distances g start !! v
       ∧ parents st !! v = initial_parents g !! v).
Proof.
  intros Hinv Hq. split.
  - intros v Hv. destruct (dj_chain _ _ _ _ Hinv v Hv) as (path & Hc & Hp & _).
    by eapply parent_chain_reachable.
  - intros v Hv. apply (dj_untouched _ _ _ _ Hinv); [done|].
    intros p Hp. destruct (dj_queued _ _ _ _ Hinv v p Hp) as [?|[d Hd]]; [done|].
    rewrite Hq in Hd. by apply elem_of_nil in Hd.
Qed.
End dijkstra_parents.

Lemma NoDup_length_size (l : list Z) (X : gset Z) :
  NoDup l → (∀ x, x ∈ l → x ∈ X) → (length l ≤ size X)%nat.
Proof.
  intros Hnd Hsub. rewrite <- (size_list_to_set (C:=gset Z) l) by done.
  apply subseteq_size. intros x Hx%elem_of_list_to_set. by apply Hsub.
Qed.

(** what [dijkstra_path] does once [dijkstra] has returned a distance other
    than infinity for [end]: [end] was visited, and its parents are walked
    back to [start] *)
Lemma dijkstra_path_found {G : Type} `{Graph G} (g : G) (start end_ : Z)
    (fuel : nat) distances parents d :
  ShortestPath.dijkstra fuel g start = Return (distances, parents) →
  distances !! end_ = Some d → PrimFloat.eqb d infinity = false →
  ∃ path,
    head path = Some start ∧ last path = Some end_
    ∧ is_path g path ∧ NoDup path
    ∧ ShortestPath.dijkstra_path fuel g start end_
      = if decide (start ∈ get_vertices g) then Return (Some (path, d))
        else Raise KeyError.
Proof.
  intros Hr Hd He.
  destruct (dijkstra_result_inv g start fuel _ _ Hr)
    as (st & visited & -> & -> & Hinv & Hq & Hsize).
  destruct (dijkstra_final g start st visited Hinv Hq) as [_ Hout].
  assert (end_ ∈ visited) as Hv.
  { destruct (decide (end_ ∈ visited)) as [|Hn]; [done|]. exfalso.
    destruct (Hout end_ Hn) as [Hd0 _]. rewrite Hd in Hd0.
    rewrite initial_distances_lookup in Hd0.
    destruct (decide (end_ = start)) as [->|]; [apply Hn, Hinv|].
    destruct (decide (end_ ∈ get_vertices g)); [|done].
    injection Hd0 as ->. done. }
  destruct (dj_chain _ _ _ _ Hinv end_ Hv) as (path & Hc & Hp & Hnd & Hvis).
  pose proof (parent_chain_ends _ _ _ _ Hc) as [Hh Hl].
  exists path. do 4 (split; [done|]).
  unfold ShortestPath.dijkstra_path. rewrite Hr. simpl. rewrite Hd, He.
  rewrite (walk_back_parent_chain _ start end_ path) by
    (done || (pose proof (NoDup_length_size path visited Hnd Hvis); lia)).
  rewrite (dj_start_p _ _ _ _ Hinv), initial_parents_lookup.
  destruct (decide (start ∈ get_vertices g)); [|done].
  simpl. by rewrite reverse_involutive.
Qed.

(** X17: in a result of [dijkstra] the entries of [start] are 0.0 and no
    parent, whatever the weights; a recorded parent has an edge to its
    child and can be reached from [start]; and a vertex that cannot be
    reached keeps the entries it was given at the beginning: infinity and
    no parent.  On a graph whose neighbours are vertices [dijkstra]
    returns such a result, given enough iterations. *)
Theorem dijkstra_start_and_unreached {G : Type} `{Graph G} (g : G)
    (start : Z) :
  (∀ fuel distances parents,
     ShortestPath.dijkstra fuel g start = Return (distances, parents) →
     distances !! start = Some 0%float
     ∧ parents !! start
       = (if decide (start ∈ get_vertices g) then Some None else None)
     ∧ (∀ v p, parents !! v = Some (Some p) →
          edge g p v ∧ reachable g start p ∧ v ≠ start)
     ∧ (∀ v, v ∈ get_vertices g → ¬ reachable g start v →
          distances !! v = Some infinity ∧ parents !! v = Some None))
  ∧ (closed g →
     ∃ k distances parents, ∀ fuel, (k ≤ fuel)%nat →
       ShortestPath.dijkstra fuel g start = Return (distances, parents)).
Proof.
  split.
  2:{ intros Hc. destruct (dijkstra_returns g start Hc) as (k & d & p & _ & Hr).
      by exists k, d, p. }
  intros fuel distances parents Hr.
  destruct (dijkstra_result_inv g start fuel _ _ Hr)
    as (st & visited & -> & -> & Hinv & Hq & _).
  destruct (dijkstra_final g start st visited Hinv Hq) as [Hin Hout].
  split; [apply Hinv|]. split.
  { rewrite (dj_start_p _ _ _ _ Hinv). apply initial_parents_lookup. }
  split.
  { intros v p Hp. destruct (dj_parent _ _ _ _ Hinv v p Hp) as (? & ? & ?).
    split; [done|]. split; [by apply Hin|done]. }
  intros v Hv Hnr.
  assert (v ∉ visited) as Hnv by (intros ?; by apply Hnr, Hin).
  destruct (Hout v Hnv) as [-> ->].
  rewrite initial_distances_lookup, initial_parents_lookup.
  rewrite decide_False by (intros ->; apply Hnr, reachable_refl).
  by rewrite !decide_True by done.
Qed.

Lemma dijkstra_start_and_unreached_witness :
  (∃ distances parents,
     ShortestPath.dijkstra 20 (list_run false true reference_edges) 1
     = Return (distances, parents)
     ∧ distances !! 1 = Some 0%float
     ∧ parents !! 1
       = (if decide (1 ∈ get_vertices (list_run false true reference_edges))
          then Some None else None)
     ∧ (∀ v p, parents !! v = Some (Some p) →
          edge (list_run false true reference_edges) p v
          ∧ reachable (list_run false true reference_edges) 1 p ∧ v ≠ 1)
     ∧ (∀ v, v ∈ get_vertices (list_run false true reference_edges) →
          ¬ reachable (list_run false true reference_edges) 1 v →
          distances !! v = Some infinity ∧ parents !! v = Some None))
  ∧ closed (list_run false true reference_edges)
  ∧ ∃ k distances parents, ∀ fuel, (k ≤ fuel)%nat →
      ShortestPath.dijkstra fuel (list_run false true reference_edges) 1
      = Return (distances, parents).
Proof.
  destruct (dijkstra_start_and_unreached
              (list_run false true reference_edges) 1) as [Hres Hret].
  split.
  - eexists _, _. split; [vm_compute; reflexivity|].
    eapply (Hres 20%nat). vm_compute. reflexivity.
  - split; [apply list_run_closed|]. apply Hret, list_run_closed.
Defined.

(** X18: a path [dijkstra_path] returns begins at [start], ends at [end],
    follows edges of the graph and repeats no vertex, and comes with the
    distance [dijkstra] recorded for [end]; when the neighbours of the
    graph are vertices and [start] and [end] are among them,
    [dijkstra_path] returns -- a path or [None] -- and does not raise. *)
Theorem dijkstra_path_follows_edges {G : Type} `{Graph G} (g : G)
    (start end_ : Z) :
  (∀ fuel path d,
     ShortestPath.dijkstra_path fuel g start end_ = Return (Some (path, d)) →
     head path = Some start ∧ last path = Some end_
     ∧ is_path g path ∧ NoDup path
     ∧ ∃ distances parents,
         ShortestPath.dijkstra fuel g start = Return (distances, parents)
         ∧ distances !! end_ = Some d)
  ∧ (closed g → start ∈ get_vertices g → end_ ∈ get_vertices g →
     ∃ k, ∀ n, (k ≤ n)%nat →
       ∃ r, ShortestPath.dijkstra_path n g start end_ = Return r).
Proof.
  split.
  - intros fuel path d Hpath.
    destruct (ShortestPath.dijkstra fuel g start) as [[D P]| |] eqn:Hr;
      [|by unfold ShortestPath.dijkstra_path in Hpath; rewrite Hr in Hpath..].
    destruct (D !! end_) as [d'|] eqn:Hd;
      [|by unfold ShortestPath.dijkstra_path in Hpath;
           rewrite Hr in Hpath; simpl in Hpath; rewrite Hd in Hpath].
    destruct (PrimFloat.eqb d' infinity) eqn:He;
      [by unfold ShortestPath.dijkstra_path in Hpath;
          rewrite Hr in Hpath; simpl in Hpath; rewrite Hd, He in Hpath|].
    destruct (dijkstra_path_found g start end_ fuel D P d' Hr Hd He)
      as (path' & Hh & Hl & Hp & Hnd & Hres).
    rewrite Hres in Hpath.
    destruct (decide (start ∈ get_vertices g)); [|done].
    injection Hpath as <- <-. do 4 (split; [done|]). by exists D, P.
  - intros Hc Hs He.
    destruct (dijkstra_returns g start Hc) as (k & D & P & Hdom & Hr).
    exists k. intros n Hn. specialize (Hr n Hn).
    assert (is_Some (D !! end_)) as [d Hd].
    { apply elem_of_dom. rewrite Hdom. set_solver. }
    destruct (PrimFloat.eqb d infinity) eqn:Heq.
    + exists None. unfold ShortestPath.dijkstra_path. rewrite Hr. simpl.
      by rewrite Hd, Heq.
    + destruct (dijkstra_path_found g start end_ n D P d Hr Hd Heq)
        as (path & _ & _ & _ & _ & Hres).
      rewrite decide_True in Hres by done. by exists (Some (path, d)).
Qed.

Lemma dijkstra_path_follows_edges_witness :
  closed (list_run false true reference_edges)
  ∧ 1 ∈ get_vertices (list_run false true reference_edges)
  ∧ 5 ∈ get_vertices (list_run false true reference_edges)
  ∧ ∃ k, ∀ n, (k ≤ n)%nat →
      ∃ r, ShortestPath.dijkstra_path n
             (list_run false true reference_edges) 1 5 = Return r.
Proof.
  split; [apply list_run_closed|].
  split; [vm_compute; set_solver|]. split; [vm_compute; set_solver|].
  apply (dijkstra_path_follows_edges (list_run false true reference_edges) 1 5).
  - apply list_run_closed.
  - vm_compute. set_solver.
  - vm_compute. set_solver.
Defined.

(** X19: on a graph whose neighbours are vertices, with enough budget,
    [dijkstra_path] from a vertex to itself returns the one-vertex path
    with distance 0.0; from a [start] that is not a vertex to itself it
    raises KeyError (the parents hold no entry for it); and for a vertex
    that cannot be reached from [start] it returns [None]. *)
Theorem dijkstra_path_edge_cases {G : Type} `{Graph G} (g : G) (start : Z) :
  closed g →
  ∃ k, ∀ n, (k ≤ n)%nat →
    (start ∈ get_vertices g →
     ShortestPath.dijkstra_path n g start start
     = Return (Some ([start], 0%float)))
    ∧ (start ∉ get_vertices g →
       ShortestPath.dijkstra_path n g start start = Raise KeyError)
    ∧ (∀ end_, end_ ∈ get_vertices g → ¬ reachable g start end_ →
         ShortestPath.dijkstra_path n g start end_ = Return None).
Proof.
  intros Hc.
  destruct (dijkstra_returns g start Hc) as (k & D & P & Hdom & Hr).
  exists k. intros n Hn. specialize (Hr n Hn).
  destruct (dijkstra_result_inv g start n _ _ Hr)
    as (st & visited & -> & -> & Hinv & Hq & Hsize).
  destruct (dijkstra_final g start st visited Hinv Hq) as [Hin Hout].
  assert (ShortestPath.dijkstra_path n g start start
          = if decide (start ∈ get_vertices g)
            then Return (Some ([start], 0%float)) else Raise KeyError) as Hss.
  { unfold ShortestPath.dijkstra_path. rewrite Hr. simpl.
    rewrite (dj_start_d _ _ _ _ Hinv).
    change (PrimFloat.eqb 0 infinity) with false. cbv iota.
    assert (1 ≤ n)%nat as Hn1.
    { pose proof (dj_start _ _ _ _ Hinv) as Hs.
      assert (size visited ≠ 0)%nat; [|lia].
      apply size_non_empty_iff. set_solver. }
    rewrite (walk_back_parent_chain _ start start [start])
      by (constructor || (simpl; lia)).
    rewrite (dj_start_p _ _ _ _ Hinv), initial_parents_lookup.
    by destruct (decide (start ∈ get_vertices g)). }
  split; [intros Hs; by rewrite Hss, decide_True|].
  split; [intros Hs; by rewrite Hss, decide_False|].
  intros end_ He Hnr.
  assert (end_ ∉ visited) as Hnv by (intros ?; by apply Hnr, Hin).
  destruct (Hout end_ Hnv) as [Hd _].
  rewrite initial_distances_lookup in Hd.
  rewrite decide_False in Hd by (intros ->; apply Hnr, reachable_refl).
  rewrite decide_True in Hd by done.
  unfold ShortestPath.dijkstra_path. rewrite Hr. simpl. by rewrite Hd.
Qed.

Lemma dijkstra_path_edge_cases_witness :
  closed (list_run false true reference_edges)
  ∧ ∃ k, ∀ n, (k ≤ n)%nat →
      (1 ∈ get_vertices (list_run false true reference_edges) →
       ShortestPath.dijkstra_path n (list_run false true reference_edges) 1 1
       = Return (Some ([1], 0%float)))
      ∧ (1 ∉ get_vertices (list_run false true reference_edges) →
         ShortestPath.dijkstra_path n (list_run false true reference_edges) 1 1
         = Raise KeyError)
      ∧ (∀ end_, end_ ∈ get_vertices (list_run false true reference_edges) →
           ¬ reachable (list_run false true reference_edges) 1 end_ →
           ShortestPath.dijkstra_path n
             (list_run false true reference_edges) 1 end_ = Return None).
Proof.
  split; [apply list_run_closed|].
  apply (dijkstra_path_edge_cases (list_run false true reference_edges) 1).
  apply list_run_closed.
Defined.
(** * Further properties of the topological sorts *)

(** ** Positions in a list *)

Lemma index_Some_lt l x i : index l x = Some i → (i < length l)%nat.
Proof.
  revert i. induction l as [|y l IH]; intros i; simpl; [done|].
  destruct (decide (y = x)); [intros [= <-]; lia|].
  destruct (index l x) as [j|] eqn:E; [|done]. intros [= <-].
  specialize (IH j eq_refl). lia.
Qed.

Lemma index_elem l x : x ∈ l ↔ is_Some (index l x).
Proof.
  induction l as [|y l IH]; simpl.
  - split; [by intros ?%elem_of_nil|by intros [? ?]].
  - destruct (decide (y = x)) as [->|Hne].
    + split; [by eexists|set_solver].
    + rewrite elem_of_cons, IH, fmap_is_Some. naive_solver.
Qed.

Lemma index_app_l l k x i : index l x = Some i → index (l ++ k) x = Some i.
Proof.
  revert i. induction l as [|y l IH]; intros i; simpl; [done|].
  destruct (decide (y = x)); [done|].
  destruct (index l x) as [j|] eqn:E; [|done]. intros [= <-].
  by rewrite (IH j eq_refl).
Qed.

Lemma index_app_r l x : x ∉ l → index (l ++ [x]) x = Some (length l).
Proof.
  induction l as [|y l IH]; intros Hx; simpl.
  - by rewrite decide_True.
  - rewrite decide_False by set_solver. rewrite IH by set_solver. done.
Qed.

Lemma precedes_app l k a b : precedes l a b → precedes (l ++ k) a b.
Proof.
  intros (i & j & Hi & Hj & Hlt). exists i, j.
  split; [by apply index_app_l|]. split; [by apply index_app_l|done].
Qed.

Lemma precedes_snoc l a b : a ∈ l → b ∉ l → precedes (l ++ [b]) a b.
Proof.
  intros [i Hi]%index_elem Hb. exists i, (length l).
  split; [by apply index_app_l|]. split; [by apply index_app_r|].
  by apply index_Some_lt in Hi.
Qed.

Lemma precedes_trans l a b c : precedes l a b → precedes l b c → precedes l a c.
Proof.
  intros (i & j & Hi & Hj & Hij) (j' & k & Hj' & Hk & Hjk).
  exists i, k. split; [done|]. split; [done|].
  rewrite Hj in Hj'. injection Hj' as <-. lia.
Qed.

Lemma precedes_irrefl l a : ¬ precedes l a a.
Proof. intros (i & j & Hi & Hj & Hij). rewrite Hi in Hj. injection Hj. lia. Qed.

(** ** Kahn's algorithm *)

Lemma occurrences_nil v : occurrences v [] = 0.
Proof. done. Qed.

Lemma occurrences_cons v n ns :
  occurrences v (n :: ns)
  = (if decide (n = v) then 1 else 0) + occurrences v ns.
Proof.
  unfold occurrences. rewrite filter_cons.
  destruct (decide (n = v)); simpl; lia.
Qed.

Lemma occurrences_nonneg v ns : 0 ≤ occurrences v ns.
Proof. unfold occurrences. lia. Qed.

Lemma occurrences_pos v ns : v ∈ ns ↔ 1 ≤ occurrences v ns.
Proof.
  induction ns as [|n ns IH]; [rewrite occurrences_nil; set_solver by lia|].
  rewrite occurrences_cons, elem_of_cons, IH.
  pose proof (occurrences_nonneg v ns).
  destruct (decide (n = v)); split; try lia; try naive_solver.
Qed.

Lemma od_keys_set_present {V : Type} (d : list (Z * V)) k v :
  k ∈ OrderedDict.keys d →
  OrderedDict.keys (OrderedDict.set d k v) = OrderedDict.keys d.
Proof.
  intros Hk. rewrite od_keys_set.
  by rewrite (proj2 (od_contains_keys d k)).
Qed.

Lemma od_get_Some_elem {V : Type} (d : list (Z * V)) k v :
  OrderedDict.get d k = Some v → (k, v) ∈ d.
Proof.
  induction d as [|[k' v'] d IH]; simpl; [done|].
  destruct (decide (k' = k)) as [->|]; [intros [= ->]; set_solver|].
  intros Hg. apply elem_of_cons. right. by apply IH.
Qed.

Lemma od_get_is_Some {V : Type} (d : list (Z * V)) k :
  k ∈ OrderedDict.keys d ↔ is_Some (OrderedDict.get d k).
Proof.
  rewrite <- not_eq_None_Some, od_get_None.
  destruct (decide (k ∈ OrderedDict.keys d)); naive_solver.
Qed.

Section kahn.
Context {G : Type} `{Graph G}.
Implicit Types (g : G) (in_degree : list (Z * Z)).
Import TopologicalSort.

Lemma indegree_outside_nonneg g result us v :
  0 ≤ indegree_outside g result us v.
Proof.
  induction us as [|u us IH]; simpl; [done|].
  pose proof (occurrences_nonneg v (neighbors g u)).
  destruct (decide (u ∈ result)); lia.
Qed.

(** every vertex outside [result] contributes its edges *)
Lemma indegree_outside_ge g result us v u :
  u ∈ us → u ∉ result →
  occurrences v (neighbors g u) ≤ indegree_outside g result us v.
Proof.
  induction us as [|u' us IH]; intros Hu Hr; [by apply elem_of_nil in Hu|].
  simpl. pose proof (indegree_outside_nonneg g result us v).
  pose proof (occurrences_nonneg v (neighbors g u')).
  apply elem_of_cons in Hu as [->|Hu].
  - rewrite decide_False by done. lia.
  - specialize (IH Hu Hr). destruct (decide (u' ∈ result)); lia.
Qed.

Lemma indegree_outside_snoc_other g result us v c :
  c ∉ us →
  indegree_outside g (result ++ [c]) us v = indegree_outside g result us v.
Proof.
  induction us as [|u us IH]; intros Hc; simpl; [done|].
  rewrite IH by set_solver.
  destruct (decide (u ∈ result)) as [Hu|Hu].
  - by rewrite decide_True by set_solver.
  - by rewrite decide_False by set_solver.
Qed.

(** moving a vertex into [result] removes its edges from the count *)
Lemma indegree_outside_snoc g result us v c :
  NoDup us → c ∈ us → c ∉ result →
  indegree_outside g (result ++ [c]) us v
  = indegree_outside g result us v - occurrences v (neighbors g c).
Proof.
  induction us as [|u us IH]; intros Hnd Hc Hr; [by apply elem_of_nil in Hc|].
  apply NoDup_cons in Hnd as [Hu Hnd]. simpl.
  apply elem_of_cons in Hc as [->|Hc].
  - rewrite indegree_outside_snoc_other by done.
    rewrite decide_True by set_solver. rewrite decide_False by done. lia.
  - rewrite IH by done.
    destruct (decide (u ∈ result)) as [Hur|Hur].
    + rewrite decide_True by set_solver. lia.
    + rewrite decide_False; [lia|]. set_solver.
Qed.

Lemma decrement_eq in_degree queue n x :
  OrderedDict.get in_degree n = Some x →
  decrement (in_degree, queue) n
  = Return (OrderedDict.set in_degree n (x - 1),
            if decide (x - 1 = 0) then queue ++ [n] else queue).
Proof. intros Hx. unfold decrement. rewrite Hx. by destruct (decide _). Qed.

(** the [for neighbor] loop of the main loop: every counter goes down by
    the number of occurrences of its vertex, and the vertices whose counter
    passes through zero are queued, once each *)
Lemma decrement_fold ns :
  ∀ in_degree queue,
  (∀ n, n ∈ ns → n ∈ OrderedDict.keys in_degree) →
  ∃ in_degree' new,
    for_each decrement ns (in_degree, queue) = Return (in_degree', queue ++ new)
    ∧ OrderedDict.keys in_degree' = OrderedDict.keys in_degree
    ∧ (∀ v, OrderedDict.get in_degree' v
            = (λ x, x - occurrences v ns) <$> OrderedDict.get in_degree v)
    ∧ NoDup new
    ∧ ∀ v, v ∈ new
        ↔ ∃ x, OrderedDict.get in_degree v = Some x
               ∧ 1 ≤ x ≤ occurrences v ns.
Proof.
  induction ns as [|n ns IH]; intros d q Hkeys.
  - exists d, []. simpl. rewrite app_nil_r. split; [done|]. split; [done|].
    split.
    { intros v. rewrite occurrences_nil.
      destruct (OrderedDict.get d v); simpl; [f_equal; lia|done]. }
    split; [constructor|]. intros v. rewrite occurrences_nil.
    split; [by intros ?%elem_of_nil|]. intros (x & _ & ?). lia.
  - assert (is_Some (OrderedDict.get d n)) as [x Hx].
    { apply od_get_is_Some, Hkeys. set_solver. }
    cbn [for_each]. rewrite (decrement_eq d q n x Hx). cbn [mbind outcome_bind].
    set (d1 := OrderedDict.set d n (x - 1)).
    assert (OrderedDict.keys d1 = OrderedDict.keys d) as Hk1.
    { apply od_keys_set_present, Hkeys. set_solver. }
    assert (∀ v, OrderedDict.get d1 v
                 = if decide (n = v) then Some (x - 1)
                   else OrderedDict.get d v) as Hg1.
    { intros v. apply od_get_set. }
    destruct (IH d1 (if decide (x - 1 = 0) then q ++ [n] else q))
      as (d' & new & Hr & Hk & Hg & Hnd & Hnew).
    { intros m Hm. rewrite Hk1. apply Hkeys. set_solver. }
    exists d', ((if decide (x - 1 = 0) then [n] else []) ++ new).
    split.
    { fold d1. rewrite Hr. destruct (decide (x - 1 = 0)); [|done].
      by rewrite <- app_assoc. }
    split; [by rewrite Hk|]. split.
    { intros v. rewrite Hg, Hg1, occurrences_cons.
      destruct (decide (n = v)) as [->|].
      - rewrite Hx. simpl. f_equal. lia.
      - destruct (OrderedDict.get d v); simpl; [f_equal; lia|done]. }
    assert (∀ v, v ∈ new
              ↔ ∃ y, (if decide (n = v) then Some (x - 1)
                      else OrderedDict.get d v) = Some y
                     ∧ 1 ≤ y ≤ occurrences v ns) as Hnew'.
    { intros v. rewrite Hnew. by rewrite Hg1. }
    split.
    { destruct (decide (x - 1 = 0)) as [Hx0|]; [|done]. simpl.
      constructor; [|done]. intros (y & Hy & ?)%Hnew'.
      rewrite decide_True in Hy by done. injection Hy as <-. lia. }
    intros v. rewrite elem_of_app, Hnew', occurrences_cons.
    pose proof (occurrences_nonneg v ns).
    destruct (decide (n = v)) as [->|Hne].
    + split.
      * intros [Hin|(y & [= <-] & ?)].
        -- destruct (decide (x - 1 = 0)); [|by apply elem_of_nil in Hin].
           exists x. split; [done|]. lia.
        -- exists x. split; [done|]. lia.
      * intros (y & Hy & ?). rewrite Hx in Hy. injection Hy as <-.
        destruct (decide (x - 1 = 0)); [left; set_solver|].
        right. exists (x - 1). split; [done|]. lia.
    + split.
      * intros [Hin|(y & Hy & ?)].
        -- destruct (decide (x - 1 = 0)); set_solver.
        -- exists y. split; [done|]. lia.
      * intros (y & Hy & ?). right. exists y. split; [done|]. lia.
Qed.

(** one iteration of the main loop keeps the invariant *)
Lemma kahn_step g in_degree current queue result :
  closed g → NoDup (get_vertices g) →
  kahn_inv g in_degree (current :: queue) result →
  ∃ in_degree' queue',
    for_each decrement (neighbors g current) (in_degree, queue)
    = Return (in_degree', queue')
    ∧ kahn_inv g in_degree' queue' (result ++ [current]).
Proof.
  intros Hc Hndv Hinv.
  assert (current ∈ get_vertices g) as Hcur.
  { apply (ki_vertices _ _ _ _ Hinv). set_solver. }
  assert (current ∉ result) as Hcr.
  { pose proof (ki_nodup _ _ _ _ Hinv) as Hnd.
    apply NoDup_app in Hnd as (_ & Hd & _). intros Hin.
    apply (Hd _ Hin). set_solver. }
  destruct (decrement_fold (neighbors g current) in_degree queue)
    as (d' & new & Hr & Hk & Hg & Hnd & Hnew).
  { intros n Hn. rewrite (ki_keys _ _ _ _ Hinv). by apply (Hc current). }
  exists d', (queue ++ new). split; [done|].
  set (pending := λ v, indegree_outside g result (get_vertices g) v).
  set (occ := λ v, occurrences v (neighbors g current)).
  assert (∀ v, indegree_outside g (result ++ [current]) (get_vertices g) v
               = pending v - occ v) as Hpend.
  { intros v. by apply indegree_outside_snoc. }
  assert (∀ v, occ v ≤ pending v) as Hge.
  { intros v. by apply indegree_outside_ge. }
  assert (∀ v, 0 ≤ occ v) as Hocc.
  { intros v. apply occurrences_nonneg. }
  assert (∀ v, v ∈ new → v ∈ get_vertices g ∧ pending v = occ v
                         ∧ 1 ≤ occ v) as Hnew1.
  { intros v (x & Hx & Hle)%Hnew.
    assert (v ∈ get_vertices g) as Hv.
    { rewrite <- (ki_keys _ _ _ _ Hinv). apply od_get_is_Some. by eexists. }
    rewrite (ki_degree _ _ _ _ Hinv v Hv) in Hx. injection Hx as <-.
    specialize (Hge v). fold (pending v) (occ v) in Hle. repeat split; [done|lia..]. }
  constructor.
  - by rewrite Hk, (ki_keys _ _ _ _ Hinv).
  - intros v Hv. rewrite Hg, (ki_degree _ _ _ _ Hinv v Hv). simpl.
    by rewrite Hpend.
  - replace ((result ++ [current]) ++ queue ++ new)
      with ((result ++ current :: queue) ++ new) by (by rewrite <- !app_assoc).
    apply NoDup_app. split; [apply Hinv|]. split; [|done].
    intros v Hv Hin. destruct (Hnew1 v Hin) as (_ & Hp & H1).
    pose proof (ki_zero _ _ _ _ Hinv v Hv) as Hz. fold (pending v) in Hz. lia.
  - intros v Hv.
    replace ((result ++ [current]) ++ queue ++ new)
      with ((result ++ current :: queue) ++ new) in Hv
      by (by rewrite <- !app_assoc).
    apply elem_of_app in Hv as [Hv|Hv].
    + by apply (ki_vertices _ _ _ _ Hinv).
    + by apply Hnew1.
  - intros v Hv. rewrite Hpend.
    replace ((result ++ [current]) ++ queue ++ new)
      with ((result ++ current :: queue) ++ new) in Hv
      by (by rewrite <- !app_assoc).
    apply elem_of_app in Hv as [Hv|Hv].
    + pose proof (ki_zero _ _ _ _ Hinv v Hv) as Hz. fold (pending v) in Hz.
      specialize (Hge v). specialize (Hocc v). lia.
    + destruct (Hnew1 v Hv) as (_ & Hp & _). lia.
  - intros v Hv Hz. rewrite Hpend in Hz.
    replace ((result ++ [current]) ++ queue ++ new)
      with ((result ++ current :: queue) ++ new)
      by (by rewrite <- !app_assoc).
    apply elem_of_app. destruct (decide (occ v = 0)) as [Ho|Ho].
    + left. apply (ki_ready _ _ _ _ Hinv); [done|]. fold (pending v). lia.
    + right. apply Hnew. exists (pending v).
      split; [by apply (ki_degree _ _ _ _ Hinv)|].
      specialize (Hocc v). fold (occ v). lia.
  - intros u v Hu He [Hv | ->%list_elem_of_singleton]%elem_of_app.
    + apply precedes_app. by apply (ki_order _ _ _ _ Hinv).
    + apply precedes_snoc; [|done].
      destruct (decide (u ∈ result)) as [|Hur]; [done|]. exfalso.
      pose proof (ki_zero _ _ _ _ Hinv current ltac:(set_solver)) as Hz.
      pose proof (indegree_outside_ge g result (get_vertices g) current u
                    Hu Hur) as Hle.
      apply occurrences_pos in He. lia.
Qed.

(** the main loop returns within one iteration per vertex that is not in
    [result]; what it returns extends [result] and satisfies the
    invariant with an empty queue *)
Lemma kahn_loop_spec g fuel in_degree queue result :
  closed g → NoDup (get_vertices g) →
  kahn_inv g in_degree queue result →
  (length (get_vertices g) ≤ fuel + length result)%nat →
  ∃ in_degree' result',
    kahn_loop fuel g in_degree queue result = Return result'
    ∧ kahn_inv g in_degree' [] result'.
Proof.
  intros Hc Hndv. revert in_degree queue result.
  induction fuel as [|fuel IH]; intros d queue result Hinv Hfuel.
  - destruct queue as [|c queue]; [by exists d, result|]. exfalso.
    pose proof (NoDup_length_size (result ++ c :: queue)
                  (list_to_set (get_vertices g)) (ki_nodup _ _ _ _ Hinv)) as Hle.
    rewrite size_list_to_set, length_app in Hle by done. simpl in Hle.
    assert (∀ x, x ∈ result ++ c :: queue
                 → x ∈ list_to_set (C:=gset Z) (get_vertices g)) as Hsub.
    { intros x Hx. apply elem_of_list_to_set.
      by apply (ki_vertices _ _ _ _ Hinv). }
    specialize (Hle Hsub). lia.
  - destruct queue as [|c queue]; [by exists d, result|]. simpl.
    destruct (kahn_step g d c queue result Hc Hndv Hinv)
      as (d' & queue' & -> & Hinv'). simpl.
    apply (IH d' queue' (result ++ [c]) Hinv').
    rewrite length_app. simpl. lia.
Qed.
End kahn.

Section kahn_initial.
Context {G : Type} `{Graph G}.
Implicit Types (g : G) (in_degree : list (Z * Z)).
Import TopologicalSort.

(** [in_degree = {v: 0 for v in graph.get_vertices()}] *)
Lemma zero_degrees vs :
  ∀ in_degree,
  NoDup (OrderedDict.keys in_degree ++ vs) →
  OrderedDict.keys (foldl (λ d v, OrderedDict.set d v 0) in_degree vs)
  = OrderedDict.keys in_degree ++ vs
  ∧ ∀ v, OrderedDict.get (foldl (λ d v, OrderedDict.set d v 0) in_degree vs) v
         = if decide (v ∈ vs) then Some 0 else OrderedDict.get in_degree v.
Proof.
  induction vs as [|u vs IH]; intros d Hnd; simpl.
  - by rewrite app_nil_r.
  - assert (u ∉ OrderedDict.keys d) as Hu.
    { apply NoDup_app in Hnd as (_ & Hd & _). intros Hin.
      apply (Hd _ Hin). set_solver. }
    assert (OrderedDict.keys (OrderedDict.set d u 0)
            = OrderedDict.keys d ++ [u]) as Hk.
    { rewrite od_keys_set. by rewrite (proj2 (od_contains_false d u)). }
    destruct (IH (OrderedDict.set d u 0)) as [IHk IHg].
    { by rewrite Hk, <- app_assoc. }
    split; [by rewrite IHk, Hk, <- app_assoc|].
    intros v. rewrite IHg, od_get_set.
    apply NoDup_app in Hnd as (_ & _ & Hnd). apply NoDup_cons in Hnd as [Hn _].
    destruct (decide (v ∈ vs)) as [Hv|Hv].
    + by rewrite decide_True by set_solver.
    + destruct (decide (u = v)) as [->|Hne].
      * by rewrite decide_True by set_solver.
      * by rewrite decide_False by set_solver.
Qed.

(** [for v, _ in graph.get_neighbors(u): in_degree[v] = in_degree.get(v, 0)
    + 1] *)
Lemma count_neighbors ns :
  ∀ in_degree,
  (∀ n, n ∈ ns → n ∈ OrderedDict.keys in_degree) →
  let d' := foldl (λ d v, OrderedDict.set d v
                            (default 0 (OrderedDict.get d v) + 1))
              in_degree ns in
  OrderedDict.keys d' = OrderedDict.keys in_degree
  ∧ ∀ v, OrderedDict.get d' v
         = (λ x, x + occurrences v ns) <$> OrderedDict.get in_degree v.
Proof.
  induction ns as [|n ns IH]; intros d Hkeys; simpl.
  - split; [done|]. intros v. rewrite occurrences_nil.
    destruct (OrderedDict.get d v); simpl; [f_equal; lia|done].
  - assert (is_Some (OrderedDict.get d n)) as [x Hx].
    { apply od_get_is_Some, Hkeys. set_solver. }
    rewrite Hx. simpl.
    assert (OrderedDict.keys (OrderedDict.set d n (x + 1))
            = OrderedDict.keys d) as Hk.
    { apply od_keys_set_present, Hkeys. set_solver. }
    destruct (IH (OrderedDict.set d n (x + 1))) as [IHk IHg].
    { intros m Hm. rewrite Hk. apply Hkeys. set_solver. }
    split; [by rewrite IHk|].
    intros v. rewrite IHg, od_get_set, occurrences_cons.
    destruct (decide (n = v)) as [->|].
    + rewrite Hx. simpl. f_equal. lia.
    + destruct (OrderedDict.get d v); simpl; [f_equal; lia|done].
Qed.

(** the loop over the vertices that counts the edges into every vertex *)
Lemma count_degrees g us :
  ∀ in_degree,
  (∀ u n, u ∈ us → edge g u n → n ∈ OrderedDict.keys in_degree) →
  let d' := foldl (λ d u,
                     foldl (λ d v, OrderedDict.set d v
                                     (default 0 (OrderedDict.get d v) + 1))
                           d (neighbors g u))
              in_degree us in
  OrderedDict.keys d' = OrderedDict.keys in_degree
  ∧ ∀ v, OrderedDict.get d' v
         = (λ x, x + indegree_outside g [] us v)
             <$> OrderedDict.get in_degree v.
Proof.
  induction us as [|u us IH]; intros d Hkeys; simpl.
  - split; [done|]. intros v.
    destruct (OrderedDict.get d v); simpl; [f_equal; lia|done].
  - destruct (count_neighbors (neighbors g u) d) as [Hk1 Hg1].
    { intros n Hn. apply (Hkeys u); [set_solver|done]. }
    simpl in Hk1, Hg1.
    match goal with
    | |- context [foldl _ (foldl ?f d (neighbors g u)) us] =>
        set (d1 := foldl f d (neighbors g u)) in *
    end.
    destruct (IH d1) as [IHk IHg].
    { intros u' n Hu' He. rewrite Hk1. apply (Hkeys u'); [set_solver|done]. }
    simpl in IHk, IHg. split; [by rewrite IHk|].
    intros v. rewrite IHg, Hg1.
    destruct (OrderedDict.get d v); simpl; [f_equal; lia|done].
Qed.

(** the state in which the main loop is entered *)
Lemma kahn_inv_initial g :
  closed g → NoDup (get_vertices g) →
  let in_degree0 := foldl (λ d v, OrderedDict.set d v 0) [] (get_vertices g) in
  let in_degree :=
    foldl (λ d u,
             foldl (λ d v, OrderedDict.set d v
                             (default 0 (OrderedDict.get d v) + 1))
                   d (neighbors g u))
          in_degree0 (get_vertices g) in
  kahn_inv g in_degree (filter (λ e, e.2 = 0) in_degree).*1 [].
Proof.
  intros Hc Hnd d0 d.
  destruct (zero_degrees (get_vertices g) []) as [Hk0 Hg0]; [done|].
  fold d0 in Hk0, Hg0. simpl in Hk0.
  destruct (count_degrees g (get_vertices g) d0) as [Hk Hg].
  { intros u n _ He. rewrite Hk0. by apply (Hc u). }
  fold d in Hk, Hg. simpl in Hk, Hg. rewrite Hk0 in Hk.
  assert (∀ v, v ∈ get_vertices g →
            OrderedDict.get d v
            = Some (indegree_outside g [] (get_vertices g) v)) as Hdeg.
  { intros v Hv. rewrite Hg, Hg0. rewrite decide_True by done. simpl.
    f_equal; lia. }
  assert (∀ v, v ∈ (filter (λ e, e.2 = 0) d).*1 →
            v ∈ get_vertices g ∧ OrderedDict.get d v = Some 0) as Hq.
  { intros v ([v' x] & -> & [Hx Hin]%list_elem_of_filter)%list_elem_of_fmap.
    simpl in *. subst x. split.
    - rewrite <- Hk. unfold OrderedDict.keys. apply list_elem_of_fmap.
      by exists (v', 0).
    - apply od_get_elem; [|done]. by rewrite Hk. }
  constructor; simpl.
  - done.
  - done.
  - apply (sublist_NoDup _ (OrderedDict.keys d)); [by rewrite Hk|].
    unfold OrderedDict.keys. apply fmap_sublist, sublist_filter.
  - intros v Hv. by apply Hq.
  - intros v Hv. destruct (Hq v Hv) as [Hvv Hz].
    rewrite (Hdeg v Hvv) in Hz. by injection Hz.
  - intros v Hv Hz. apply list_elem_of_fmap. exists (v, 0). split; [done|].
    apply list_elem_of_filter. split; [done|].
    apply od_get_Some_elem. by rewrite (Hdeg v Hv), Hz.
  - intros u v _ _ Hv. by apply elem_of_nil in Hv.
Qed.

(** along a walk from a vertex every edge goes forward in the order *)
Lemma walk_precedes g order a n b :
  closed g →
  (∀ u v, u ∈ get_vertices g → edge g u v → precedes order u v) →
  a ∈ get_vertices g → walk g a n b →
  b ∈ get_vertices g ∧ (n = O ∨ precedes order a b).
Proof.
  intros Hc Hord Ha Hw. induction Hw as [|n c b Hw' [Hcv IH] He].
  - split; [done|by left].
  - split; [by apply (Hc c)|]. right.
    destruct IH as [->|IH].
    + assert (c = a) as ->; [|by apply Hord].
      clear -Hw'. by inversion Hw'.
    + eapply precedes_trans; [done|]. by apply Hord.
Qed.
End kahn_initial.

(** ** Cycles *)

Section cycles.
Context {G : Type} `{Graph G}.
Implicit Types (g : G).

Lemma walk_cons g a b n c : edge g a b → walk g b n c → walk g a (S n) c.
Proof.
  intros He Hw. change (S n) with (1 + n)%nat. eapply walk_app; [|done].
  econstructor; [constructor|done].
Qed.

Lemma is_path_walk g x q y :
  is_path g (x :: q) → last (x :: q) = Some y → walk g x (length q) y.
Proof.
  revert x. induction q as [|z q IH]; intros x Hp Hl.
  - injection Hl as ->. constructor.
  - destruct Hp as [He Hp]. simpl. apply (walk_cons g x z); [done|].
    by apply IH.
Qed.

Lemma is_path_app_l g l k : is_path g (l ++ k) → is_path g l.
Proof.
  induction l as [|x l IH]; [done|].
  destruct l as [|y l]; [done|]. intros [He Hp]. split; [done|]. by apply IH.
Qed.

Lemma is_path_app_r g l k : is_path g (l ++ k) → is_path g k.
Proof.
  induction l as [|x l IH]; [done|].
  destruct l as [|y l].
  - simpl. destruct k; [done|]. by intros [_ ?].
  - intros [_ Hp]. by apply IH.
Qed.

(** a list with a repeated element splits around two occurrences *)
Lemma not_NoDup_split (l : list Z) :
  ¬ NoDup l → ∃ x l1 l2 l3, l = l1 ++ x :: l2 ++ x :: l3.
Proof.
  induction l as [|y l IH]; intros Hnd; [destruct Hnd; constructor|].
  destruct (decide (y ∈ l)) as [Hy|Hy].
  - apply list_elem_of_split in Hy as (l2 & l3 & ->).
    by exists y, [], l2, l3.
  - destruct IH as (x & l1 & l2 & l3 & ->).
    { intros Hl. apply Hnd. by constructor. }
    by exists x, (y :: l1), l2, l3.
Qed.

(** in a finite set of vertices each of which has a predecessor in the
    set, some vertex lies on a cycle *)
Lemma predecessors_cycle g (R : Z → Prop) (U : gset Z) v0 :
  (∀ v, R v → v ∈ U) →
  (∀ v, R v → ∃ u, R u ∧ edge g u v) →
  R v0 → ∃ x n, R x ∧ walk g x (S n) x.
Proof.
  intros HU Hpred Hv0.
  assert (∀ n, ∃ p, length p = S n ∧ is_path g p ∧ Forall R p) as Hp.
  { intros n. induction n as [|n (p & Hlen & Hpath & HR)].
    - exists [v0]. split; [done|]. split; [done|]. by constructor.
    - destruct p as [|v p]; [done|].
      apply Forall_cons in HR as [Hv HR].
      destruct (Hpred v Hv) as (u & Hu & He).
      exists (u :: v :: p). split; [simpl in *; lia|].
      split; [by split|]. by repeat constructor. }
  destruct (Hp (size U)) as (p & Hlen & Hpath & HR).
  destruct (not_NoDup_split p) as (x & l1 & l2 & l3 & ->).
  { intros Hnd.
    pose proof (NoDup_length_size p U Hnd) as Hle.
    assert (∀ y, y ∈ p → y ∈ U) as Hsub.
    { intros y Hy. apply HU. by apply (proj1 (Forall_forall R p) HR). }
    specialize (Hle Hsub). lia. }
  exists x, (length l2). split.
  { apply (proj1 (Forall_forall R _) HR). set_solver. }
  apply is_path_app_r in Hpath.
  replace (x :: l2 ++ x :: l3) with ((x :: l2 ++ [x]) ++ l3) in Hpath
    by (simpl; by rewrite <- app_assoc).
  apply is_path_app_l in Hpath.
  replace (S (length l2)) with (length (l2 ++ [x]))
    by (rewrite length_app; simpl; lia).
  apply is_path_walk; [done|]. by rewrite app_comm_cons, last_snoc.
Qed.

Lemma indegree_outside_pos g result us v :
  1 ≤ indegree_outside g result us v →
  ∃ u, u ∈ us ∧ (u ∉ result) ∧ edge g u v.
Proof.
  induction us as [|u us IH]; simpl; [lia|]. intros Hle.
  destruct (decide (u ∈ result)) as [Hu|Hu].
  - destruct IH as (u' & ? & ? & ?); [lia|]. exists u'. set_solver.
  - destruct (decide (1 ≤ occurrences v (neighbors g u))) as [Ho|Ho].
    + exists u. split; [set_solver|]. split; [done|].
      by apply occurrences_pos.
    + pose proof (occurrences_nonneg v (neighbors g u)).
      destruct IH as (u' & ? & ? & ?); [lia|]. exists u'. set_solver.
Qed.
End cycles.

(** what [topological_sort] returns *)
Lemma kahn_sort_spec {G : Type} `{Graph G} (g : G) :
  closed g → NoDup (get_vertices g) → directed g = true →
  ∃ r,
    (∀ n, (length (get_vertices g) ≤ n)%nat →
       TopologicalSort.topological_sort n g = Return r)
    ∧ (∀ order, r = Some order →
         order ≡ₚ get_vertices g
         ∧ ∀ u v, u ∈ get_vertices g → edge g u v → precedes order u v)
    ∧ (r = None ↔ ∃ v n, v ∈ get_vertices g ∧ walk g v (S n) v).
Proof.
  intros Hc Hnd Hd.
  pose proof (kahn_inv_initial g Hc Hnd) as Hinv0. simpl in Hinv0.
  match type of Hinv0 with
  | kahn_inv _ ?d _ _ => set (in_degree := d) in *
  end.
  set (queue := (filter (λ e, e.2 = 0) in_degree).*1) in *.
  assert (∃ in_degree' result,
            kahn_inv g in_degree' [] result
            ∧ ∀ n, (length (get_vertices g) ≤ n)%nat →
                TopologicalSort.kahn_loop n g in_degree queue [] = Return result)
    as (d' & result & Hinv & Hloop).
  { destruct (kahn_loop_spec g (length (get_vertices g)) in_degree queue []
                Hc Hnd Hinv0 ltac:(simpl; lia)) as (d' & result & Hr & Hinv).
    exists d', result. split; [done|]. intros n Hn.
    replace n with (length (get_vertices g) + (n - length (get_vertices g)))%nat
      by lia.
    rewrite kahn_loop_mono; [done|]. by rewrite Hr. }
  pose proof (ki_nodup _ _ _ _ Hinv) as Hndr. rewrite app_nil_r in Hndr.
  assert (∀ v, v ∈ result → v ∈ get_vertices g) as Hsub.
  { intros v Hv. apply (ki_vertices _ _ _ _ Hinv). by rewrite app_nil_r. }
  assert (length result = length (get_vertices g) →
          result ≡ₚ get_vertices g
          ∧ ∀ u v, u ∈ get_vertices g → edge g u v → precedes result u v)
    as Hsound.
  { intros Hlen.
    assert (result ≡ₚ get_vertices g) as Hperm.
    { apply submseteq_length_Permutation; [|lia].
      by apply NoDup_submseteq. }
    split; [done|]. intros u v Hu He.
    apply (ki_order _ _ _ _ Hinv); [done..|].
    rewrite Hperm. by apply (Hc u). }
  exists (if decide (length result ≠ length (get_vertices g)) then None
          else Some result).
  split.
  { intros n Hn. unfold TopologicalSort.topological_sort. rewrite Hd. simpl.
    fold in_degree. fold queue. rewrite (Hloop n Hn). simpl.
    by destruct (decide (length result ≠ length (get_vertices g))). }
  split.
  { intros order Hr.
    destruct (decide (length result ≠ length (get_vertices g))) as [|Hlen];
      [done|]. injection Hr as <-. apply Hsound. lia. }
  split.
  - intros Hnone.
    destruct (decide (length result ≠ length (get_vertices g))) as [Hlen|];
      [|done].
    (* some vertex is missing from the result *)
    destruct (decide (Forall (λ v, v ∈ result) (get_vertices g))) as [Hall|Hex].
    { exfalso. apply Hlen. apply Nat.le_antisymm.
      - rewrite <- (size_list_to_set (C:=gset Z) (get_vertices g)) by done.
        apply NoDup_length_size; [done|]. intros x Hx.
        apply elem_of_list_to_set. by apply Hsub.
      - rewrite <- (size_list_to_set (C:=gset Z) result) by done.
        apply NoDup_length_size; [done|]. intros x Hx.
        apply elem_of_list_to_set.
        by apply (proj1 (Forall_forall _ _) Hall). }
    apply not_Forall_Exists in Hex; [|apply _].
    apply Exists_exists in Hex as (v0 & Hv0 & Hnr).
    destruct (predecessors_cycle g
                (λ v, v ∈ get_vertices g ∧ v ∉ result)
                (list_to_set (get_vertices g)) v0)
      as (x & n & [Hx _] & Hw); [set_solver| |done|by exists x, n].
    intros v [Hv Hvr].
    destruct (indegree_outside_pos g result (get_vertices g) v)
      as (u & Hu & Hur & He); [|by exists u].
    pose proof (indegree_outside_nonneg g result (get_vertices g) v).
    destruct (decide (indegree_outside g result (get_vertices g) v = 0))
      as [Hz|]; [|lia].
    exfalso. apply Hvr. pose proof (ki_ready _ _ _ _ Hinv v Hv Hz) as Hin.
    by rewrite app_nil_r in Hin.
  - intros (v & n & Hv & Hw).
    destruct (decide (length result ≠ length (get_vertices g))) as [|Hlen];
      [done|]. exfalso.
    destruct Hsound as [_ Hord]; [lia|].
    destruct (walk_precedes g result v (S n) v Hc Hord Hv Hw) as [_ [?|Hp]];
      [done|]. by apply precedes_irrefl in Hp.
Qed.

(** X20: [topological_sort] (Kahn's algorithm) on a directed graph whose
    vertices are distinct and whose neighbours are vertices returns within
    one iteration per vertex and does not raise; a list it returns holds
    every vertex once, and every edge goes from an earlier to a later
    vertex of it; it returns [None] exactly when the graph has a cycle. *)
Theorem topological_sort_is_topological {G : Type} `{Graph G} (g : G) :
  closed g → NoDup (get_vertices g) → directed g = true →
  ∃ r,
    (∀ n, (length (get_vertices g) ≤ n)%nat →
       TopologicalSort.topological_sort n g = Return r)
    ∧ (∀ order, r = Some order →
         order ≡ₚ get_vertices g
         ∧ ∀ u v, u ∈ get_vertices g → edge g u v → precedes order u v)
    ∧ (r = None ↔ ∃ v n, v ∈ get_vertices g ∧ walk g v (S n) v).
Proof. apply kahn_sort_spec. Qed.

Lemma topological_sort_is_topological_witness :
  closed (list_run true false dag_edges)
  ∧ NoDup (get_vertices (list_run true false dag_edges))
  ∧ directed (list_run true false dag_edges) = true
  ∧ ∃ r,
      (∀ n, (length (get_vertices (list_run true false dag_edges)) ≤ n)%nat →
         TopologicalSort.topological_sort n (list_run true false dag_edges)
         = Return r)
      ∧ (∀ order, r = Some order →
           order ≡ₚ get_vertices (list_run true false dag_edges)
           ∧ ∀ u v, u ∈ get_vertices (list_run true false dag_edges) →
               edge (list_run true false dag_edges) u v → precedes order u v)
      ∧ (r = None
         ↔ ∃ v n, v ∈ get_vertices (list_run true false dag_edges)
                  ∧ walk (list_run true false dag_edges) v (S n) v).
Proof.
  split; [apply list_run_closed|]. split; [apply list_run_NoDup|].
  split; [reflexivity|].
  apply (topological_sort_is_topological (list_run true false dag_edges)).
  - apply list_run_closed.
  - apply list_run_NoDup.
  - reflexivity.
Defined.
(** ** The depth-first topological sort *)

Lemma before_app_r l k a b : before l a b → before (l ++ k) a b.
Proof.
  intros (l1 & l2 & l3 & ->). exists l1, l2, (l3 ++ k).
  by rewrite <- !app_assoc, <- !app_comm_cons, <- app_assoc.
Qed.

Lemma before_snoc l a b : a ∈ l → before (l ++ [b]) a b.
Proof.
  intros (l1 & l2 & ->)%list_elem_of_split. exists l1, l2, [].
  by rewrite <- app_assoc.
Qed.

(** in a list without repetition, [before] is [precedes] *)
Lemma before_precedes l a b : NoDup l → before l a b → precedes l a b.
Proof.
  intros Hnd (l1 & l2 & l3 & ->).
  assert (∀ (k1 k2 : list Z) x, x ∉ k1 →
            index (k1 ++ x :: k2) x = Some (length k1)) as Hidx.
  { intros k1 k2 x. induction k1 as [|y k1 IH]; intros Hx; simpl.
    - by rewrite decide_True.
    - rewrite decide_False by set_solver. by rewrite IH by set_solver. }
  apply NoDup_app in Hnd as (_ & Hd1 & Hnd).
  apply NoDup_cons in Hnd as [Ha Hnd].
  apply NoDup_app in Hnd as (_ & Hd2 & Hnd).
  exists (length l1), (length (l1 ++ a :: l2)).
  split; [apply Hidx; intros Hin; apply (Hd1 _ Hin); set_solver|].
  split.
  - replace (l1 ++ a :: l2 ++ b :: l3) with ((l1 ++ a :: l2) ++ b :: l3)
      by (by rewrite <- app_assoc).
    apply Hidx.
    intros [Hin|Hin]%elem_of_app.
    + apply (Hd1 _ Hin). set_solver.
    + apply elem_of_cons in Hin as [->|Hin]; [set_solver|].
      apply (Hd2 _ Hin). set_solver.
  - rewrite length_app. simpl. lia.
Qed.

Lemma before_reverse l a b : before l a b → before (reverse l) b a.
Proof.
  intros (l1 & l2 & l3 & ->). exists (reverse l3), (reverse l2), (reverse l1).
  rewrite reverse_app, reverse_cons, reverse_app, reverse_cons.
  by rewrite <- !app_assoc.
Qed.

Section topo_dfs.
Context {G : Type} `{Graph G}.
Implicit Types (g : G) (U : gset Z) (st : TopologicalSort.dfs_state).
Import TopologicalSort.

(** a call on a vertex of the recursion stack closes a cycle *)
Lemma topo_inv_cycle g U st path v :
  topo_inv g U st path → (∀ x, last path = Some x → edge g x v) →
  v ∈ rec_stack st → v ∈ U →
  ∃ x n, x ∈ U ∧ walk g x (S n) x.
Proof.
  intros Hinv Hlast Hv HU. rewrite (ti_stack _ _ _ _ Hinv) in Hv.
  apply elem_of_list_to_set, list_elem_of_split in Hv as (l1 & l2 & ->).
  pose proof (ti_path _ _ _ _ Hinv) as Hp. apply is_path_app_r in Hp.
  assert (is_path g ((v :: l2) ++ [v])) as Hp'.
  { apply is_path_snoc; [done|]. intros x Hx. apply Hlast.
    rewrite <- Hx, last_app.
    destruct (last (v :: l2)) eqn:E; [done|]. by apply last_None in E. }
  exists v, (length l2). split; [done|].
  replace (S (length l2)) with (length (l2 ++ [v]))
    by (rewrite length_app; simpl; lia).
  apply is_path_walk; [done|]. by rewrite app_comm_cons, last_snoc.
Qed.

(** entering a new vertex *)
Lemma topo_inv_push g U st path v :
  topo_inv g U st path → (∀ x, last path = Some x → edge g x v) →
  v ∉ visited st → v ∈ U →
  topo_inv g U
    {| visited := {[v]} ∪ visited st; rec_stack := {[v]} ∪ rec_stack st;
       result := result st |} (path ++ [v]).
Proof.
  intros Hinv Hlast Hv HU.
  pose proof (ti_sub _ _ _ _ Hinv) as Hsub.
  pose proof (ti_visited _ _ _ _ Hinv) as Hvis.
  constructor; simpl.
  - rewrite list_to_set_app_L, (ti_stack _ _ _ _ Hinv). set_solver.
  - apply is_path_snoc; [apply Hinv|done].
  - set_solver.
  - set_solver.
  - intros x. rewrite (ti_done _ _ _ _ Hinv). set_solver.
  - apply Hinv.
  - apply Hinv.
Qed.

(** leaving a vertex all of whose successors are in [result] *)
Lemma topo_inv_pop g U st path v :
  topo_inv g U st (path ++ [v]) → v ∉ path →
  (∀ w, edge g v w → w ∈ result st) →
  topo_inv g U
    {| visited := visited st; rec_stack := rec_stack st ∖ {[v]};
       result := result st ++ [v] |} path.
Proof.
  intros Hinv Hv Hsucc.
  pose proof (ti_stack _ _ _ _ Hinv) as Hst.
  rewrite list_to_set_app_L in Hst.
  assert (v ∉ list_to_set (C:=gset Z) path) as Hv'
    by by rewrite elem_of_list_to_set.
  assert (v ∈ visited st) as Hvv.
  { apply (ti_sub _ _ _ _ Hinv). rewrite Hst. set_solver. }
  assert (v ∉ result st) as Hvr.
  { intros [_ Hn]%(ti_done _ _ _ _ Hinv). apply Hn. rewrite Hst. set_solver. }
  constructor; simpl.
  - rewrite Hst. set_solver.
  - eapply is_path_app_l, Hinv.
  - apply Hinv.
  - pose proof (ti_sub _ _ _ _ Hinv). set_solver.
  - intros x. rewrite elem_of_app, (ti_done _ _ _ _ Hinv), Hst.
    rewrite list_elem_of_singleton.
    destruct (decide (x = v)) as [->|]; set_solver.
  - apply NoDup_app. split; [apply Hinv|]. split; [|apply NoDup_singleton].
    intros x Hx ->%list_elem_of_singleton. done.
  - intros u w [Hu | ->%list_elem_of_singleton]%elem_of_app He.
    + apply before_app_r. by apply (ti_succ _ _ _ _ Hinv).
    + by apply before_snoc, Hsucc.
Qed.

(** a vertex of [result] stays there as long as the recursion stack is the
    same *)
Lemma topo_inv_result_mono g U st st' path v :
  topo_inv g U st path → topo_inv g U st' path →
  visited st ⊆ visited st' → v ∈ result st → v ∈ result st'.
Proof.
  intros Hinv Hinv' Hsub [Hv Hn]%(ti_done _ _ _ _ Hinv).
  apply (ti_done _ _ _ _ Hinv'). split; [set_solver|].
  rewrite (ti_stack _ _ _ _ Hinv'). by rewrite <- (ti_stack _ _ _ _ Hinv).
Qed.

(** a call of the nested [dfs] returns when the depth exceeds the number of
    vertices not visited yet; it returns true with its vertex in [result]
    and the invariant kept, or false on a graph with a cycle *)
Lemma topo_dfs_spec g U :
  (∀ a b, edge g a b → b ∈ U) →
  ∀ N st path v depth,
    topo_inv g U st path → (∀ x, last path = Some x → edge g x v) →
    v ∈ U → (size (U ∖ visited st) ≤ N)%nat → (N < depth)%nat →
    ∃ ok st',
      dfs depth g v st = Return (ok, st')
      ∧ if ok : bool
        then topo_inv g U st' path ∧ visited st ⊆ visited st'
             ∧ v ∈ result st'
        else ∃ x n, x ∈ U ∧ walk g x (S n) x.
Proof.
  intros HU N. induction N as [N IH] using lt_wf_ind.
  intros st path v depth Hinv Hlast Hv Hsize Hdepth.
  destruct depth as [|depth]; [lia|]. simpl.
  destruct (decide (v ∈ rec_stack st)) as [Hvr|Hvr].
  { exists false, st. split; [done|]. by eapply topo_inv_cycle. }
  destruct (decide (v ∈ visited st)) as [Hvv|Hvv].
  { exists true, st. split; [done|]. split; [done|]. split; [done|].
    by apply (ti_done _ _ _ _ Hinv). }
  set (st1 := {| visited := {[v]} ∪ visited st;
                 rec_stack := {[v]} ∪ rec_stack st; result := result st |}).
  pose proof (topo_inv_push g U st path v Hinv Hlast Hvv Hv) as Hinv1.
  fold st1 in Hinv1.
  assert (size (U ∖ visited st1) < size (U ∖ visited st))%nat as Hlt.
  { apply subset_size. simpl. set_solver. }
  assert (∀ ns st2,
            topo_inv g U st2 (path ++ [v]) → visited st1 ⊆ visited st2 →
            (∀ w, w ∈ ns → edge g v w) →
            ∃ ok st3,
              all_ok (dfs depth g) ns st2 = Return (ok, st3)
              ∧ if ok : bool
                then topo_inv g U st3 (path ++ [v])
                     ∧ visited st2 ⊆ visited st3
                     ∧ ∀ w, w ∈ ns → w ∈ result st3
                else ∃ x n, x ∈ U ∧ walk g x (S n) x) as Hloop.
  { induction ns as [|w ns IHns]; intros st2 Hinv2 Hsub Hns.
    - exists true, st2. split; [done|]. split; [done|]. split; [done|].
      by intros w ?%elem_of_nil.
    - destruct (IH (N - 1)%nat ltac:(lia) st2 (path ++ [v]) w depth Hinv2)
        as ([] & st3 & Hr & Hpost).
      { intros x. rewrite last_snoc. intros [= <-]. apply Hns. set_solver. }
      { apply (HU v). apply Hns. set_solver. }
      { assert (size (U ∖ visited st2) ≤ size (U ∖ visited st1))%nat
          by (apply subseteq_size; set_solver). lia. }
      { lia. }
      + destruct Hpost as (Hinv3 & Hsub3 & Hw).
        destruct (IHns st3 Hinv3 ltac:(set_solver) ltac:(set_solver))
          as ([] & st4 & Hr4 & Hpost4).
        * exists true, st4. simpl. rewrite Hr. simpl. split; [done|].
          destruct Hpost4 as (Hinv4 & Hsub4 & Hall).
          split; [done|]. split; [set_solver|].
          intros w' [->|Hw']%elem_of_cons; [|by apply Hall].
          by apply (topo_inv_result_mono g U st3 st4 (path ++ [v])).
        * exists false, st4. simpl. rewrite Hr. simpl. by split.
      + exists false, st3. simpl. rewrite Hr. simpl. by split. }
  destruct (Hloop (neighbors g v) st1 Hinv1 ltac:(done) ltac:(done))
    as ([] & st3 & -> & Hpost); simpl.
  - destruct Hpost as (Hinv3 & Hsub3 & Hall).
    assert (v ∈ rec_stack st3) as Hin.
    { rewrite (ti_stack _ _ _ _ Hinv3), list_to_set_app_L. set_solver. }
    rewrite decide_True by done.
    assert (v ∉ path) as Hvp.
    { intros Hp. apply Hvr. rewrite (ti_stack _ _ _ _ Hinv).
      by apply elem_of_list_to_set. }
    eexists true, _. split; [done|]. split.
    { by apply topo_inv_pop. }
    simpl. split; [set_solver|]. set_solver.
  - by exists false, st3.
Qed.

(** the loop of [topological_sort_dfs] over the vertices *)
Lemma topo_dfs_loop g U depth :
  (∀ a b, edge g a b → b ∈ U) → (size U < depth)%nat →
  ∀ vs st,
    topo_inv g U st [] → (∀ v, v ∈ vs → v ∈ U) →
    ∃ ok st',
      all_ok (λ vertex st, if decide (vertex ∈ visited st)
                            then Return (true, st)
                            else dfs depth g vertex st) vs st
      = Return (ok, st')
      ∧ if ok : bool
        then topo_inv g U st' [] ∧ visited st ⊆ visited st'
             ∧ ∀ v, v ∈ vs → v ∈ result st'
        else ∃ x n, x ∈ U ∧ walk g x (S n) x.
Proof.
  intros HU Hdepth. induction vs as [|v vs IH]; intros st Hinv Hvs.
  - exists true, st. split; [done|]. split; [done|]. split; [done|].
    by intros v ?%elem_of_nil.
  - assert (∃ ok st1,
              (if decide (v ∈ visited st) then Return (true, st)
               else dfs depth g v st) = Return (ok, st1)
              ∧ if ok : bool
                then topo_inv g U st1 [] ∧ visited st ⊆ visited st1
                     ∧ v ∈ result st1
                else ∃ x n, x ∈ U ∧ walk g x (S n) x)
      as ([] & st1 & Hr & Hpost).
    { destruct (decide (v ∈ visited st)) as [Hv|Hv].
      - exists true, st. split; [done|]. split; [done|]. split; [done|].
        apply (ti_done _ _ _ _ Hinv). split; [done|].
        rewrite (ti_stack _ _ _ _ Hinv). set_solver.
      - apply (topo_dfs_spec g U HU (size U) st [] v depth); [done..| | |done].
        + set_solver.
        + apply subseteq_size. set_solver. }
    + destruct Hpost as (Hinv1 & Hsub1 & Hv1).
      destruct (IH st1 Hinv1 ltac:(set_solver)) as ([] & st2 & Hr2 & Hpost2).
      * exists true, st2. simpl. rewrite Hr. simpl. split; [done|].
        destruct Hpost2 as (Hinv2 & Hsub2 & Hall).
        split; [done|]. split; [set_solver|].
        intros v' [->|Hv']%elem_of_cons; [|by apply Hall].
        by apply (topo_inv_result_mono g U st1 st2 []).
      * exists false, st2. simpl. rewrite Hr. simpl. by split.
    + exists false, st1. simpl. rewrite Hr. simpl. by split.
Qed.
End topo_dfs.

(** what [topological_sort_dfs] returns *)
Lemma topo_dfs_sort_spec {G : Type} `{Graph G} (g : G) :
  closed g → NoDup (get_vertices g) → directed g = true →
  ∃ r,
    (∀ n, (length (get_vertices g) < n)%nat →
       TopologicalSort.topological_sort_dfs n g = Return r)
    ∧ (∀ order, r = Some order →
         order ≡ₚ get_vertices g
         ∧ ∀ u v, u ∈ get_vertices g → edge g u v → precedes order u v)
    ∧ (r = None ↔ ∃ v n, v ∈ get_vertices g ∧ walk g v (S n) v).
Proof.
  intros Hc Hnd Hd.
  set (U := list_to_set (C:=gset Z) (get_vertices g)).
  assert (size U = length (get_vertices g)) as HsU
    by by apply size_list_to_set.
  assert (∀ a b, edge g a b → b ∈ U) as HU.
  { intros a b He. apply elem_of_list_to_set. by apply (Hc a). }
  destruct (topo_dfs_loop g U (S (length (get_vertices g))) HU ltac:(lia)
              (get_vertices g)
              {| TopologicalSort.visited := ∅; TopologicalSort.rec_stack := ∅;
                 TopologicalSort.result := [] |})
    as (ok & st & Hr & Hpost).
  { constructor; simpl; try done; try set_solver. constructor. }
  { intros v Hv. by apply elem_of_list_to_set. }
  assert (ok = true →
          reverse (TopologicalSort.result st) ≡ₚ get_vertices g
          ∧ ∀ u v, u ∈ get_vertices g → edge g u v →
              precedes (reverse (TopologicalSort.result st)) u v) as Hsound.
  { intros ->. destruct Hpost as (Hinv & _ & Hall).
    pose proof (ti_nodup _ _ _ _ Hinv) as Hndr.
    split.
    - rewrite reverse_Permutation. apply NoDup_Permutation; [done..|].
      intros x. split; [|apply Hall].
      intros [Hx _]%(ti_done _ _ _ _ Hinv).
      apply (ti_visited _ _ _ _ Hinv) in Hx.
      by apply elem_of_list_to_set in Hx.
    - intros u v Hu He. apply before_precedes; [by rewrite reverse_Permutation|].
      apply before_reverse. apply (ti_succ _ _ _ _ Hinv); [|done].
      by apply Hall. }
  exists (if ok then Some (reverse (TopologicalSort.result st)) else None).
  split.
  { intros n Hn.
    assert (TopologicalSort.topological_sort_dfs
              (S (length (get_vertices g))) g
            = Return (if ok then Some (reverse (TopologicalSort.result st))
                      else None)) as Hres.
    { unfold TopologicalSort.topological_sort_dfs. rewrite Hd. cbn [negb].
      rewrite Hr. by destruct ok. }
    replace n with (S (length (get_vertices g))
                    + (n - S (length (get_vertices g))))%nat by lia.
    rewrite topological_sort_dfs_mono; [done|]. by rewrite Hres. }
  split.
  { intros order Hrn. destruct ok; [|done]. injection Hrn as <-.
    by apply Hsound. }
  split.
  - intros Hnone. destruct ok; [done|].
    destruct Hpost as (x & n & Hx & Hw). exists x, n.
    split; [|done]. by apply elem_of_list_to_set in Hx.
  - intros (v & n & Hv & Hw). destruct ok; [|done]. exfalso.
    destruct (Hsound eq_refl) as [_ Hord].
    destruct (walk_precedes g _ v (S n) v Hc Hord Hv Hw) as [_ [?|Hp]];
      [done|]. by apply precedes_irrefl in Hp.
Qed.

(** X21: [topological_sort_dfs] on a directed graph whose vertices are
    distinct and whose neighbours are vertices returns once the call depth
    exceeds the number of vertices, and does not raise; a list it returns
    holds every vertex once, and every edge goes from an earlier to a later
    vertex of it; it returns [None] exactly when the graph has a cycle. *)
Theorem topological_sort_dfs_is_topological {G : Type} `{Graph G} (g : G) :
  closed g → NoDup (get_vertices g) → directed g = true →
  ∃ r,
    (∀ n, (length (get_vertices g) < n)%nat →
       TopologicalSort.topological_sort_dfs n g = Return r)
    ∧ (∀ order, r = Some order →
         order ≡ₚ get_vertices g
         ∧ ∀ u v, u ∈ get_vertices g → edge g u v → precedes order u v)
    ∧ (r = None ↔ ∃ v n, v ∈ get_vertices g ∧ walk g v (S n) v).
Proof. apply topo_dfs_sort_spec. Qed.

Lemma topological_sort_dfs_is_topological_witness :
  closed (list_run true false dag_edges)
  ∧ NoDup (get_vertices (list_run true false dag_edges))
  ∧ directed (list_run true false dag_edges) = true
  ∧ ∃ r,
      (∀ n, (length (get_vertices (list_run true false dag_edges)) < n)%nat →
         TopologicalSort.topological_sort_dfs n (list_run true false dag_edges)
         = Return r)
      ∧ (∀ order, r = Some order →
           order ≡ₚ get_vertices (list_run true false dag_edges)
           ∧ ∀ u v, u ∈ get_vertices (list_run true false dag_edges) →
               edge (list_run true false dag_edges) u v → precedes order u v)
      ∧ (r = None
         ↔ ∃ v n, v ∈ get_vertices (list_run true false dag_edges)
                  ∧ walk (list_run true false dag_edges) v (S n) v).
Proof.
  split; [apply list_run_closed|]. split; [apply list_run_NoDup|].
  split; [reflexivity|].
  apply (topological_sort_dfs_is_topological (list_run true false dag_edges)).
  - apply list_run_closed.
  - apply list_run_NoDup.
  - reflexivity.
Defined.

(** X22: the two topological sorts accept the same graphs: on a directed
    graph whose vertices are distinct and whose neighbours are vertices,
    with enough budget, one returns [None] exactly when the other does. *)
Theorem topological_sorts_agree {G : Type} `{Graph G} (g : G) :
  closed g → NoDup (get_vertices g) → directed g = true →
  ∃ r1 r2,
    (∀ n, (length (get_vertices g) < n)%nat →
       TopologicalSort.topological_sort n g = Return r1
       ∧ TopologicalSort.topological_sort_dfs n g = Return r2)
    ∧ (r1 = None ↔ r2 = None).
Proof.
  intros Hc Hnd Hd.
  destruct (kahn_sort_spec g Hc Hnd Hd) as (r1 & Hr1 & _ & Hn1).
  destruct (topo_dfs_sort_spec g Hc Hnd Hd) as (r2 & Hr2 & _ & Hn2).
  exists r1, r2. split.
  - intros n Hn. split; [apply Hr1; lia|by apply Hr2].
  - by rewrite Hn1, Hn2.
Qed.

Lemma topological_sorts_agree_witness :
  closed (list_run true false cycle_edges)
  ∧ NoDup (get_vertices (list_run true false cycle_edges))
  ∧ directed (list_run true false cycle_edges) = true
  ∧ ∃ r1 r2,
      (∀ n, (length (get_vertices (list_run true false cycle_edges)) < n)%nat →
         TopologicalSort.topological_sort n (list_run true false cycle_edges)
         = Return r1
         ∧ TopologicalSort.topological_sort_dfs n
             (list_run true false cycle_edges) = Return r2)
      ∧ (r1 = None ↔ r2 = None).
Proof.
  split; [apply list_run_closed|]. split; [apply list_run_NoDup|].
  split; [reflexivity|].
  apply (topological_sorts_agree (list_run true false cycle_edges)).
  - apply list_run_closed.
  - apply list_run_NoDup.
  - reflexivity.
Defined.
(** X23: on a graph whose edges go both ways [is_connected] returns true
    exactly when every vertex can be reached from every other one. *)
Theorem is_connected_means_reachable {G : Type} `{Graph G} (g : G) :
  closed g → (∀ a b, edge g a b → edge g b a) →
  ∃ k connected,
    (∀ n, (k ≤ n)%nat → Connectivity.is_connected n g = Return connected)
    ∧ (connected = true
       ↔ ∀ u v, u ∈ get_vertices g → v ∈ get_vertices g → reachable g u v).
Proof.
  intros Hc Hsym.
  destruct (find_connected_components_returns g Hc) as (k & cs & X' & Hcf & Hr).
  pose proof (comps_from_NoDup _ _ _ _ _ Hcf) as [Hnd _].
  pose proof (comps_from_cover _ _ _ _ _ Hcf) as Hcover.
  rewrite (comps_from_visited _ _ _ _ _ Hcf) in Hcover.
  assert (∀ v, v ∈ get_vertices g → v ∈ concat cs) as Hall.
  { intros v Hv%Hcover. set_solver. }
  assert (Hcl := comps_from_classes g _ _ _ _ Hsym
                  (λ a b _ (Hb : b ∈ (∅ : gset Z)), Hb) Hcf).
  pose proof (comps_from_vertices g _ _ _ _ Hc ltac:(done) Hcf) as Hin.
  exists k, (match get_vertices g with
             | [] => true
             | _ => bool_decide (length cs = 1%nat)
             end).
  split.
  { intros n Hn. unfold Connectivity.is_connected. rewrite (Hr n Hn).
    by destruct (get_vertices g). }
  destruct (get_vertices g) as [|v0 vs] eqn:Hvs.
  { split; [|done]. intros _ u v Hu. by apply elem_of_nil in Hu. }
  rewrite bool_decide_eq_true. split.
  - intros Hlen u v Hu Hv.
    destruct cs as [|c [|c' cs]]; try done.
    apply Forall_cons in Hcl as [[_ Hc1] _].
    apply Hall in Hu, Hv. simpl in Hu, Hv. rewrite app_nil_r in Hu, Hv.
    by apply (Hc1 u v).
  - intros Hreach.
    destruct cs as [|c1 [|c2 cs]]; [|done|].
    + specialize (Hall v0 ltac:(set_solver)). by apply elem_of_nil in Hall.
    + exfalso.
      apply Forall_cons in Hcl as [[Hne1 Hc1] Hcl].
      apply Forall_cons in Hcl as [[Hne2 Hc2] _].
      destruct c1 as [|x c1]; [done|]. destruct c2 as [|y c2]; [done|].
      assert (x ∈ v0 :: vs) as Hx by (apply Hin; set_solver).
      assert (y ∈ v0 :: vs) as Hy by (apply Hin; set_solver).
      assert (y ∈ x :: c1) as Hy1.
      { apply (Hc1 x y); [set_solver|]. by apply Hreach. }
      simpl in Hnd. apply NoDup_cons in Hnd as [Hx1 Hnd].
      apply elem_of_cons in Hy1 as [->|Hy1]; [set_solver|].
      apply NoDup_app in Hnd as (_ & Hd & _). apply (Hd y Hy1). set_solver.
Qed.

Lemma is_connected_means_reachable_witness :
  closed (list_run false false reference_edges)
  ∧ (∀ a b, edge (list_run false false reference_edges) a b →
            edge (list_run false false reference_edges) b a)
  ∧ ∃ k connected,
      (∀ n, (k ≤ n)%nat →
         Connectivity.is_connected n (list_run false false reference_edges)
         = Return connected)
      ∧ (connected = true
         ↔ ∀ u v, u ∈ get_vertices (list_run false false reference_edges) →
             v ∈ get_vertices (list_run false false reference_edges) →
             reachable (list_run false false reference_edges) u v).
Proof.
  split; [apply list_run_closed|]. split; [apply list_run_symmetric|].
  apply (is_connected_means_reachable (list_run false false reference_edges)).
  - apply list_run_closed.
  - apply list_run_symmetric.
Defined.
